(** * Fuzzy Search: a shallow embedding of [src/Fuzzy Search/main.py]

    The script finds, in the text of an e-mail, the n-grams that resemble the
    entries of a restricted list (Levenshtein ratio), ranks and de-duplicates
    them and highlights them in the HTML body.

    Conventions of the embedding.
    - A Python [str] is a [list ascii]; a character is a code point below 256
      and the character classes of Python ([str.isspace], [str.isalnum],
      [str.isdigit], the regex classes [\w], [\d], [\s]) are written out on
      that range.
    - A Python [int] is a [Z]; a length is a [nat] injected into [Z] where the
      source mixes it with an [int].
    - A Python [float] (a similarity ratio, a threshold) is a rational [Q]:
      a finite float is a rational number, and the only operations of the
      source on these floats are the comparison [r > similarity] and the
      sort.
    - A pandas data frame with the columns [matched_word], [restricted_word]
      and [similarity] is a [list Match], one record per row, in row order.
    - Code that can raise returns a [result]; code that mutates its argument
      returns the new value of the argument next to its result.
    - What the libraries leave open is a parameter: [sim] is the similarity
      [Levenshtein.ratio] computes, [tie_order] the order in which the sort
      of pandas puts rows of equal similarity. The theorems hold for every
      [sim] and every [tie_order]. *)

From Stdlib Require Import Ascii String ZArith QArith Bool Arith Lia List.
From Stdlib Require Import Permutation Sorted.
Import ListNotations.

Close Scope Q_scope.
Open Scope list_scope.
Set Implicit Arguments.

(** ** Strings *)

Module PyStr.

Definition str := list ascii.

(** A string literal of the source. *)
Definition lit (s : string) : str := list_ascii_of_string s.

Definition str_eqb (a b : str) : bool :=
  if list_eq_dec ascii_dec a b then true else false.

Definition code (c : ascii) : nat := nat_of_ascii c.

Definition between (lo hi : nat) (c : ascii) : bool :=
  (lo <=? code c)%nat && (code c <=? hi)%nat.

Definition one_of (l : list nat) (c : ascii) : bool :=
  existsb (Nat.eqb (code c)) l.

(** [str.isspace] on one character: TAB, LF, VT, FF, CR, FS, GS, RS, US,
    SPACE, NEL and NBSP. *)
Definition is_space (c : ascii) : bool :=
  between 9 13 c || between 28 32 c || one_of [133; 160] c.

(** [[a-zA-Z0-9]] *)
Definition is_ascii_alnum (c : ascii) : bool :=
  between 48 57 c || between 65 90 c || between 97 122 c.

(** [str.isalpha] on one character. *)
Definition is_alpha (c : ascii) : bool :=
  between 65 90 c || between 97 122 c || one_of [170; 181; 186] c
  || between 192 214 c || between 216 246 c || between 248 255 c.

(** [str.isdecimal] on one character; also the regex class [\d]. *)
Definition is_decimal (c : ascii) : bool := between 48 57 c.

(** [str.isdigit] on one character: the decimal digits and the
    superscripts 1, 2, 3. *)
Definition is_digit (c : ascii) : bool :=
  is_decimal c || one_of [178; 179; 185] c.

(** [str.isnumeric] on one character: the digits and the vulgar fractions. *)
Definition is_numeric (c : ascii) : bool :=
  is_digit c || between 188 190 c.

(** [str.isalnum] on one character. *)
Definition is_alnum (c : ascii) : bool :=
  is_alpha c || is_decimal c || is_digit c || is_numeric c.

(** The regex class [\w]. *)
Definition is_word (c : ascii) : bool := is_alnum c || one_of [95] c.

(** [s.isspace()], [s.isalnum()], [s.isdigit()]: every character is in the
    class and there is at least one character. *)
Definition all_chars (p : ascii -> bool) (s : str) : bool :=
  negb (Nat.eqb (length s) 0) && forallb p s.

Definition isspace : str -> bool := all_chars is_space.
Definition isalnum : str -> bool := all_chars is_alnum.
Definition isdigit : str -> bool := all_chars is_digit.

Fixpoint lstrip (s : str) : str :=
  match s with
  | c :: s' => if is_space c then lstrip s' else s
  | [] => []
  end.

Definition rstrip (s : str) : str := rev (lstrip (rev s)).

(** [s.strip()] *)
Definition strip (s : str) : str := rstrip (lstrip s).

(** [s.split()]: the maximal runs of characters that are not white space.
    [cur] is the run being read, last character first. *)
Fixpoint split_from (cur : str) (s : str) : list str :=
  match s with
  | c :: s' =>
      if is_space c then
        match cur with
        | [] => split_from [] s'
        | _ => rev cur :: split_from [] s'
        end
      else split_from (c :: cur) s'
  | [] =>
      match cur with
      | [] => []
      | _ => [rev cur]
      end
  end.

Definition split (s : str) : list str := split_from [] s.

(** [s.replace(a, b)] for single characters [a] and [b]. *)
Definition replace_char (a b : ascii) (s : str) : str :=
  map (fun c => if Ascii.eqb c a then b else c) s.

(** [' '.join(l)] *)
Fixpoint join_space (l : list str) : str :=
  match l with
  | [] => []
  | [w] => w
  | w :: l' => w ++ lit " " ++ join_space l'
  end.

(** [l[k]] for a Python list: a negative index counts from the end. *)
Definition index (A : Type) (l : list A) (k : Z) : option A :=
  let n := Z.of_nat (length l) in
  if (k <? 0)%Z then
    if (n + k <? 0)%Z then None else nth_error l (Z.to_nat (n + k))
  else nth_error l (Z.to_nat k).

End PyStr.
Import PyStr.

(** ** Results of code that can raise *)

(** [IndexError] and [TypeError] are Python's exceptions. [OutOfFuel] is
    the answer of a loop of the model whose fuel is spent; the theorems
    show that it does not occur. [NotModelled] marks the one input the model leaves out, a
    replacement string with a backslash escape (see [highlight_word]). *)
Inductive result (A : Type) : Type :=
| Ok (a : A)
| IndexError
| TypeError
| OutOfFuel
| NotModelled.
Arguments IndexError {A}.
Arguments TypeError {A}.
Arguments OutOfFuel {A}.
Arguments NotModelled {A}.

Definition bind (A B : Type) (r : result A) (k : A -> result B) : result B :=
  match r with
  | Ok a => k a
  | IndexError => IndexError
  | TypeError => TypeError
  | OutOfFuel => OutOfFuel
  | NotModelled => NotModelled
  end.

Notation "x <- r ;; k" := (bind r (fun x => k))
  (at level 61, r at next level, right associativity).

(** ** [get_ngrams] *)

(** The inner loop of [get_ngrams]:
    [while j < ngrams_value: temp_str = temp_str + ' ' + list_str[i+j]; j = j + 1]. *)
Fixpoint ngram_window (fuel : nat) (list_str : list str) (ngrams_value i j : Z)
  (temp_str : str) : result str :=
  match fuel with
  | O => OutOfFuel
  | S fuel' =>
      if (j <? ngrams_value)%Z then
        match index list_str (i + j) with
        | Some w =>
            ngram_window fuel' list_str ngrams_value i (j + 1)
              (temp_str ++ lit " " ++ w)
        | None => IndexError
        end
      else Ok temp_str
  end.

(** The outer loop:
    [while i <= len(list_str) - ngrams_value: ...; result.append(temp_str.strip()); i = i + 1]. *)
Fixpoint ngram_loop (fuel : nat) (list_str : list str) (ngrams_value i : Z)
  (res : list str) : result (list str) :=
  match fuel with
  | O => OutOfFuel
  | S fuel' =>
      if (i <=? Z.of_nat (length list_str) - ngrams_value)%Z then
        temp_str <- ngram_window (S (Z.to_nat ngrams_value)) list_str
                      ngrams_value i 0 [] ;;
        ngram_loop fuel' list_str ngrams_value (i + 1) (res ++ [strip temp_str])
      else Ok res
  end.

(** Both loops count a variable up to a bound that does not move, so the
    number of iterations is known when the loop starts; that number, plus
    one for the test that fails, is the fuel. *)
Definition get_ngrams (list_str : list str) (ngrams_value : Z) : result (list str) :=
  ngram_loop (S (Z.to_nat (Z.of_nat (length list_str) - ngrams_value + 1)))
    list_str ngrams_value 0 [].

(** What the inner loop appends to [temp_str]: each token with a space in
    front of it. *)
Definition spaced (ws : list str) : str :=
  concat (map (fun w => lit " " ++ w) ws).

(** The window of [ngrams_value] tokens that starts at token [i], joined
    with spaces and stripped. *)
Definition window_text (list_str : list str) (ngrams_value : Z) (i : nat) : str :=
  strip (join_space (firstn (Z.to_nat ngrams_value) (skipn i list_str))).

(** ** Match tables *)

(** A row of a data frame with the columns [matched_word],
    [restricted_word], [similarity]. *)
Record Match : Type := mkMatch {
  matched_word : str;
  restricted_word : str;
  similarity : Q
}.

(** [a > b] on floats. *)
Definition Qgtb (a b : Q) : bool := negb (Qle_bool a b).

(** A stable sort into descending order: [below x y] says that the key of
    [x] is strictly smaller than the key of [y]. An element is inserted
    in front of the first element whose key is not strictly greater, so
    rows with equal keys keep the order they had. *)
Section StableSort.
Variable A : Type.
Variable below : A -> A -> bool.

Fixpoint insert_desc (x : A) (l : list A) : list A :=
  match l with
  | [] => [x]
  | y :: l' => if below x y then y :: insert_desc x l' else x :: l
  end.

Definition sort_desc (l : list A) : list A := fold_right insert_desc [] l.

(** [x] may stand in front of [y]. *)
Definition may_precede (x y : A) : Prop := below x y = false.
End StableSort.

(** The order of the sort of line 193: a smaller similarity. *)
Definition by_similarity (x y : Match) : bool :=
  Qgtb (similarity y) (similarity x).

(** The exchange of the elements at the positions [k] and [k + 1]; nothing
    when there are no such two elements. *)
Fixpoint swap_at (A : Type) (k : nat) (l : list A) : list A :=
  match k, l with
  | O, a :: b :: rest => b :: a :: rest
  | S k', a :: rest => a :: swap_at k' rest
  | _, _ => l
  end.

(** The exchanges of a list of positions, one after the other. *)
Definition rearrange (A : Type) (swaps : list nat) (l : list A) : list A :=
  fold_left (fun l k => swap_at k l) swaps l.

(** [df.sort_values(by=['similarity'], ascending=False)] (line 193). The
    call names no [kind], so pandas sorts with its default, quicksort, which
    is not stable: the rows come out in descending order of similarity, and
    in which order rows of equal similarity come out is the choice of the
    algorithm, and may depend on the whole table. [tie_order] stands for
    that choice: the exchanges of neighbours it gives for a table are made
    before a stable sort. Whatever [tie_order] is, the result is the table
    rearranged into descending order, and every such arrangement is the
    result for some [tie_order] (lemma [sort_values_any_order]). *)
Definition sort_values (tie_order : list Match -> list nat) (df : list Match)
  : list Match :=
  sort_desc by_similarity (rearrange (tie_order df) df).

(** The choice that leaves rows of equal similarity in the order they have
    in the table: a stable sort. *)
Definition keep_order (df : list Match) : list nat := [].

(** [df.drop_duplicates(subset=[key], keep='first')]: a row is dropped when
    an earlier row has the same value in the column; [seen] holds the values
    of the rows already read. *)
Fixpoint drop_duplicates_from (key : Match -> str) (seen : list str)
  (df : list Match) : list Match :=
  match df with
  | [] => []
  | row :: df' =>
      if existsb (str_eqb (key row)) seen
      then drop_duplicates_from key seen df'
      else row :: drop_duplicates_from key (key row :: seen) df'
  end.

Definition drop_duplicates (key : Match -> str) (df : list Match) : list Match :=
  drop_duplicates_from key [] df.

(** Lines 193-197 of [fuzzy_search]: sort by similarity, then drop the
    duplicates of [matched_word], then those of [restricted_word]. *)
Definition rank_dedup (tie_order : list Match -> list nat)
  (matches_df : list Match) : list Match :=
  drop_duplicates restricted_word
    (drop_duplicates matched_word (sort_values tie_order matches_df)).

(** ** Matching *)

Definition newline : ascii := ascii_of_nat 10.
Definition space : ascii := ascii_of_nat 32.
Definition backslash : ascii := ascii_of_nat 92.
Definition dquote : ascii := ascii_of_nat 34.

(** [len(x.split())] *)
Definition word_count (x : str) : nat := length (split x).

(** The order of the sort of [fuzzy_search]: fewer words. *)
Definition by_word_count (x y : str) : bool :=
  (word_count x <? word_count y)%nat.

(** [re.sub(pattern, '', input)] with [pattern = [^a-zA-Z0-9]]. *)
Definition alnum_only (input : str) : str := filter is_ascii_alnum input.

(** [re.match(strip_pattern, c)] on a single character, with
    [strip_pattern = [^\w\d\s\.]]. *)
Definition strip_pattern (c : ascii) : bool :=
  negb (is_word c || is_decimal c || is_space c || Ascii.eqb c "."%char).

(** [if re.match(strip_pattern, input[-1]): input = input[:-1]].
    The caller has checked that [input] is not empty, so [input[-1]] exists. *)
Definition trim_last (input : str) : str :=
  match index input (-1) with
  | Some c => if strip_pattern c then removelast input else input
  | None => input
  end.

Section Matching.

(** [Levenshtein.ratio] is not code of this repository. [sim s1 s2] is the
    normalized similarity it computes. With [score_cutoff] the library first
    checks the cutoff and raises [TypeError] (score_cutoff has to be in the
    range of 0.0 - 1.0) for a cutoff below 0 or above 1; it then returns 0
    in place of a similarity below the cutoff. *)
Variable sim : str -> str -> Q.

(** The choice of the sort of line 193 among rows of equal similarity. *)
Variable tie_order : list Match -> list nat.

Definition in_range (score_cutoff : Q) : bool :=
  Qle_bool 0 score_cutoff && Qle_bool score_cutoff 1.

Definition ratio (s1 s2 : str) (score_cutoff : Q) : result Q :=
  if in_range score_cutoff
  then Ok (if Qle_bool score_cutoff (sim s1 s2) then sim s1 s2 else 0%Q)
  else TypeError.

(** The score of a candidate against a restricted word (lines 114-117). *)
Definition score (input res : str) (similarity : Q) (restricted_type : str)
  : result Q :=
  if str_eqb restricted_type (lit "ticker")
  then ratio (alnum_only input) res similarity
  else ratio input res similarity.

(** The inner loop of [get_matches] (lines 110-120), [input] already
    trimmed; [matches] is the list the rows are appended to. *)
Fixpoint matches_of (input : str) (restricted_list : list str)
  (similarity : Q) (restricted_type : str) (matches : list Match)
  : result (list Match) :=
  match restricted_list with
  | [] => Ok matches
  | res :: restricted_list' =>
      r <- score input res similarity restricted_type ;;
      matches_of input restricted_list' similarity restricted_type
        (if Qgtb r similarity
         then matches ++ [mkMatch (strip input) res r]
         else matches)
  end.

(** The body of the outer loop (lines 103-120). *)
Definition candidate_matches (input : str) (restricted_list : list str)
  (similarity : Q) (restricted_type : str) (matches : list Match)
  : result (list Match) :=
  if (length input =? 0)%nat || isspace input then Ok matches
  else
    matches_of (trim_last input) restricted_list similarity restricted_type
      matches.

(** The outer loop (lines 102-120). *)
Fixpoint get_matches_from (content_list restricted_list : list str)
  (similarity : Q) (restricted_type : str) (matches : list Match)
  : result (list Match) :=
  match content_list with
  | [] => Ok matches
  | input :: content_list' =>
      matches' <-
        candidate_matches input restricted_list similarity restricted_type
          matches ;;
      get_matches_from content_list' restricted_list similarity
        restricted_type matches'
  end.

Definition get_matches (content_list restricted_list : list str)
  (similarity : Q) (restricted_type : str) : result (list Match) :=
  get_matches_from content_list restricted_list similarity restricted_type [].

(** The loop of [fuzzy_search] (lines 175-190); [max_word_len] counts down
    to 0. *)
Fixpoint collect (max_word_len : nat) (content_list restricted_words : list str)
  (similarity : Q) (restricted_type : str) (matches_df : list Match)
  : result (list Match) :=
  match max_word_len with
  | O => Ok matches_df
  | S next =>
      let temp :=
        filter (fun elem => (word_count elem =? max_word_len)%nat)
          restricted_words in
      matches_df' <-
        (if (0 <? length temp)%nat then
           ngrams <- get_ngrams content_list (Z.of_nat max_word_len) ;;
           current_matches <-
             get_matches ngrams temp similarity restricted_type ;;
           Ok (matches_df ++ current_matches)
         else Ok matches_df) ;;
      collect next content_list restricted_words similarity restricted_type
        matches_df'
  end.

(** [restricted_words.sort(key=lambda x: len(x.split()), reverse=True)]:
    Python's sort is stable, also with [reverse=True]. *)
Definition sort_restricted (restricted_words : list str) : list str :=
  sort_desc by_word_count restricted_words.

(** [fuzzy_search] sorts the list it is given in place: the first
    component is that list when the function returns or raises, the
    second is the returned data frame or the exception. *)
Definition fuzzy_search (input_string : str) (restricted_words : list str)
  (similarity : Q) (restricted_type : str)
  : list str * result (list Match) :=
  let content_list := split (replace_char newline space input_string) in
  let restricted_words := sort_restricted restricted_words in
  (restricted_words,
   match index restricted_words 0 with
   | None => IndexError
   | Some first =>
       matches_df <-
         collect (word_count first) content_list restricted_words
           similarity restricted_type [] ;;
       Ok (rank_dedup tie_order matches_df)
   end).

End Matching.

(** *** The table before the threshold

    For the comparison of two thresholds: the rows [get_matches] and the
    loop of [fuzzy_search] would give if every pair were kept, each with the
    similarity of the pair without cutoff. *)
Section Unfiltered.
Variable sim : str -> str -> Q.

Definition raw_score (input res : str) (restricted_type : str) : Q :=
  if str_eqb restricted_type (lit "ticker")
  then sim (alnum_only input) res
  else sim input res.

Definition all_pairs (content_list restricted_list : list str)
  (restricted_type : str) : list Match :=
  flat_map
    (fun input =>
       if (length input =? 0)%nat || isspace input then []
       else
         map (fun res =>
                mkMatch (strip (trim_last input)) res
                  (raw_score (trim_last input) res restricted_type))
           restricted_list)
    content_list.

Fixpoint collect_all (max_word_len : nat) (content_list restricted_words : list str)
  (restricted_type : str) : list Match :=
  match max_word_len with
  | O => []
  | S next =>
      let temp :=
        filter (fun elem => (word_count elem =? max_word_len)%nat)
          restricted_words in
      (if (0 <? length temp)%nat then
         all_pairs
           (map (window_text content_list (Z.of_nat max_word_len))
              (seq 0 (Z.to_nat
                        (Z.max 0 (Z.of_nat (length content_list)
                                  - Z.of_nat max_word_len + 1)))))
           temp restricted_type
       else [])
      ++ collect_all next content_list restricted_words restricted_type
  end.

(** The rows above a threshold. *)
Definition above (threshold : Q) (row : Match) : bool :=
  Qgtb (similarity row) threshold.

(** Lines 162-190 of [fuzzy_search]: the table as it is when the loop is
    left, before line 193 sorts it. *)
Definition collected (input_string : str) (restricted_words : list str)
  (similarity : Q) (restricted_type : str) : result (list Match) :=
  let content_list := split (replace_char newline space input_string) in
  let restricted_words := sort_restricted restricted_words in
  match index restricted_words 0 with
  | None => IndexError
  | Some first =>
      collect sim (word_count first) content_list restricted_words
        similarity restricted_type []
  end.

End Unfiltered.

(** No two different rows of a table have the same similarity: the sort
    has no choice to make. *)
Definition no_ties (df : list Match) : Prop :=
  forall x y,
    In x df -> In y df -> (similarity x == similarity y)%Q -> x = y.

(** The similarity [Levenshtein.ratio] documents: with [d] the number of
    insertions and deletions that turn [a] into [b],
    [1 - d / (len(a) + len(b))], that is twice the length of a longest
    common subsequence over the sum of the lengths; 1 for two empty
    strings. *)
Fixpoint lcs (a b : str) : nat :=
  match a with
  | [] => 0
  | x :: a' =>
      (fix against (b : str) : nat :=
         match b with
         | [] => 0
         | y :: b' =>
             if Ascii.eqb x y then S (lcs a' b')
             else Nat.max (lcs a' b) (against b')
         end) b
  end.

(** The library computes this value in double precision, so what it
    returns can differ from the exact quotient in the last bit.
    [indel_similarity] is the exact quotient. It stands for [sim] in the
    examples only, and no similarity of an example is that near to a
    threshold. *)
Definition indel_similarity (a b : str) : Q :=
  let n := (length a + length b)%nat in
  if (n =? 0)%nat then 1%Q
  else Qred (Qmake (Z.of_nat (2 * lcs a b)) (Pos.of_nat n)).

(** ** Highlighting *)

(** The pattern [re.escape(word).replace('\\ ', '[\\n| ]*')]. [re.escape]
    leaves a character as it is or puts a backslash in front of it, and
    either way the result matches that character and nothing else; a space
    is always escaped, and the two characters backslash, space occur in the
    escaped string only there, so [replace] turns each space of [word] into
    [[\n| ]*]: any run, also empty, of line feeds, vertical bars and
    spaces. *)
Inductive re_item : Type :=
| Char (c : ascii)
| Gap.

Definition word_sub_re (word : str) : list re_item :=
  map (fun c => if Ascii.eqb c space then Gap else Char c) word.

(** The class [[\n| ]]. *)
Definition in_gap (c : ascii) : bool :=
  Ascii.eqb c newline || Ascii.eqb c "|"%char || Ascii.eqb c space.

(** The match of a pattern at the start of [s], as the backtracking matcher
    of [re] finds it; the result is what is left of [s] after the match.
    [star rest_of_pattern s] is [[\n| ]*] followed by the rest of the
    pattern: [*] is greedy, it takes the longest run first and gives
    characters back one at a time while the rest of the pattern fails. *)
Fixpoint star (rest_of_pattern : str -> option str) (s : str) : option str :=
  match s with
  | x :: s' =>
      if in_gap x then
        match star rest_of_pattern s' with
        | Some rest => Some rest
        | None => rest_of_pattern s
        end
      else rest_of_pattern s
  | [] => rest_of_pattern s
  end.

Fixpoint match_here (pat : list re_item) (s : str) : option str :=
  match pat with
  | [] => Some s
  | Char c :: pat' =>
      match s with
      | x :: s' => if Ascii.eqb x c then match_here pat' s' else None
      | [] => None
      end
  | Gap :: pat' => star (match_here pat') s
  end.

(** The strings a pattern matches. *)
Inductive matches : list re_item -> str -> Prop :=
| matches_nil : matches [] []
| matches_char (c : ascii) (pat : list re_item) (m : str) :
    matches pat m -> matches (Char c :: pat) (c :: m)
| matches_gap (run : str) (pat : list re_item) (m : str) :
    Forall (fun x => in_gap x = true) run ->
    matches pat m -> matches (Gap :: pat) (run ++ m).

(** [m] is matched at the start of [s]. *)
Definition occurs_at (pat : list re_item) (s m : str) : Prop :=
  matches pat m /\ exists rest, s = m ++ rest.

(** What a left-to-right substitution of every match is: [substituted pat
    repl must_advance s out n] says that [out] is [s] with [n] matches of
    [pat] replaced by [repl], none left out. A character is copied only
    where no match starts; where a match that is not empty starts, one is
    replaced and the scan goes on after it; an empty match is replaced
    where only empty matches start, once ([must_advance]). *)
Inductive substituted (pat : list re_item) (repl : str)
  : bool -> str -> str -> nat -> Prop :=
| substituted_end (must_advance : bool) :
    (forall m, occurs_at pat [] m -> m = [] /\ must_advance = true) ->
    substituted pat repl must_advance [] [] 0
| substituted_copy (must_advance : bool) (c : ascii) (s out : str) (n : nat) :
    (forall m, occurs_at pat (c :: s) m -> m = [] /\ must_advance = true) ->
    substituted pat repl false s out n ->
    substituted pat repl must_advance (c :: s) (c :: out) n
| substituted_match (must_advance : bool) (m rest out : str) (n : nat) :
    matches pat m -> m <> [] ->
    substituted pat repl false rest out n ->
    substituted pat repl must_advance (m ++ rest) (repl ++ out) (S n)
| substituted_empty (s out : str) (n : nat) :
    matches pat [] ->
    (forall m, occurs_at pat s m -> m = []) ->
    substituted pat repl true s out n ->
    substituted pat repl false s (repl ++ out) (S n).

(** [re.subn(pattern, repl, string)] with a replacement that has no escape:
    the string is read from the left; where the pattern matches, [repl] is
    written and reading goes on after the match; elsewhere one character is
    copied. [re] also replaces an empty match, but not twice at one
    position: after an empty match the next one must consume a character
    ([must_advance]). For the patterns of [word_sub_re] a position whose
    first match is empty has only empty matches, so such a position is
    passed by copying the character. *)
Fixpoint subn_loop (fuel : nat) (pat : list re_item) (repl : str)
  (must_advance : bool) (s : str) : result (str * nat) :=
  match fuel with
  | O => OutOfFuel
  | S fuel' =>
      let copy :=
        match s with
        | [] => Ok ([], 0)
        | c :: s' =>
            r <- subn_loop fuel' pat repl false s' ;;
            Ok (c :: fst r, snd r)
        end in
      match match_here pat s with
      | None => copy
      | Some rest =>
          if (length rest =? length s)%nat then
            if must_advance then copy
            else
              r <- subn_loop fuel' pat repl true s ;;
              Ok (repl ++ fst r, S (snd r))
          else
            r <- subn_loop fuel' pat repl false rest ;;
            Ok (repl ++ fst r, S (snd r))
      end
  end.

(** Every step but the one after an empty match consumes a character. *)
Definition subn (pat : list re_item) (repl : str) (s : str) : result (str * nat) :=
  subn_loop (2 * length s + 2) pat repl false s.

Definition span_open : str :=
  lit "<span style=" ++ [dquote] ++ lit "background-color: #FFFF00"
    ++ [dquote] ++ lit ">".
Definition span_close : str := lit "</span>".

(** The replacement [f'<span style="background-color: #FFFF00">{word}</span>']. *)
Definition marker (word : str) : str := span_open ++ word ++ span_close.

(** The number of [<] in a string: a measure of the markers put in. *)
Definition lt_count (s : str) : nat :=
  length (filter (Ascii.eqb "<"%char) s).

Definition backslash_free (word : str) : bool :=
  forallb (fun c => negb (Ascii.eqb c backslash)) word.

(** Lines 266-267. [re] reads backslash escapes in a replacement: without a
    backslash the replacement is the text itself. [clean_input] removes
    every backslash from the text the matched words are cut from (line 46),
    so the words of [main] have none; the escapes are not modelled. *)
Definition highlight_word (word : str) (updated_body_HTML : str)
  : result (str * nat) :=
  if backslash_free word
  then subn (word_sub_re word) (marker word) updated_body_HTML
  else NotModelled.

(** The test of line 261. *)
Definition too_noisy (word : str) : bool :=
  ((length word <? 3)%nat && (negb (isalnum word) || isdigit word))
  || (length word =? 1)%nat.

(** What the loop of [main] adds to [result_table]: a title row, or a row
    for a match, in red ([highlighted = false]) or not. *)
Inductive report_item : Type :=
| Title (name : str)
| Row (row : Match) (highlighted : bool).

(** One row of the loop of [main], from line 256 on: the document and the
    report row after it. *)
Definition highlight_row (updated_body_HTML : str) (row : Match)
  : result (str * report_item) :=
  let word := matched_word row in
  if too_noisy word then Ok (updated_body_HTML, Row row false)
  else
    r <- highlight_word word updated_body_HTML ;;
    let updated_body_HTML := fst r in
    let subs_made := snd r in
    if (subs_made =? 0)%nat then Ok (updated_body_HTML, Row row false)
    else Ok (updated_body_HTML, Row row true).

(** The title rows of lines 251-254. *)
Definition titles (idx n_issuer n_ticker : nat) : list report_item :=
  if (idx =? 0)%nat && (0 <? n_issuer)%nat then [Title (lit "Issuer Names")]
  else if (idx =? n_issuer)%nat && (0 <? n_ticker)%nat then [Title (lit "Tickers")]
  else [].

(** The loop of [main] (lines 249-274) from row [idx] on. *)
Fixpoint highlight_loop (n_issuer n_ticker idx : nat) (rows : list Match)
  (updated_body_HTML : str) (result_table : list report_item)
  : result (str * list report_item) :=
  match rows with
  | [] => Ok (updated_body_HTML, result_table)
  | row :: rows' =>
      let result_table := result_table ++ titles idx n_issuer n_ticker in
      r <- highlight_row updated_body_HTML row ;;
      highlight_loop n_issuer n_ticker (S idx) rows' (fst r)
        (result_table ++ [snd r])
  end.

(** The number of highlighted rows of a report. *)
Definition highlighted_count (report : list report_item) : nat :=
  length
    (filter (fun item => match item with Row _ true => true | _ => false end)
       report).

(** [w] is a part of [s]. *)
Definition contains (s w : str) : Prop :=
  exists front back, s = front ++ w ++ back.

(** The Highlighter: the body of the document and the two match tables in,
    the highlighted body and the report out. *)
Definition highlight (body_HTML : str) (matches_df_issuer matches_df_ticker : list Match)
  : result (str * list report_item) :=
  highlight_loop (length matches_df_issuer) (length matches_df_ticker) 0
    (matches_df_issuer ++ matches_df_ticker) body_HTML [].

(** ** The cleaner *)

Definition carriage_return : ascii := ascii_of_nat 13.

(** [c.lower()] on one character: the capital letters of ASCII and of
    Latin-1 have their small letter 32 code points higher. *)
Definition lower_char (c : ascii) : ascii :=
  if between 65 90 c || between 192 214 c || between 216 222 c
  then ascii_of_nat (code c + 32)
  else c.

(** [x.lower()] *)
Definition lower (x : str) : str := map lower_char x.

(** [re.sub('[\\n\\r\\\\]', ' ', output)] (line 46): the class holds the
    line feed, the carriage return and the backslash. *)
Definition replace_line_feeds (output : str) : str :=
  map (fun c =>
         if Ascii.eqb c newline || Ascii.eqb c carriage_return
            || Ascii.eqb c backslash
         then space else c)
    output.

(** The class [[\w\.-]]. *)
Definition in_address (c : ascii) : bool :=
  is_word c || Ascii.eqb c "."%char || Ascii.eqb c "-"%char.

(** The length of the longest run of characters of a class at the start of
    a string. *)
Fixpoint run_length (p : ascii -> bool) (s : str) : nat :=
  match s with
  | c :: s' => if p c then S (run_length p s') else 0
  | [] => 0
  end.

(** The length of the match of [[\w\.-]+@[\w\.-]+] at the start of [s].
    Both [+] are greedy and [@] is not in the class, so the first run is the
    longest one, the next character must be [@], and a shorter first run
    is followed by a character of the class and fails. *)
Definition email_length (s : str) : option nat :=
  let n := run_length in_address s in
  match n, skipn n s with
  | S _, c :: rest =>
      if Ascii.eqb c "@"%char then
        match run_length in_address rest with
        | S m => Some (n + 1 + S m)
        | O => None
        end
      else None
  | _, _ => None
  end.

(** [re.sub(r'[\w\.-]+@[\w\.-]+', '', output)] (line 49): the string is
    read from the left, a match is left out and reading goes on after it;
    [skip] is the number of characters of the current match still to leave
    out. *)
Fixpoint remove_emails_from (skip : nat) (s : str) : str :=
  match s with
  | [] => []
  | c :: s' =>
      match skip with
      | S k => remove_emails_from k s'
      | O =>
          match email_length s with
          | Some n => remove_emails_from (pred n) s'
          | None => c :: remove_emails_from 0 s'
          end
      end
  end.

Definition remove_emails (output : str) : str := remove_emails_from 0 output.

Section Cleaner.

(** The two files [clean_input] reads are not in the repository:
    [stop_words] is the content of [stopwords.txt] after [split()], and
    [remove_urls output] is [re.sub(url_re, '', output)] for the pattern of
    [url_regex.txt]. *)
Variable stop_words : list str.
Variable remove_urls : str -> str.

(** [clean_input] (lines 43-58), [char_list] being a list of characters. *)
Definition clean_input (input_string : str) (char_list : list ascii) : str :=
  let output :=
    join_space
      (filter (fun x => negb (existsb (str_eqb (lower x)) stop_words))
         (split input_string)) in
  let output := replace_line_feeds output in
  let output := remove_emails output in
  let output := filter (fun x => existsb (Ascii.eqb x) char_list) output in
  remove_urls output.

End Cleaner.

(** [get_list_of_chars] (lines 140-145), on the two lists of restricted
    words. Python does not fix the order of [list(set(...))]; the list is
    only used for the test [x in char_list]. *)
Definition get_list_of_chars (issuer_list ticker_list : list str) : list ascii :=
  let combined_string := concat issuer_list ++ concat ticker_list in
  nodup ascii_dec combined_string.

(** [re.sub('\s\s+', ' ', s)]: a run of two or more white space characters
    becomes one space and a single white space character stays. [in_run]
    says that the characters read are inside a run that was replaced. *)
Fixpoint collapse_spaces_from (in_run : bool) (s : str) : str :=
  match s with
  | [] => []
  | c :: s' =>
      if is_space c then
        if in_run then collapse_spaces_from true s'
        else
          match s' with
          | d :: _ =>
              if is_space d then space :: collapse_spaces_from true s'
              else c :: collapse_spaces_from false s'
          | [] => [c]
          end
      else c :: collapse_spaces_from false s'
  end.

(** Line 307: [re.sub('\s\s+', ' ', x.strip())]. *)
Definition clean_restricted_word (x : str) : str :=
  collapse_spaces_from false (strip x).

(** [re.sub(html_tag_re, ' ', body_HTML)] with
    [html_tag_re = <(.|\n)*?>] (line 238): [*?] is lazy, so a tag goes from
    a [<] to the first [>] after it, and a [<] with no [>] after it is
    copied. [in_tag] says that the characters read are inside a tag. *)
Fixpoint strip_tags_from (in_tag : bool) (s : str) : str :=
  match s with
  | [] => []
  | c :: s' =>
      if in_tag then
        if Ascii.eqb c ">"%char then strip_tags_from false s'
        else strip_tags_from true s'
      else if Ascii.eqb c "<"%char && existsb (Ascii.eqb ">"%char) s'
      then space :: strip_tags_from true s'
      else c :: strip_tags_from false s'
  end.

Definition strip_tags (body_HTML : str) : str := strip_tags_from false body_HTML.

Section Main.

Variable sim : str -> str -> Q.
Variable tie_order : list Match -> list nat.
Variable stop_words : list str.
Variable remove_urls : str -> str.

(** [html.unescape] is a function of the standard library with a table of
    entities of its own. *)
Variable unescape : str -> str.

(** Lines 238-274 of [main]: the text of the body is cleaned, the two lists
    are searched, issuers first, and the matches are highlighted in the
    body. The result holds the two lists as the calls leave them; the
    search of the tickers is not reached when that of the issuers
    raises. *)
Definition search_and_highlight (body_HTML : str)
  (issuer_words : list str) (issuer_ratio : Q)
  (ticker_words : list str) (ticker_ratio : Q) (char_list : list ascii)
  : list str * list str * result (str * list report_item) :=
  let body_string_content := unescape (strip_tags body_HTML) in
  let cleaned_content :=
    clean_input stop_words remove_urls body_string_content char_list in
  let issuer :=
    fuzzy_search sim tie_order cleaned_content issuer_words issuer_ratio
      (lit "issuer") in
  match snd issuer with
  | Ok matches_df_issuer =>
      let ticker :=
        fuzzy_search sim tie_order cleaned_content ticker_words ticker_ratio
          (lit "ticker") in
      (fst issuer, fst ticker,
       matches_df_ticker <- snd ticker ;;
       highlight body_HTML matches_df_issuer matches_df_ticker)
  | IndexError => (fst issuer, ticker_words, IndexError)
  | TypeError => (fst issuer, ticker_words, TypeError)
  | OutOfFuel => (fst issuer, ticker_words, OutOfFuel)
  | NotModelled => (fst issuer, ticker_words, NotModelled)
  end.

End Main.

(** No two white space characters side by side. *)
Fixpoint no_double_space (s : str) : bool :=
  match s with
  | a :: (b :: _) as rest =>
      negb (is_space a && is_space b) && no_double_space rest
  | _ => true
  end.

(** The first character, if there is one, is not white space. *)
Definition starts_without_space (s : str) : Prop :=
  match s with
  | c :: _ => is_space c = false
  | [] => True
  end.

(** A token of [split()]: not empty, without white space. *)
Definition token (w : str) : Prop :=
  w <> [] /\ forallb (fun c => negb (is_space c)) w = true.

(** What the pattern of line 49 asks for behind its first run: an [@] and
    a run of the class, whose length is returned. *)
Definition address_tail (r : str) : option nat :=
  match r with
  | c :: rest =>
      if Ascii.eqb c "@"%char then
        match run_length in_address rest with
        | S m => Some (S m)
        | O => None
        end
      else None
  | [] => None
  end.

(** * Properties *)

(** ** The n-gram generator *)

Section Ngrams.

Lemma spaced_join (w : str) (ws : list str) :
  spaced (w :: ws) = space :: join_space (w :: ws).
Proof.
  revert w. induction ws as [|w' ws IH]; intros w.
  - unfold spaced. simpl. now rewrite app_nil_r.
  - change (spaced (w :: w' :: ws)) with ((lit " " ++ w) ++ spaced (w' :: ws)).
    rewrite IH. reflexivity.
Qed.

Lemma strip_leading_space (s : str) : strip (space :: s) = strip s.
Proof. reflexivity. Qed.

Lemma index_nat (A : Type) (l : list A) (k : nat) :
  index l (Z.of_nat k) = nth_error l k.
Proof.
  unfold index. destruct (Z.of_nat k <? 0)%Z eqn:E.
  - apply Z.ltb_lt in E. lia.
  - now rewrite Nat2Z.id.
Qed.

Lemma skipn_nth (A : Type) (l : list A) (k : nat) (x : A) :
  nth_error l k = Some x -> skipn k l = x :: skipn (S k) l.
Proof.
  revert k. induction l as [|y l IH]; intros [|k] H; simpl in *; try discriminate.
  - now inversion H.
  - now apply IH.
Qed.

Variable list_str : list str.
Variable ngrams_value : Z.

Lemma ngram_window_run (k : nat) :
  forall (fuel i j : nat) (temp_str : str),
    Z.of_nat k = (ngrams_value - Z.of_nat j)%Z ->
    k < fuel ->
    i + j + k <= length list_str ->
    ngram_window fuel list_str ngrams_value (Z.of_nat i) (Z.of_nat j) temp_str
    = Ok (temp_str ++ spaced (firstn k (skipn (i + j) list_str))).
Proof.
  induction k as [|k IH]; intros fuel i j temp_str Hk Hfuel Hlen;
    (destruct fuel as [|fuel]; [lia|]); cbn [ngram_window].
  - replace (Z.of_nat j <? ngrams_value)%Z with false
      by (symmetry; apply Z.ltb_ge; lia).
    unfold spaced. simpl. now rewrite app_nil_r.
  - replace (Z.of_nat j <? ngrams_value)%Z with true
      by (symmetry; apply Z.ltb_lt; lia).
    rewrite <- Nat2Z.inj_add, index_nat.
    destruct (nth_error list_str (i + j)) as [w|] eqn:Hw.
    + rewrite (skipn_nth _ _ Hw). cbn [firstn].
      replace (Z.of_nat j + 1)%Z with (Z.of_nat (S j)) by lia.
      rewrite IH by lia.
      replace (i + S j) with (S (i + j)) by lia.
      unfold spaced. cbn [map concat]. now rewrite <- !app_assoc.
    + apply nth_error_None in Hw. lia.
Qed.

Hypothesis window_positive : (1 <= ngrams_value)%Z.

Lemma ngram_window_text (i : nat) :
  i + Z.to_nat ngrams_value <= length list_str ->
  ngram_window (S (Z.to_nat ngrams_value)) list_str ngrams_value
    (Z.of_nat i) 0 []
  = Ok (spaced (firstn (Z.to_nat ngrams_value) (skipn i list_str))).
Proof.
  intros Hlen.
  rewrite (@ngram_window_run (Z.to_nat ngrams_value) _ i 0 []); try lia.
  now rewrite Nat.add_0_r.
Qed.

Lemma strip_spaced (i : nat) :
  i + Z.to_nat ngrams_value <= length list_str ->
  strip (spaced (firstn (Z.to_nat ngrams_value) (skipn i list_str)))
  = window_text list_str ngrams_value i.
Proof.
  intros Hlen. unfold window_text.
  destruct (firstn (Z.to_nat ngrams_value) (skipn i list_str)) as [|w ws] eqn:E.
  - apply (f_equal (@length str)) in E.
    rewrite length_firstn, length_skipn in E. simpl in E. lia.
  - now rewrite spaced_join, strip_leading_space.
Qed.

Lemma ngram_loop_run (k : nat) :
  forall (fuel i : nat) (res : list str),
    Z.of_nat k
    = Z.max 0 (Z.of_nat (length list_str) - ngrams_value - Z.of_nat i + 1) ->
    k < fuel ->
    ngram_loop fuel list_str ngrams_value (Z.of_nat i) res
    = Ok (res ++ map (window_text list_str ngrams_value) (seq i k)).
Proof.
  induction k as [|k IH]; intros fuel i res Hk Hfuel;
    (destruct fuel as [|fuel]; [lia|]); cbn [ngram_loop].
  - replace (Z.of_nat i <=? Z.of_nat (length list_str) - ngrams_value)%Z
      with false by (symmetry; apply Z.leb_gt; lia).
    simpl. now rewrite app_nil_r.
  - replace (Z.of_nat i <=? Z.of_nat (length list_str) - ngrams_value)%Z
      with true by (symmetry; apply Z.leb_le; lia).
    rewrite ngram_window_text by lia. cbn [bind].
    rewrite strip_spaced by lia.
    replace (Z.of_nat i + 1)%Z with (Z.of_nat (S i)) by lia.
    rewrite IH by lia. cbn [seq map]. now rewrite <- app_assoc.
Qed.

Lemma get_ngrams_windows :
  get_ngrams list_str ngrams_value
  = Ok (map (window_text list_str ngrams_value)
          (seq 0 (Z.to_nat
                    (Z.max 0 (Z.of_nat (length list_str) - ngrams_value + 1))))).
Proof.
  unfold get_ngrams.
  rewrite (@ngram_loop_run
             (Z.to_nat (Z.max 0 (Z.of_nat (length list_str) - ngrams_value + 1)))
             _ 0 []); try reflexivity; lia.
Qed.

End Ngrams.

(** A window of no token: the inner loop does not run and every position
    up to [len(list_str) - ngrams_value] gives the empty string. With the
    lemma above, [get_ngrams] returns for every window. *)
Lemma ngram_loop_empty (list_str : list str) (ngrams_value : Z) (k : nat) :
  (ngrams_value <= 0)%Z ->
  forall (fuel i : nat) (res : list str),
    Z.of_nat k
    = Z.max 0 (Z.of_nat (length list_str) - ngrams_value - Z.of_nat i + 1) ->
    k < fuel ->
    ngram_loop fuel list_str ngrams_value (Z.of_nat i) res
    = Ok (res ++ repeat [] k).
Proof.
  intros Hn. induction k as [|k IH]; intros fuel i res Hk Hfuel;
    (destruct fuel as [|fuel]; [lia|]); cbn [ngram_loop].
  - replace (Z.of_nat i <=? Z.of_nat (length list_str) - ngrams_value)%Z
      with false by (symmetry; apply Z.leb_gt; lia).
    simpl. now rewrite app_nil_r.
  - replace (Z.of_nat i <=? Z.of_nat (length list_str) - ngrams_value)%Z
      with true by (symmetry; apply Z.leb_le; lia).
    cbn [ngram_window].
    replace (0 <? ngrams_value)%Z with false
      by (symmetry; apply Z.ltb_ge; lia).
    cbn [bind]. replace (Z.of_nat i + 1)%Z with (Z.of_nat (S i)) by lia.
    rewrite IH by lia. cbn [repeat]. now rewrite <- app_assoc.
Qed.

Lemma get_ngrams_returns (list_str : list str) (ngrams_value : Z) :
  exists windows, get_ngrams list_str ngrams_value = Ok windows.
Proof.
  destruct (Z_lt_le_dec 0 ngrams_value) as [Hpos|Hneg].
  - eexists. apply get_ngrams_windows. lia.
  - eexists. unfold get_ngrams.
    apply (@ngram_loop_empty list_str ngrams_value
             (Z.to_nat (Z.of_nat (length list_str) - ngrams_value + 1))
             Hneg _ 0 []); lia.
Qed.

(** C7. For a window of at least one token, [get_ngrams] returns
    [max(0, len(tokens) - window + 1)] windows; the window at position [i]
    is the text of the tokens [i] to [i + window - 1] joined with single
    spaces, stripped; a token list shorter than the window gives the empty
    list. *)
Theorem get_ngrams_spec (tokens : list str) (window : Z) :
  (1 <= window)%Z ->
  exists windows : list str,
    get_ngrams tokens window = Ok windows
    /\ Z.of_nat (length windows)
       = Z.max 0 (Z.of_nat (length tokens) - window + 1)
    /\ (forall i : nat,
          i < length windows ->
          nth_error windows i
          = Some (strip (join_space
                           (firstn (Z.to_nat window) (skipn i tokens))))
          /\ length (firstn (Z.to_nat window) (skipn i tokens))
             = Z.to_nat window)
    /\ ((Z.of_nat (length tokens) < window)%Z -> windows = []).
Proof.
  intros Hw. eexists. split; [apply get_ngrams_windows; exact Hw|].
  set (n := Z.to_nat (Z.max 0 (Z.of_nat (length tokens) - window + 1))).
  assert (Hlen : length (map (window_text tokens window) (seq 0 n)) = n)
    by now rewrite length_map, length_seq.
  split; [rewrite Hlen; unfold n; lia|]. split.
  - intros i Hi. rewrite Hlen in Hi. split.
    + rewrite nth_error_map, nth_error_seq.
      destruct (Nat.ltb_spec i n) as [_|Hge]; [|lia]. reflexivity.
    + rewrite length_firstn, length_skipn. unfold n in Hi. lia.
  - intros Hshort. replace n with 0 by (unfold n; lia). reflexivity.
Qed.

Lemma get_ngrams_spec_witness :
  exists windows : list str,
    get_ngrams (map lit ["Apple"; "Inc"; "reported"; "earnings"]%string) 2
    = Ok windows
    /\ map string_of_list_ascii windows
       = ["Apple Inc"; "Inc reported"; "reported earnings"]%string.
Proof.
  destruct (@get_ngrams_spec
              (map lit ["Apple"; "Inc"; "reported"; "earnings"]%string) 2)
    as [windows [Hrun _]]; [lia|].
  exists windows. split; [exact Hrun|].
  vm_compute in Hrun. injection Hrun as <-. reflexivity.
Defined.

(** ** Tokens *)

Lemma token_cons (c : ascii) (w : str) :
  is_space c = false ->
  forallb (fun x => negb (is_space x)) w = true ->
  token (c :: w).
Proof.
  intros Hc Hw. split; [discriminate|]. cbn. now rewrite Hc, Hw.
Qed.

Lemma token_rev (w : str) : token w -> token (rev w).
Proof.
  intros [Hne Hall]. split.
  - intros H. apply Hne. apply (f_equal (@rev ascii)) in H.
    now rewrite rev_involutive in H.
  - apply forallb_forall. intros c Hc. apply in_rev in Hc.
    now apply (proj1 (forallb_forall _ _) Hall).
Qed.

(** [split_from] reads a run without white space into [cur]. *)
Lemma split_from_run (w rest cur : str) :
  forallb (fun c => negb (is_space c)) w = true ->
  split_from cur (w ++ rest) = split_from (rev w ++ cur) rest.
Proof.
  revert cur. induction w as [|c w IH]; intros cur Hw; [reflexivity|].
  cbn in Hw. apply andb_true_iff in Hw as [Hc Hw].
  apply negb_true_iff in Hc. cbn [app split_from]. rewrite Hc.
  rewrite IH by exact Hw. cbn [rev]. now rewrite <- app_assoc.
Qed.

(** The strings [split()] returns are tokens. *)
Lemma split_from_tokens (s : str) :
  forall cur,
    forallb (fun c => negb (is_space c)) cur = true ->
    Forall token (split_from cur s).
Proof.
  induction s as [|c s IH]; intros cur Hcur; cbn [split_from].
  - destruct cur as [|x cur]; [constructor|].
    constructor; [|constructor].
    apply token_rev. cbn in Hcur. apply andb_true_iff in Hcur as [Hx Hcur].
    apply token_cons; [now apply negb_true_iff|exact Hcur].
  - destruct (is_space c) eqn:Hc.
    + destruct cur as [|x cur]; [now apply IH|].
      constructor; [|now apply IH].
      apply token_rev. cbn in Hcur. apply andb_true_iff in Hcur as [Hx Hcur].
      apply token_cons; [now apply negb_true_iff|exact Hcur].
    + apply IH. cbn. now rewrite Hc, Hcur.
Qed.

Lemma split_tokens (s : str) : Forall token (split s).
Proof. now apply split_from_tokens. Qed.

(** The characters of the tokens are characters of the string. *)
Lemma split_from_chars (s : str) :
  forall cur w c,
    In w (split_from cur s) -> In c w -> In c cur \/ In c s.
Proof.
  induction s as [|x s IH]; intros cur w c; cbn [split_from].
  - destruct cur as [|y cur]; [contradiction|].
    intros [<-|[]] Hc. left. now apply in_rev.
  - destruct (is_space x).
    + destruct cur as [|y cur].
      * intros Hw Hc. destruct (IH _ _ _ Hw Hc) as [[]|H]. right. now right.
      * intros [<-|Hw] Hc; [left; now apply in_rev|].
        destruct (IH _ _ _ Hw Hc) as [[]|H]. right. now right.
    + intros Hw Hc. destruct (IH _ _ _ Hw Hc) as [[<-|H]|H].
      * right. now left.
      * now left.
      * right. now right.
Qed.

Lemma split_chars (s w : str) (c : ascii) :
  In w (split s) -> In c w -> In c s.
Proof.
  intros Hw Hc. destruct (split_from_chars s [] w c Hw Hc) as [[]|H]. exact H.
Qed.

(** [split] undoes [' '.join] on tokens. *)
Lemma split_join (ws : list str) :
  Forall token ws -> split (join_space ws) = ws.
Proof.
  unfold split. induction 1 as [|w ws [Hne Hw] Hws IH]; [reflexivity|].
  assert (Hlast : split_from (rev w) [] = [w]).
  { cbn. destruct (rev w) eqn:E; [|now rewrite <- E, rev_involutive].
    apply (f_equal (@rev ascii)) in E. rewrite rev_involutive in E.
    now subst w. }
  destruct ws as [|w' ws].
  - cbn [join_space]. rewrite <- (app_nil_r w) at 1.
    rewrite split_from_run, app_nil_r by exact Hw. exact Hlast.
  - change (join_space (w :: w' :: ws))
      with (w ++ space :: join_space (w' :: ws)).
    rewrite split_from_run, app_nil_r by exact Hw.
    cbn [split_from]. change (is_space space) with true. cbn match.
    destruct (rev w) eqn:E.
    + apply (f_equal (@rev ascii)) in E. rewrite rev_involutive in E.
      now subst w.
    + rewrite <- E, rev_involutive. now rewrite IH.
Qed.

(** A string with a character that is not white space at both ends is not
    changed by [strip]. *)
Lemma lstrip_token (w rest : str) : token w -> lstrip (w ++ rest) = w ++ rest.
Proof.
  intros [Hne Hw]. destruct w as [|c w]; [congruence|].
  cbn in Hw. apply andb_true_iff in Hw as [Hc _].
  apply negb_true_iff in Hc. cbn. now rewrite Hc.
Qed.

Lemma join_space_ends (w : str) (ws : list str) :
  Forall token (w :: ws) ->
  exists last_token front,
    token last_token
    /\ join_space (w :: ws) = front ++ last_token
    /\ exists back, join_space (w :: ws) = w ++ back.
Proof.
  revert w. induction ws as [|w' ws IH]; intros w Hall;
    inversion Hall as [|? ? Hw Hrest]; subst.
  - exists w, []. split; [exact Hw|]. split; [reflexivity|].
    exists []. cbn. now rewrite app_nil_r.
  - destruct (IH w' Hrest) as [last_token [front [Hlast [Heq _]]]].
    exists last_token, (w ++ space :: front). split; [exact Hlast|]. split.
    + change (join_space (w :: w' :: ws))
        with (w ++ space :: join_space (w' :: ws)).
      rewrite Heq. now rewrite <- app_assoc.
    + now exists (space :: join_space (w' :: ws)).
Qed.

Lemma strip_join (ws : list str) :
  Forall token ws -> strip (join_space ws) = join_space ws.
Proof.
  intros Hall. destruct ws as [|w ws]; [reflexivity|].
  destruct (join_space_ends Hall) as [last_token [front [Hlast [Heq [back Hw]]]]].
  inversion Hall as [|? ? Hfirst _]; subst.
  unfold strip, rstrip. rewrite Hw at 1. rewrite (lstrip_token _ Hfirst).
  rewrite <- Hw, Heq, rev_app_distr.
  rewrite (lstrip_token _ (token_rev Hlast)).
  now rewrite <- rev_app_distr, rev_involutive.
Qed.

Lemma In_firstn_skipn (A : Type) (l : list A) (i n : nat) (x : A) :
  In x (firstn n (skipn i l)) -> In x l.
Proof.
  intros Hx. rewrite <- (firstn_skipn i l). apply in_or_app. right.
  rewrite <- (firstn_skipn n (skipn i l)). apply in_or_app. now left.
Qed.

Lemma Forall_firstn_skipn (A : Type) (P : A -> Prop) (l : list A) (i n : nat) :
  Forall P l -> Forall P (firstn n (skipn i l)).
Proof.
  intros H. apply Forall_forall. intros x Hx.
  apply (proj1 (Forall_forall _ _) H). eapply In_firstn_skipn. exact Hx.
Qed.

Lemma window_text_tokens (tokens : list str) (n i : nat) :
  Forall token tokens ->
  window_text tokens (Z.of_nat n) i = join_space (firstn n (skipn i tokens))
  /\ split (window_text tokens (Z.of_nat n) i) = firstn n (skipn i tokens).
Proof.
  intros Hall. unfold window_text. rewrite Nat2Z.id.
  assert (Hsub : Forall token (firstn n (skipn i tokens)))
    by now apply Forall_firstn_skipn.
  rewrite (strip_join Hsub). split; [reflexivity|now apply split_join].
Qed.

(** ** Stable sorting *)

Section StableSortFacts.
Variable A : Type.
Variable below : A -> A -> bool.

Hypothesis below_trans :
  forall x y z,
    may_precede below x y -> may_precede below y z -> may_precede below x z.
Hypothesis below_total :
  forall x y, below x y = true -> may_precede below y x.

Lemma insert_desc_perm (x : A) (l : list A) :
  Permutation (insert_desc below x l) (x :: l).
Proof.
  induction l as [|y l IH]; simpl; [apply Permutation_refl|].
  destruct (below x y); [|apply Permutation_refl].
  eapply Permutation_trans; [apply perm_skip, IH|apply perm_swap].
Qed.

Lemma sort_desc_perm (l : list A) : Permutation (sort_desc below l) l.
Proof.
  induction l as [|x l IH]; simpl; [constructor|].
  eapply Permutation_trans; [apply insert_desc_perm|now apply perm_skip].
Qed.

Lemma insert_desc_sorted (x : A) (l : list A) :
  StronglySorted (may_precede below) l ->
  StronglySorted (may_precede below) (insert_desc below x l).
Proof.
  induction 1 as [|y l Hs IH Hall]; simpl.
  - constructor; constructor.
  - destruct (below x y) eqn:E.
    + constructor; [exact IH|].
      eapply Permutation_Forall;
        [apply Permutation_sym, insert_desc_perm|].
      constructor; [now apply below_total|exact Hall].
    + constructor; [now constructor|].
      constructor; [exact E|].
      eapply Forall_impl; [|exact Hall].
      intros z Hz. now apply (below_trans E).
Qed.

Lemma sort_desc_sorted (l : list A) :
  StronglySorted (may_precede below) (sort_desc below l).
Proof.
  induction l as [|x l IH]; simpl; [constructor|].
  now apply insert_desc_sorted.
Qed.

Lemma insert_desc_front (x : A) (l : list A) :
  Forall (may_precede below x) l -> insert_desc below x l = x :: l.
Proof.
  destruct l as [|y l]; [reflexivity|].
  intros H. inversion H as [|? ? Hy _]; subst. simpl. now rewrite Hy.
Qed.

(** Stability: sorting commutes with the selection of rows. *)
Lemma filter_insert_desc (p : A -> bool) (x : A) (l : list A) :
  StronglySorted (may_precede below) l ->
  filter p (insert_desc below x l)
  = if p x then insert_desc below x (filter p l) else filter p l.
Proof.
  induction 1 as [|y l Hs IH Hall].
  - simpl. now destruct (p x).
  - cbn [insert_desc]. destruct (below x y) eqn:E.
    + simpl. rewrite IH. destruct (p y), (p x); simpl; rewrite ?E; reflexivity.
    + change (filter p (x :: y :: l))
        with (if p x then x :: filter p (y :: l) else filter p (y :: l)).
      destruct (p x); [|reflexivity].
      symmetry. apply insert_desc_front.
      assert (Hx : Forall (may_precede below x) (y :: l)).
      { constructor; [exact E|].
        eapply Forall_impl; [|exact Hall].
        intros z Hz. now apply (below_trans E). }
      apply Forall_forall. intros z Hz.
      apply filter_In in Hz as [Hz _].
      now apply (proj1 (Forall_forall _ _) Hx).
Qed.

Lemma filter_sort_desc (p : A -> bool) (l : list A) :
  filter p (sort_desc below l) = sort_desc below (filter p l).
Proof.
  induction l as [|x l IH]; [reflexivity|]. simpl.
  rewrite filter_insert_desc by apply sort_desc_sorted.
  rewrite IH. now destruct (p x).
Qed.

(** A sorted list is cut in two by a predicate that holds for every row
    in front of a row for which it holds. *)
Lemma sorted_split (p : A -> bool) (l : list A) :
  (forall x y, may_precede below x y -> p y = true -> p x = true) ->
  StronglySorted (may_precede below) l ->
  l = filter p l ++ filter (fun x => negb (p x)) l.
Proof.
  intros Hup. induction 1 as [|y l Hs IH Hall]; [reflexivity|].
  simpl. destruct (p y) eqn:E; simpl.
  - now f_equal.
  - assert (Hnone : filter p l = []).
    { clear IH Hs. induction l as [|z l IHl]; [reflexivity|].
      inversion Hall as [|? ? Hz Hall']; subst. simpl.
      destruct (p z) eqn:Ez; [|now apply IHl].
      rewrite (Hup y z Hz Ez) in E. discriminate. }
    rewrite Hnone in *. simpl in *. now f_equal.
Qed.

End StableSortFacts.

(** A sorted list is not moved by the sort. *)
Lemma sort_desc_fixed (A : Type) (below : A -> A -> bool) (l : list A) :
  StronglySorted (may_precede below) l -> sort_desc below l = l.
Proof.
  induction 1 as [|x l Hs IH Hall]; [reflexivity|].
  simpl. rewrite IH. now apply insert_desc_front.
Qed.

(** ** Rank and dedup *)

Lemma str_eqb_eq (a b : str) : str_eqb a b = true <-> a = b.
Proof.
  unfold str_eqb. destruct (list_eq_dec ascii_dec a b); split; congruence.
Qed.

Lemma seen_In (k : str) (seen : list str) :
  existsb (str_eqb k) seen = true <-> In k seen.
Proof.
  rewrite existsb_exists. split.
  - intros [x [Hx Heq]]. apply str_eqb_eq in Heq. now subst.
  - intros H. exists k. split; [exact H|now apply str_eqb_eq].
Qed.

Lemma seen_not_In (k : str) (seen : list str) :
  existsb (str_eqb k) seen = false <-> ~ In k seen.
Proof.
  rewrite <- seen_In. destruct (existsb (str_eqb k) seen); split; congruence.
Qed.

Section DropDuplicates.
Variable key : Match -> str.

Lemma drop_duplicates_In (df : list Match) :
  forall seen row,
    In row (drop_duplicates_from key seen df) ->
    In row df /\ ~ In (key row) seen.
Proof.
  induction df as [|r df IH]; intros seen row H; simpl in *; [contradiction|].
  destruct (existsb (str_eqb (key r)) seen) eqn:E.
  - apply IH in H as [H1 H2]. auto.
  - destruct H as [<-|H].
    + split; [now left|now apply seen_not_In].
    + apply IH in H as [H1 H2]. split; [now right|].
      intros Hin. apply H2. now right.
Qed.

Lemma drop_duplicates_NoDup (df : list Match) :
  forall seen, NoDup (map key (drop_duplicates_from key seen df)).
Proof.
  induction df as [|r df IH]; intros seen; simpl; [constructor|].
  destruct (existsb (str_eqb (key r)) seen); [apply IH|].
  simpl. constructor; [|apply IH].
  intros Hin. apply in_map_iff in Hin as [row [Hk Hrow]].
  apply drop_duplicates_In in Hrow as [_ Hnot].
  apply Hnot. left. now symmetry.
Qed.

(** A row that is kept is the first of the frame with its key. *)
Lemma drop_duplicates_first (df : list Match) :
  forall seen row,
    In row (drop_duplicates_from key seen df) ->
    exists before after,
      df = before ++ row :: after
      /\ ~ In (key row) (map key before).
Proof.
  induction df as [|r df IH]; intros seen row H; simpl in *; [contradiction|].
  destruct (existsb (str_eqb (key r)) seen) eqn:E.
  - pose proof (drop_duplicates_In _ _ _ H) as [_ Hseen].
    apply IH in H as [before [after [-> Hnot]]].
    exists (r :: before), after. split; [reflexivity|].
    simpl. intros [Heq|Hin]; [|now apply Hnot].
    apply Hseen. rewrite <- Heq. now apply seen_In.
  - destruct H as [<-|H].
    + exists [], df. split; [reflexivity|]. simpl. tauto.
    + pose proof (drop_duplicates_In _ _ _ H) as [_ Hseen].
      apply IH in H as [before [after [-> Hnot]]].
      exists (r :: before), after. split; [reflexivity|].
      simpl. intros [Heq|Hin]; [|now apply Hnot].
      apply Hseen. now left.
Qed.

(** Every key of the frame is still there. *)
Lemma drop_duplicates_covers (df : list Match) :
  forall seen row,
    In row df -> ~ In (key row) seen ->
    exists kept,
      In kept (drop_duplicates_from key seen df) /\ key kept = key row.
Proof.
  induction df as [|r df IH]; intros seen row H Hseen; simpl in *;
    [contradiction|].
  destruct (existsb (str_eqb (key r)) seen) eqn:E.
  - destruct H as [->|H]; [apply seen_In in E; contradiction|].
    now apply IH.
  - destruct H as [->|H]; [exists row; split; [now left|reflexivity]|].
    destruct (list_eq_dec ascii_dec (key row) (key r)) as [Heq|Hne].
    + exists r. split; [now left|now symmetry].
    + destruct (IH (key r :: seen) row H) as [kept [Hk Hkey]].
      * simpl. intros [Heq|Hin]; [now apply Hne|now apply Hseen].
      * exists kept. split; [now right|exact Hkey].
Qed.

(** Dropping rows keeps what holds of every sub-frame. *)
Lemma drop_duplicates_NoDup_other (other : Match -> str) (df : list Match) :
  forall seen,
    NoDup (map other df) ->
    NoDup (map other (drop_duplicates_from key seen df)).
Proof.
  induction df as [|r df IH]; intros seen H; simpl in *; [constructor|].
  inversion H as [|? ? Hnot Hrest]; subst.
  destruct (existsb (str_eqb (key r)) seen); [now apply IH|].
  simpl. constructor; [|now apply IH].
  intros Hin. apply Hnot.
  apply in_map_iff in Hin as [row [Ho Hrow]].
  apply drop_duplicates_In in Hrow as [Hrow _].
  apply in_map_iff. now exists row.
Qed.

Lemma drop_duplicates_sorted (R : Match -> Match -> Prop) (df : list Match) :
  forall seen,
    StronglySorted R df ->
    StronglySorted R (drop_duplicates_from key seen df).
Proof.
  induction df as [|r df IH]; intros seen H; simpl in *; [constructor|].
  inversion H as [|? ? Hs Hall]; subst.
  destruct (existsb (str_eqb (key r)) seen); [now apply IH|].
  constructor; [now apply IH|].
  apply Forall_forall. intros row Hrow.
  apply drop_duplicates_In in Hrow as [Hrow _].
  now apply (proj1 (Forall_forall _ _) Hall).
Qed.

(** The rows kept from the front of a frame do not depend on what
    follows. *)
Lemma drop_duplicates_app (front back : list Match) :
  forall seen,
    exists rest,
      drop_duplicates_from key seen (front ++ back)
      = drop_duplicates_from key seen front ++ rest.
Proof.
  induction front as [|r front IH]; intros seen; simpl.
  - eexists. reflexivity.
  - destruct (existsb (str_eqb (key r)) seen); [apply IH|].
    destruct (IH (key r :: seen)) as [rest ->].
    exists rest. reflexivity.
Qed.

End DropDuplicates.

Lemma by_similarity_le (x y : Match) :
  may_precede by_similarity x y <-> (similarity y <= similarity x)%Q.
Proof.
  unfold may_precede, by_similarity, Qgtb.
  rewrite negb_false_iff. apply Qle_bool_iff.
Qed.

Lemma by_similarity_trans (x y z : Match) :
  may_precede by_similarity x y -> may_precede by_similarity y z ->
  may_precede by_similarity x z.
Proof.
  rewrite !by_similarity_le. intros H1 H2. eapply Qle_trans; eassumption.
Qed.

Lemma by_similarity_total (x y : Match) :
  by_similarity x y = true -> may_precede by_similarity y x.
Proof.
  intros H. apply by_similarity_le.
  unfold by_similarity, Qgtb in H. apply negb_true_iff in H.
  destruct (Qlt_le_dec (similarity x) (similarity y)) as [Hlt|Hle].
  - now apply Qlt_le_weak.
  - apply Qle_bool_iff in Hle. congruence.
Qed.

Lemma swap_at_perm (A : Type) (k : nat) :
  forall l : list A, Permutation (swap_at k l) l.
Proof.
  induction k as [|k IH]; intros [|a [|b rest]]; cbn [swap_at];
    try reflexivity.
  - apply perm_swap.
  - apply perm_skip, IH.
  - apply perm_skip, IH.
Qed.

Lemma rearrange_perm (A : Type) (swaps : list nat) :
  forall l : list A, Permutation (rearrange swaps l) l.
Proof.
  unfold rearrange.
  induction swaps as [|k swaps IH]; intros l; cbn [fold_left];
    [reflexivity|].
  rewrite IH. apply swap_at_perm.
Qed.

Lemma rearrange_app (A : Type) (front back : list nat) (l : list A) :
  rearrange (front ++ back) l = rearrange back (rearrange front l).
Proof. unfold rearrange. apply fold_left_app. Qed.

Lemma rearrange_cons (A : Type) (a : A) (swaps : list nat) :
  forall l : list A,
    rearrange (map S swaps) (a :: l) = a :: rearrange swaps l.
Proof.
  unfold rearrange.
  induction swaps as [|k swaps IH]; intros l; cbn [map fold_left];
    [reflexivity|].
  cbn [swap_at]. apply IH.
Qed.

(** Exchanges of neighbours reach every arrangement of a list. *)
Lemma rearrange_any (A : Type) (l l' : list A) :
  Permutation l l' -> exists swaps, rearrange swaps l = l'.
Proof.
  induction 1 as [|a l l' _ [swaps IH]|a b l
                 |l l' l'' _ [front IH1] _ [back IH2]].
  - exists []. reflexivity.
  - exists (map S swaps). now rewrite rearrange_cons, IH.
  - exists [0]. reflexivity.
  - exists (front ++ back). now rewrite rearrange_app, IH1, IH2.
Qed.

Lemma sort_values_sorted (tie_order : list Match -> list nat)
  (df : list Match) :
  StronglySorted (may_precede by_similarity) (sort_values tie_order df).
Proof.
  apply sort_desc_sorted;
    [exact by_similarity_trans|exact by_similarity_total].
Qed.

Lemma sort_values_perm (tie_order : list Match -> list nat)
  (df : list Match) :
  Permutation (sort_values tie_order df) df.
Proof.
  unfold sort_values.
  rewrite (sort_desc_perm by_similarity). apply rearrange_perm.
Qed.

(** The model of the sort leaves no descending arrangement out. *)
Lemma sort_values_any_order (df sorted : list Match) :
  Permutation df sorted ->
  StronglySorted (may_precede by_similarity) sorted ->
  exists tie_order, sort_values tie_order df = sorted.
Proof.
  intros Hperm Hsorted.
  destruct (rearrange_any Hperm) as [swaps Hswaps].
  exists (fun _ => swaps). unfold sort_values. rewrite Hswaps.
  now apply sort_desc_fixed.
Qed.

Lemma sort_values_keep_order (df : list Match) :
  sort_values keep_order df = sort_desc by_similarity df.
Proof. reflexivity. Qed.

(** Without rows of equal similarity there is one descending
    arrangement. *)
Lemma sorted_no_ties (l : list Match) :
  forall l',
    no_ties l -> Permutation l l' ->
    StronglySorted (may_precede by_similarity) l ->
    StronglySorted (may_precede by_similarity) l' ->
    l = l'.
Proof.
  induction l as [|x l IH]; intros l' Hties Hperm Hs Hs'.
  - apply Permutation_nil in Hperm. now subst.
  - destruct l' as [|y l'];
      [apply Permutation_sym, Permutation_nil in Hperm; discriminate|].
    inversion Hs as [|? ? Hrest Hall]; subst.
    inversion Hs' as [|? ? Hrest' Hall']; subst.
    assert (Hy : In y (x :: l))
      by (eapply Permutation_in;
          [apply Permutation_sym; exact Hperm|now left]).
    assert (Hx : In x (y :: l'))
      by (eapply Permutation_in; [exact Hperm|now left]).
    assert (Hle : (similarity y <= similarity x)%Q).
    { destruct Hy as [<-|Hy]; [apply Qle_refl|].
      apply by_similarity_le.
      exact (proj1 (Forall_forall _ _) Hall y Hy). }
    assert (Hge : (similarity x <= similarity y)%Q).
    { destruct Hx as [<-|Hx]; [apply Qle_refl|].
      apply by_similarity_le.
      exact (proj1 (Forall_forall _ _) Hall' x Hx). }
    assert (Heq : x = y).
    { apply Hties; [now left|exact Hy|].
      apply Qle_antisym; assumption. }
    subst y. f_equal. apply IH; try assumption.
    + intros a b Ha Hb. apply Hties; now right.
    + eapply Permutation_cons_inv. exact Hperm.
Qed.

Lemma no_ties_perm (l l' : list Match) :
  Permutation l l' -> no_ties l -> no_ties l'.
Proof.
  intros Hperm Hties x y Hx Hy.
  apply Hties; eapply Permutation_in;
    try (apply Permutation_sym; exact Hperm); assumption.
Qed.

(** So, without rows of equal similarity, the choice of the sort does not
    show. *)
Lemma sort_values_no_ties (tie_order : list Match -> list nat)
  (df : list Match) :
  no_ties df -> sort_values tie_order df = sort_desc by_similarity df.
Proof.
  intros Hties. apply sorted_no_ties.
  - eapply no_ties_perm; [|exact Hties].
    apply Permutation_sym, sort_values_perm.
  - rewrite sort_values_perm. apply Permutation_sym, sort_desc_perm.
  - apply sort_values_sorted.
  - apply sort_desc_sorted;
      [exact by_similarity_trans|exact by_similarity_total].
Qed.

Lemma sorted_after (R : Match -> Match -> Prop) (before after : list Match)
  (row : Match) :
  StronglySorted R (before ++ row :: after) -> Forall (R row) after.
Proof.
  induction before as [|r before IH]; simpl; intros H;
    inversion H; subst; auto.
Qed.

(** In a sorted frame, the first row with a key has the greatest similarity
    of the rows with that key. *)
Lemma first_is_best (key : Match -> str) (df before after : list Match)
  (row other : Match) :
  StronglySorted (may_precede by_similarity) df ->
  df = before ++ row :: after ->
  ~ In (key row) (map key before) ->
  In other df -> key other = key row ->
  (similarity other <= similarity row)%Q.
Proof.
  intros Hs -> Hfirst Hin Hkey.
  apply in_app_or in Hin as [Hin|[<-|Hin]].
  - exfalso. apply Hfirst. rewrite <- Hkey. now apply in_map.
  - apply Qle_refl.
  - apply by_similarity_le.
    now apply (proj1 (Forall_forall _ _) (sorted_after _ _ _ Hs)).
Qed.

(** C1. The table of the Rank and Dedup stage has no two rows with the same
    [matched_word] and no two rows with the same [restricted_word]. The
    first pass keeps, for each matched word, the first row of the sorted
    table with it, which has the greatest similarity of the rows with that
    word; the second pass does the same for the restricted word on the rows
    the first pass kept. *)
Theorem rank_dedup_no_duplicates (tie_order : list Match -> list nat)
  (matches : list Match) :
  let sorted := sort_values tie_order matches in
  let pass1 := drop_duplicates matched_word sorted in
  let table := drop_duplicates restricted_word pass1 in
  rank_dedup tie_order matches = table
  /\ NoDup (map matched_word table)
  /\ NoDup (map restricted_word table)
  /\ Permutation sorted matches
  /\ (forall row, In row pass1 ->
        (exists before after,
            sorted = before ++ row :: after
            /\ ~ In (matched_word row) (map matched_word before))
        /\ (forall other, In other matches ->
              matched_word other = matched_word row ->
              (similarity other <= similarity row)%Q))
  /\ (forall row, In row table ->
        (exists before after,
            pass1 = before ++ row :: after
            /\ ~ In (restricted_word row) (map restricted_word before))
        /\ (forall other, In other pass1 ->
              restricted_word other = restricted_word row ->
              (similarity other <= similarity row)%Q))
  /\ (forall other, In other matches ->
        exists row, In row pass1 /\ matched_word row = matched_word other)
  /\ (forall other, In other pass1 ->
        exists row,
          In row table /\ restricted_word row = restricted_word other).
Proof.
  intros sorted pass1 table.
  assert (Hsorted : StronglySorted (may_precede by_similarity) sorted)
    by apply sort_values_sorted.
  assert (Hpass1 : StronglySorted (may_precede by_similarity) pass1)
    by now apply drop_duplicates_sorted.
  split; [reflexivity|].
  split; [apply drop_duplicates_NoDup_other, drop_duplicates_NoDup|].
  split; [apply drop_duplicates_NoDup|].
  split; [apply sort_values_perm|].
  split; [|split; [|split]].
  - intros row Hrow.
    destruct (drop_duplicates_first _ _ _ _ Hrow) as [before [after [Heq Hnot]]].
    split; [now exists before, after|].
    intros other Hother Hkey.
    apply (@first_is_best matched_word sorted before after row other);
      try assumption.
    eapply Permutation_in; [apply Permutation_sym, sort_values_perm|exact Hother].
  - intros row Hrow.
    destruct (drop_duplicates_first _ _ _ _ Hrow) as [before [after [Heq Hnot]]].
    split; [now exists before, after|].
    intros other Hother Hkey.
    now apply (@first_is_best restricted_word pass1 before after row other).
  - intros other Hother.
    destruct (drop_duplicates_covers matched_word sorted [] other)
      as [row [Hrow Hkey]]; [|tauto|now exists row].
    eapply Permutation_in; [apply Permutation_sym, sort_values_perm|exact Hother].
  - intros other Hother.
    destruct (drop_duplicates_covers restricted_word pass1 [] other Hother)
      as [row [Hrow Hkey]]; [tauto|now exists row].
Qed.

(** ** Matching *)

Lemma Qgtb_lt (a b : Q) : Qgtb a b = true <-> (b < a)%Q.
Proof.
  unfold Qgtb. rewrite negb_true_iff. split.
  - intros H. destruct (Qlt_le_dec b a) as [Hlt|Hle]; [exact Hlt|].
    apply Qle_bool_iff in Hle. congruence.
  - intros H. destruct (Qle_bool a b) eqn:E; [|reflexivity].
    apply Qle_bool_iff in E. exfalso. eapply Qlt_not_le; eassumption.
Qed.

Lemma Qgtb_le (a b : Q) : Qgtb a b = false <-> (a <= b)%Q.
Proof.
  unfold Qgtb. rewrite negb_false_iff. apply Qle_bool_iff.
Qed.

(** [input[:-1]] and [input[-1]] of a string that is not empty. *)
Lemma index_last (A : Type) (l : list A) (c : A) :
  index (l ++ [c]) (-1) = Some c.
Proof.
  unfold index. cbn [Z.ltb Z.compare].
  rewrite length_app. cbn [length].
  destruct (Z.of_nat (length l + 1) + -1 <? 0)%Z eqn:E;
    [apply Z.ltb_lt in E; lia|].
  replace (Z.to_nat (Z.of_nat (length l + 1) + -1)) with (length l) by lia.
  rewrite nth_error_app2 by lia. now rewrite Nat.sub_diag.
Qed.

Lemma trim_last_snoc (l : str) (c : ascii) :
  trim_last (l ++ [c]) = if strip_pattern c then l else l ++ [c].
Proof.
  unfold trim_last. rewrite index_last.
  destruct (strip_pattern c); [apply removelast_last|reflexivity].
Qed.

Lemma nonempty_snoc (A : Type) (l : list A) :
  l <> [] -> exists front c, l = front ++ [c].
Proof.
  intros H. destruct (exists_last H) as [front [c ->]]. now exists front, c.
Qed.

Section MatchingFacts.
Variable sim : str -> str -> Q.
Variable tie_order : list Match -> list nat.
Variable threshold : Q.
Variable restricted_type : str.

Lemma in_range_bounds :
  in_range threshold = true <-> (0 <= threshold /\ threshold <= 1)%Q.
Proof. unfold in_range. now rewrite andb_true_iff, !Qle_bool_iff. Qed.

(** With a cutoff the library accepts, the cutoff changes nothing for the
    test [r > similarity]: a similarity it replaces by 0 was not above the
    threshold. *)
Lemma ratio_in_range (a b : str) :
  in_range threshold = true ->
  exists r,
    ratio sim a b threshold = Ok r
    /\ Qgtb r threshold = Qgtb (sim a b) threshold
    /\ (Qgtb (sim a b) threshold = true -> r = sim a b).
Proof.
  intros Hin. unfold ratio. rewrite Hin. eexists. split; [reflexivity|].
  apply in_range_bounds in Hin as [Hpos _].
  destruct (Qle_bool threshold (sim a b)) eqn:E; [now split|].
  assert (Hlow : Qgtb (sim a b) threshold = false).
  { apply Qgtb_le.
    destruct (Qlt_le_dec (sim a b) threshold) as [Hlt|Hle];
      [now apply Qlt_le_weak|].
    apply Qle_bool_iff in Hle. congruence. }
  split; [|congruence].
  rewrite Hlow. apply Qgtb_le. exact Hpos.
Qed.

Lemma ratio_out (a b : str) :
  in_range threshold = false -> ratio sim a b threshold = TypeError.
Proof. intros H. unfold ratio. now rewrite H. Qed.

Lemma score_in_range (input res : str) :
  in_range threshold = true ->
  exists r,
    score sim input res threshold restricted_type = Ok r
    /\ Qgtb r threshold
       = Qgtb (raw_score sim input res restricted_type) threshold
    /\ (Qgtb (raw_score sim input res restricted_type) threshold = true ->
        r = raw_score sim input res restricted_type).
Proof.
  intros Hin. unfold score, raw_score.
  destruct (str_eqb restricted_type (lit "ticker"));
    now apply ratio_in_range.
Qed.

Lemma score_out (input res : str) :
  in_range threshold = false ->
  score sim input res threshold restricted_type = TypeError.
Proof.
  intros H. unfold score.
  destruct (str_eqb restricted_type (lit "ticker")); now apply ratio_out.
Qed.

(** The inner loop appends the pairs above the threshold, or raises at its
    first pair. *)
Lemma matches_of_in_range (input : str) (restricted_list : list str) :
  in_range threshold = true ->
  forall matches,
    matches_of sim input restricted_list threshold restricted_type matches
    = Ok (matches
            ++ filter (above threshold)
                 (map (fun res =>
                         mkMatch (strip input) res
                           (raw_score sim input res restricted_type))
                    restricted_list)).
Proof.
  intros Hin.
  induction restricted_list as [|res l IH]; intros matches;
    cbn [matches_of map filter].
  - now rewrite app_nil_r.
  - destruct (score_in_range input res Hin) as [r [-> [Htest Hval]]].
    cbn [bind]. rewrite IH.
    change (above threshold
              (mkMatch (strip input) res
                 (raw_score sim input res restricted_type)))
      with (Qgtb (raw_score sim input res restricted_type) threshold).
    rewrite Htest.
    destruct (Qgtb (raw_score sim input res restricted_type) threshold) eqn:E;
      [|reflexivity].
    rewrite (Hval eq_refl), <- app_assoc. reflexivity.
Qed.

Lemma matches_of_out (input : str) (restricted_list : list str)
  (matches : list Match) :
  in_range threshold = false ->
  matches_of sim input restricted_list threshold restricted_type matches
  = match restricted_list with
    | [] => Ok matches
    | _ :: _ => TypeError
    end.
Proof.
  intros H. destruct restricted_list as [|res l]; [reflexivity|].
  cbn [matches_of]. now rewrite score_out.
Qed.

(** [get_matches] with a threshold the library accepts: the pairs above
    the threshold, in the order of the two loops. *)
Lemma get_matches_from_in_range (content_list restricted_list : list str) :
  in_range threshold = true ->
  forall matches,
    get_matches_from sim content_list restricted_list threshold
      restricted_type matches
    = Ok (matches
            ++ filter (above threshold)
                 (all_pairs sim content_list restricted_list restricted_type)).
Proof.
  intros Hin. unfold all_pairs.
  induction content_list as [|input l IH]; intros matches;
    cbn [get_matches_from flat_map].
  - now rewrite app_nil_r.
  - unfold candidate_matches.
    destruct ((length input =? 0)%nat || isspace input); cbn [bind app].
    + apply IH.
    + rewrite matches_of_in_range by exact Hin. cbn [bind].
      rewrite IH, filter_app, app_assoc. reflexivity.
Qed.

(** With any other threshold it raises as soon as a pair is scored. *)
Lemma get_matches_from_out (content_list restricted_list : list str) :
  in_range threshold = false ->
  forall matches,
    get_matches_from sim content_list restricted_list threshold
      restricted_type matches
    = match all_pairs sim content_list restricted_list restricted_type with
      | [] => Ok matches
      | _ :: _ => TypeError
      end.
Proof.
  intros Hout. unfold all_pairs.
  induction content_list as [|input l IH]; intros matches;
    [reflexivity|].
  cbn [get_matches_from flat_map]. unfold candidate_matches.
  destruct ((length input =? 0)%nat || isspace input); cbn [bind app].
  - apply IH.
  - rewrite matches_of_out by exact Hout.
    destruct restricted_list as [|res rl]; cbn [bind map app];
      [apply IH|reflexivity].
Qed.

Lemma get_matches_in_range (content_list restricted_list : list str) :
  in_range threshold = true ->
  get_matches sim content_list restricted_list threshold restricted_type
  = Ok (filter (above threshold)
          (all_pairs sim content_list restricted_list restricted_type)).
Proof.
  intros Hin. unfold get_matches.
  now rewrite get_matches_from_in_range.
Qed.

Lemma all_pairs_In (content_list restricted_list : list str) (row : Match) :
  In row (all_pairs sim content_list restricted_list restricted_type) <->
  exists input res,
    In input content_list /\ In res restricted_list
    /\ input <> [] /\ isspace input = false
    /\ row = mkMatch (strip (trim_last input)) res
               (raw_score sim (trim_last input) res restricted_type).
Proof.
  unfold all_pairs. rewrite in_flat_map. split.
  - intros [input [Hin Hrow]].
    destruct input as [|c input]; [contradiction|].
    cbn [length Nat.eqb orb] in Hrow.
    destruct (isspace (c :: input)) eqn:E; [contradiction|].
    apply in_map_iff in Hrow as [res [<- Hres]].
    exists (c :: input), res. repeat split; try assumption. discriminate.
  - intros [input [res [Hin [Hres [Hne [Hsp ->]]]]]].
    exists input. split; [exact Hin|].
    destruct input as [|c input]; [congruence|]. cbn [length Nat.eqb orb].
    rewrite Hsp. apply in_map_iff. now exists res.
Qed.

(** The rows of a table [get_matches] returns. *)
Lemma get_matches_In (content_list restricted_list : list str)
  (rows : list Match) (row : Match) :
  get_matches sim content_list restricted_list threshold restricted_type
  = Ok rows ->
  In row rows <->
  exists input res r,
    In input content_list /\ In res restricted_list
    /\ input <> [] /\ isspace input = false
    /\ score sim (trim_last input) res threshold restricted_type = Ok r
    /\ row = mkMatch (strip (trim_last input)) res r
    /\ (threshold < r)%Q.
Proof.
  unfold get_matches. destruct (in_range threshold) eqn:Hin.
  - rewrite get_matches_from_in_range by exact Hin. cbn [app].
    intros [= <-]. rewrite filter_In, all_pairs_In. split.
    + intros [[input [res [Hi [Hr [Hne [Hsp ->]]]]]] Habove].
      unfold above in Habove. cbn [similarity] in Habove.
      destruct (score_in_range (trim_last input) res Hin)
        as [r [Hscore [_ Hval]]].
      rewrite (Hval Habove) in Hscore.
      exists input, res, (raw_score sim (trim_last input) res restricted_type).
      repeat split; try assumption. now apply Qgtb_lt.
    + intros [input [res [r [Hi [Hr [Hne [Hsp [Hscore [-> Hlt]]]]]]]]].
      destruct (score_in_range (trim_last input) res Hin)
        as [r' [Hscore' [Htest Hval]]].
      rewrite Hscore in Hscore'. injection Hscore' as <-.
      apply Qgtb_lt in Hlt. rewrite Htest in Hlt.
      rewrite (Hval Hlt). split; [now exists input, res|exact Hlt].
  - rewrite get_matches_from_out by exact Hin.
    destruct (all_pairs sim content_list restricted_list restricted_type);
      [|discriminate].
    intros [= <-]. split; [intros []|].
    intros [input [res [r [_ [_ [_ [_ [Hscore _]]]]]]]].
    rewrite score_out in Hscore by exact Hin. discriminate.
Qed.

Lemma get_matches_above (content_list restricted_list : list str)
  (rows : list Match) (row : Match) :
  get_matches sim content_list restricted_list threshold restricted_type
  = Ok rows ->
  In row rows ->
  (threshold < similarity row)%Q.
Proof.
  intros Hrun H. apply (get_matches_In _ _ row Hrun) in H
    as [input [res [r [_ [_ [_ [_ [_ [-> Hlt]]]]]]]]]. exact Hlt.
Qed.

(** The loop of [fuzzy_search]: [get_ngrams] does not raise there, so with
    a threshold the library accepts the loop returns the pairs above the
    threshold; with any other it raises when the first pair is scored. *)
Lemma collect_in_range (max_word_len : nat)
  (content_list restricted_words : list str) :
  in_range threshold = true ->
  forall matches_df,
    collect sim max_word_len content_list restricted_words threshold
      restricted_type matches_df
    = Ok (matches_df
            ++ filter (above threshold)
                 (collect_all sim max_word_len content_list restricted_words
                    restricted_type)).
Proof.
  intros Hin.
  induction max_word_len as [|n IH]; intros matches_df;
    cbn [collect collect_all].
  - now rewrite app_nil_r.
  - destruct (0 <? length _)%nat; cbn [bind app].
    + rewrite get_ngrams_windows by lia. cbn [bind].
      rewrite get_matches_in_range by exact Hin. cbn [bind].
      rewrite IH, filter_app, app_assoc. reflexivity.
    + apply IH.
Qed.

Lemma collect_out (max_word_len : nat)
  (content_list restricted_words : list str) :
  in_range threshold = false ->
  forall matches_df,
    collect sim max_word_len content_list restricted_words threshold
      restricted_type matches_df
    = match
        collect_all sim max_word_len content_list restricted_words
          restricted_type
      with
      | [] => Ok matches_df
      | _ :: _ => TypeError
      end.
Proof.
  intros Hout.
  induction max_word_len as [|n IH]; intros matches_df;
    cbn [collect collect_all]; [reflexivity|].
  destruct (0 <? length _)%nat; cbn [bind app]; [|apply IH].
  rewrite get_ngrams_windows by lia. cbn [bind]. unfold get_matches.
  rewrite get_matches_from_out by exact Hout.
  destruct (all_pairs sim _ _ restricted_type); cbn [bind app];
    [|reflexivity].
  rewrite app_nil_r. apply IH.
Qed.

Lemma rank_dedup_In (df : list Match) (row : Match) :
  In row (rank_dedup tie_order df) -> In row df.
Proof.
  unfold rank_dedup, drop_duplicates. intros H.
  apply drop_duplicates_In in H as [H _].
  apply drop_duplicates_In in H as [H _].
  eapply Permutation_in; [apply sort_values_perm|exact H].
Qed.

Lemma rank_dedup_nil : rank_dedup tie_order [] = [].
Proof.
  assert (H : sort_values tie_order [] = [])
    by apply Permutation_nil, Permutation_sym, sort_values_perm.
  unfold rank_dedup. now rewrite H.
Qed.

(** [fuzzy_search] ranks the table its loop collects. *)
Lemma fuzzy_search_collected (input_string : str)
  (restricted_words : list str) :
  snd (fuzzy_search sim tie_order input_string restricted_words threshold
         restricted_type)
  = (matches_df <-
       collected sim input_string restricted_words threshold
         restricted_type ;;
     Ok (rank_dedup tie_order matches_df)).
Proof.
  unfold fuzzy_search, collected. cbn [snd].
  now destruct (index (sort_restricted restricted_words) 0).
Qed.

Lemma collected_in_range (input_string : str) (restricted_words : list str)
  (first : str) :
  in_range threshold = true ->
  index (sort_restricted restricted_words) 0 = Some first ->
  collected sim input_string restricted_words threshold restricted_type
  = Ok (filter (above threshold)
          (collect_all sim (word_count first)
             (split (replace_char newline space input_string))
             (sort_restricted restricted_words) restricted_type)).
Proof.
  intros Hin Hfirst. unfold collected. rewrite Hfirst.
  now rewrite collect_in_range.
Qed.

Lemma collected_out (input_string : str) (restricted_words : list str)
  (first : str) :
  in_range threshold = false ->
  index (sort_restricted restricted_words) 0 = Some first ->
  collected sim input_string restricted_words threshold restricted_type
  = match
      collect_all sim (word_count first)
        (split (replace_char newline space input_string))
        (sort_restricted restricted_words) restricted_type
    with
    | [] => Ok []
    | _ :: _ => TypeError
    end.
Proof.
  intros Hout Hfirst. unfold collected. rewrite Hfirst.
  now rewrite collect_out.
Qed.

(** A row of the table of [fuzzy_search] is a pair above the threshold,
    and the library has accepted the threshold. *)
Lemma fuzzy_search_rows (input_string : str) (restricted_words : list str)
  (table : list Match) (row : Match) :
  snd (fuzzy_search sim tie_order input_string restricted_words threshold
         restricted_type) = Ok table ->
  In row table ->
  in_range threshold = true
  /\ above threshold row = true
  /\ exists first,
       index (sort_restricted restricted_words) 0 = Some first
       /\ In row
            (collect_all sim (word_count first)
               (split (replace_char newline space input_string))
               (sort_restricted restricted_words) restricted_type).
Proof.
  rewrite fuzzy_search_collected.
  destruct (index (sort_restricted restricted_words) 0) as [first|] eqn:Hfirst;
    [|unfold collected; rewrite Hfirst; discriminate].
  destruct (in_range threshold) eqn:Hin.
  - rewrite (collected_in_range _ _ Hin Hfirst). cbn [bind].
    intros [= <-] Hrow.
    apply rank_dedup_In in Hrow. apply filter_In in Hrow as [Hrow Habove].
    split; [reflexivity|]. split; [exact Habove|]. now exists first.
  - rewrite (collected_out _ _ Hin Hfirst).
    destruct (collect_all sim _ _ _ restricted_type); cbn [bind];
      [|discriminate].
    intros [= <-] Hrow. rewrite rank_dedup_nil in Hrow. destruct Hrow.
Qed.

Lemma fuzzy_search_above (input_string : str) (restricted_words : list str)
  (table : list Match) (row : Match) :
  snd (fuzzy_search sim tie_order input_string restricted_words threshold
         restricted_type) = Ok table ->
  In row table ->
  (threshold < similarity row)%Q.
Proof.
  intros Hrun Hrow.
  edestruct fuzzy_search_rows as [_ [Habove _]];
    [exact Hrun|exact Hrow|].
  now apply Qgtb_lt.
Qed.

End MatchingFacts.

(** C2. Every row of the table [fuzzy_search] returns, and every row of a
    table [get_matches] returns, has a similarity strictly above the
    threshold of the call; a candidate and a restricted word whose ratio
    is not above the threshold give no row. *)
Theorem similarity_above_threshold (sim : str -> str -> Q)
  (tie_order : list Match -> list nat)
  (input_string : str) (restricted_words : list str) (threshold : Q)
  (restricted_type : str) (table : list Match) (row : Match) :
  snd (fuzzy_search sim tie_order input_string restricted_words threshold
         restricted_type)
  = Ok table ->
  In row table ->
  (threshold < similarity row)%Q
  /\ (forall content_list restricted_list rows other,
        get_matches sim content_list restricted_list threshold
          restricted_type = Ok rows ->
        In other rows ->
        (threshold < similarity other)%Q)
  /\ (forall candidate res r,
        score sim (trim_last candidate) res threshold restricted_type
        = Ok r ->
        (r <= threshold)%Q ->
        get_matches sim [candidate] [res] threshold restricted_type = Ok []).
Proof.
  intros Hrun Hrow. split; [|split].
  - eapply fuzzy_search_above; eassumption.
  - intros content_list restricted_list rows other. apply get_matches_above.
  - intros candidate res r Hscore Hle.
    unfold get_matches. cbn [get_matches_from]. unfold candidate_matches.
    destruct (_ || _); [reflexivity|].
    cbn [matches_of]. rewrite Hscore. cbn [bind].
    apply Qgtb_le in Hle. now rewrite Hle.
Qed.

Lemma similarity_above_threshold_witness :
  let row := mkMatch (lit "Apple Inc") (lit "Apple Inc") 1 in
  snd (fuzzy_search indel_similarity keep_order
         (lit "Apple Inc reported earnings")
         [lit "Apple Inc"] (85 # 100) (lit "issuer")) = Ok [row]
  /\ (85 # 100 < similarity row)%Q
  /\ get_matches indel_similarity [lit "Apple Corp"] [lit "Apple Inc"]
       (85 # 100) (lit "issuer") = Ok [].
Proof.
  intros row.
  assert (Hrun :
    snd (fuzzy_search indel_similarity keep_order
           (lit "Apple Inc reported earnings")
           [lit "Apple Inc"] (85 # 100) (lit "issuer")) = Ok [row])
    by (vm_compute; reflexivity).
  destruct (@similarity_above_threshold indel_similarity keep_order
              (lit "Apple Inc reported earnings") [lit "Apple Inc"]
              (85 # 100) (lit "issuer") [row] row Hrun (or_introl eq_refl))
    as [Hrow [_ Hpair]].
  split; [exact Hrun|]. split; [exact Hrow|].
  apply (Hpair (lit "Apple Corp") (lit "Apple Inc") 0%Q);
    [vm_compute; reflexivity|vm_compute; discriminate].
Defined.

(** C10. The [matched_word] of a row of [get_matches] is the candidate
    n-gram without its last character when that character is not a word
    character, a digit, white space or a dot, then stripped; at most that
    one character is removed. This holds for every type of list: for a
    ticker the stored word is not the alphanumeric reduction that was
    scored, and the trailing character is trimmed for tickers and issuers
    alike. *)
Theorem matched_word_is_trimmed_candidate (sim : str -> str -> Q)
  (content_list restricted_list : list str) (threshold : Q)
  (restricted_type : str) (rows : list Match) (row : Match) :
  get_matches sim content_list restricted_list threshold restricted_type
  = Ok rows ->
  In row rows ->
  exists input front last_char,
    In input content_list
    /\ In (restricted_word row) restricted_list
    /\ input = front ++ [last_char]
    /\ trim_last input = (if strip_pattern last_char then front else input)
    /\ matched_word row = strip (trim_last input)
    /\ (if str_eqb restricted_type (lit "ticker")
        then ratio sim (alnum_only (trim_last input)) (restricted_word row)
               threshold
        else ratio sim (trim_last input) (restricted_word row) threshold)
       = Ok (similarity row).
Proof.
  intros Hrun H.
  apply (proj1 (@get_matches_In sim threshold restricted_type content_list
                  restricted_list rows row Hrun)) in H
    as [input [res [r [Hin [Hres [Hne [_ [Hscore [-> _]]]]]]]]].
  destruct (nonempty_snoc Hne) as [front [c ->]].
  exists (front ++ [c]), front, c. cbn [matched_word restricted_word similarity].
  repeat split; try assumption.
  apply trim_last_snoc.
Qed.

Lemma matched_word_is_trimmed_candidate_witness :
  get_matches indel_similarity [lit "A.APL,"] [lit "AAPL"] (8 # 10)
    (lit "ticker")
  = Ok [mkMatch (lit "A.APL") (lit "AAPL") 1]
  /\ get_matches indel_similarity [lit "AAPL,"] [lit "AAPL"] (8 # 10)
       (lit "issuer")
     = Ok [mkMatch (lit "AAPL") (lit "AAPL") 1]
  /\ exists input front last_char,
       In input [lit "A.APL,"]
       /\ In (lit "AAPL") [lit "AAPL"]
       /\ input = front ++ [last_char]
       /\ trim_last input = (if strip_pattern last_char then front else input)
       /\ lit "A.APL" = strip (trim_last input)
       /\ (if str_eqb (lit "ticker") (lit "ticker")
           then ratio indel_similarity (alnum_only (trim_last input))
                  (lit "AAPL") (8 # 10)
           else ratio indel_similarity (trim_last input) (lit "AAPL")
                  (8 # 10))
          = Ok 1%Q.
Proof.
  split; [vm_compute; reflexivity|]. split; [vm_compute; reflexivity|].
  apply (@matched_word_is_trimmed_candidate indel_similarity
           [lit "A.APL,"] [lit "AAPL"] (8 # 10) (lit "ticker")
           [mkMatch (lit "A.APL") (lit "AAPL") 1]
           (mkMatch (lit "A.APL") (lit "AAPL") 1)).
  - vm_compute. reflexivity.
  - left. reflexivity.
Defined.

(** ** Raising the threshold *)

Section Threshold.
Variables t1 t2 : Q.
Hypothesis t1_le_t2 : (t1 <= t2)%Q.

Lemma above_t2_t1 (row : Match) : above t2 row = true -> above t1 row = true.
Proof.
  unfold above. rewrite !Qgtb_lt. intros H.
  eapply Qle_lt_trans; eassumption.
Qed.

Lemma filter_above (df : list Match) :
  filter (above t2) df = filter (above t2) (filter (above t1) df).
Proof.
  induction df as [|row df IH]; [reflexivity|]. cbn [filter].
  destruct (above t1 row) eqn:E1; cbn [filter];
    destruct (above t2 row) eqn:E2; try (now rewrite IH).
  apply above_t2_t1 in E2. congruence.
Qed.

Lemma above_precede (x y : Match) :
  may_precede by_similarity x y -> above t2 y = true -> above t2 x = true.
Proof.
  rewrite by_similarity_le. unfold above. rewrite !Qgtb_lt.
  intros Hle Hlt. eapply Qlt_le_trans; eassumption.
Qed.

(** When the sort keeps the order of the rows of equal similarity, the
    rows above [t2] are the front of the sorted table, in the order they
    have when they are sorted alone, and the two passes keep of a front
    what they keep of it alone. *)
Lemma rank_dedup_keep_order_above (df : list Match) :
  exists rest,
    rank_dedup keep_order df
    = rank_dedup keep_order (filter (above t2) df) ++ rest.
Proof.
  unfold rank_dedup, drop_duplicates. rewrite !sort_values_keep_order.
  set (sorted := sort_desc by_similarity df).
  assert (Hsplit :
    sorted
    = filter (above t2) sorted ++ filter (fun x => negb (above t2 x)) sorted).
  { apply sorted_split with (below := by_similarity);
      [exact above_precede|].
    apply sort_desc_sorted;
      [exact by_similarity_trans|exact by_similarity_total]. }
  assert (Hfront :
    sort_desc by_similarity (filter (above t2) df) = filter (above t2) sorted).
  { symmetry. apply filter_sort_desc;
      [exact by_similarity_trans|exact by_similarity_total]. }
  rewrite Hfront.
  destruct (drop_duplicates_app matched_word
              (filter (above t2) sorted)
              (filter (fun x => negb (above t2 x)) sorted) [])
    as [rest1 Hpass1].
  rewrite <- Hsplit in Hpass1. unfold drop_duplicates in *. rewrite Hpass1.
  apply drop_duplicates_app.
Qed.

(** The same holds for every sort when no two rows of the table have the
    same similarity. *)
Lemma rank_dedup_length (tie_order : list Match -> list nat)
  (df : list Match) :
  no_ties df \/ (forall table, tie_order table = []) ->
  length (rank_dedup tie_order (filter (above t2) df))
  <= length (rank_dedup tie_order df).
Proof.
  intros Hsame.
  assert (Hkeep : forall table,
    (forall row, In row table -> In row df) ->
    rank_dedup tie_order table = rank_dedup keep_order table).
  { intros table Hsub. unfold rank_dedup. f_equal. f_equal.
    destruct Hsame as [Hties|Hstable].
    - rewrite sort_values_keep_order. apply sort_values_no_ties.
      intros x y Hx Hy. apply Hties; auto.
    - unfold sort_values. now rewrite Hstable. }
  rewrite !Hkeep; [|auto|intros row Hrow; now apply filter_In in Hrow].
  destruct (rank_dedup_keep_order_above df) as [rest ->].
  rewrite length_app. lia.
Qed.

End Threshold.

Lemma index_first_None (A : Type) (l : list A) : index l 0 = None -> l = [].
Proof. destruct l; [reflexivity|discriminate]. Qed.

Lemma sort_restricted_nil (restricted_words : list str) :
  sort_restricted restricted_words = [] -> restricted_words = [].
Proof.
  intros H. apply Permutation_nil.
  rewrite <- H. apply sort_desc_perm.
Qed.

Lemma sort_restricted_first (restricted_words : list str) :
  restricted_words <> [] ->
  exists first, index (sort_restricted restricted_words) 0 = Some first.
Proof.
  intros Hne.
  destruct (index (sort_restricted restricted_words) 0) as [first|] eqn:E;
    [now exists first|].
  apply index_first_None, sort_restricted_nil in E. contradiction.
Qed.

Lemma open_interval_in_range (t : Q) :
  (0 < t)%Q -> (t < 1)%Q -> in_range t = true.
Proof.
  intros Hpos Hlt. apply in_range_bounds. split; now apply Qlt_le_weak.
Qed.

(** C6, as the code has it. For thresholds [t1 <= t2] in the open
    interval (0,1), [get_matches] and the loop of [fuzzy_search] give at
    [t2] at most as many rows as at [t1]. The table [fuzzy_search] returns
    after the sort and the two passes has at [t2] at most as many rows as
    at [t1] when no two rows collected at [t1] have the same similarity,
    or when the sort keeps rows of equal similarity in the order they
    were collected in. *)
Theorem threshold_monotone (sim : str -> str -> Q)
  (tie_order : list Match -> list nat)
  (content_list restricted_list : list str) (input_string : str)
  (restricted_words : list str) (restricted_type : str) (t1 t2 : Q) :
  (0 < t1)%Q -> (t1 <= t2)%Q -> (t2 < 1)%Q ->
  (exists rows1 rows2,
      get_matches sim content_list restricted_list t1 restricted_type
      = Ok rows1
      /\ get_matches sim content_list restricted_list t2 restricted_type
         = Ok rows2
      /\ length rows2 <= length rows1)
  /\ (forall max_word_len,
        exists collected1 collected2,
          collect sim max_word_len content_list restricted_words t1
            restricted_type [] = Ok collected1
          /\ collect sim max_word_len content_list restricted_words t2
               restricted_type [] = Ok collected2
          /\ length collected2 <= length collected1)
  /\ (restricted_words <> [] ->
      exists collected1 table1 table2,
        collected sim input_string restricted_words t1 restricted_type
        = Ok collected1
        /\ snd (fuzzy_search sim tie_order input_string restricted_words t1
                  restricted_type) = Ok table1
        /\ snd (fuzzy_search sim tie_order input_string restricted_words t2
                  restricted_type) = Ok table2
        /\ (no_ties collected1 \/ (forall table, tie_order table = []) ->
            length table2 <= length table1)).
Proof.
  intros Hpos Hle Hlt.
  assert (Hin1 : in_range t1 = true).
  { apply open_interval_in_range; [exact Hpos|].
    eapply Qle_lt_trans; eassumption. }
  assert (Hin2 : in_range t2 = true).
  { apply open_interval_in_range; [|exact Hlt].
    eapply Qlt_le_trans; eassumption. }
  split; [|split].
  - eexists _, _.
    split; [now apply get_matches_in_range|].
    split; [now apply get_matches_in_range|].
    rewrite (filter_above Hle). apply filter_length_le.
  - intros max_word_len. eexists _, _.
    split; [now apply collect_in_range|].
    split; [now apply collect_in_range|].
    cbn [app]. rewrite (filter_above Hle). apply filter_length_le.
  - intros Hne. destruct (sort_restricted_first Hne) as [first Hfirst].
    eexists _, _, _.
    split; [now apply collected_in_range with (first := first)|].
    rewrite !fuzzy_search_collected.
    rewrite !(@collected_in_range sim _ restricted_type input_string
                restricted_words first) by assumption.
    cbn [bind]. split; [reflexivity|]. split; [reflexivity|].
    rewrite (filter_above Hle). now apply rank_dedup_length.
Qed.

(** C6, as the spec has it, fails: the sort of line 193 leaves the order
    of rows of equal similarity open, and the first pass keeps, of the
    rows of a matched word, the one the sort puts first. In the text
    [a b ba baa] the token [b] has the similarity 2/3 with the words [bb]
    and [ba]; 18 rows are collected at the threshold 0.3 and 7 at 0.6.
    When, of the 18 rows, the row of [b] and [ba] comes out before the row
    of [b] and [bb], every row that is left after the first pass has the
    restricted word [ba] and the table has one row; the 7 rows come out
    in the order they were collected in, and the table has two rows. *)
Lemma more_matches_at_higher_threshold_counterexample :
  ~ (forall (sim : str -> str -> Q) (tie_order : list Match -> list nat)
       (input_string : str) (restricted_words : list str)
       (restricted_type : str) (t1 t2 : Q) (table1 table2 : list Match),
        (0 < t1)%Q -> (t1 <= t2)%Q -> (t2 < 1)%Q ->
        snd (fuzzy_search sim tie_order input_string restricted_words t1
               restricted_type) = Ok table1 ->
        snd (fuzzy_search sim tie_order input_string restricted_words t2
               restricted_type) = Ok table2 ->
        length table2 <= length table1).
Proof.
  intros H.
  specialize (H indel_similarity (fun _ => [4]) (lit "a b ba baa")
                [lit "bb"; lit "ba"; lit "aaaa"; lit "abb"; lit "ab"]
                (lit "issuer") (3 # 10)%Q (3 # 5)%Q
                [mkMatch (lit "ba") (lit "ba") 1]
                [mkMatch (lit "ba") (lit "ba") 1;
                 mkMatch (lit "b") (lit "bb") (2 # 3)]).
  assert (Hlen : 2 <= 1); [|lia].
  apply H; try reflexivity; try discriminate; vm_compute; reflexivity.
Qed.

Lemma threshold_monotone_witness :
  (0 < 1 # 2)%Q /\ (1 # 2 <= 9 # 10)%Q /\ (9 # 10 < 1)%Q
  /\ get_matches indel_similarity [lit "Appel"; lit "Apple"] [lit "Apple"]
       (1 # 2) (lit "issuer")
     = Ok [mkMatch (lit "Appel") (lit "Apple") (4 # 5);
           mkMatch (lit "Apple") (lit "Apple") 1]
  /\ get_matches indel_similarity [lit "Appel"; lit "Apple"] [lit "Apple"]
       (9 # 10) (lit "issuer")
     = Ok [mkMatch (lit "Apple") (lit "Apple") 1]
  /\ no_ties [mkMatch (lit "Appel") (lit "Apple") (4 # 5);
              mkMatch (lit "Inc") (lit "Inc") 1]
  /\ exists table1 table2,
       snd (fuzzy_search indel_similarity (fun _ => [0]) (lit "Appel Inc")
              [lit "Apple"; lit "Inc"] (1 # 2) (lit "issuer")) = Ok table1
       /\ snd (fuzzy_search indel_similarity (fun _ => [0]) (lit "Appel Inc")
                 [lit "Apple"; lit "Inc"] (9 # 10) (lit "issuer")) = Ok table2
       /\ length table2 <= length table1.
Proof.
  assert (H1 : (0 < 1 # 2)%Q) by reflexivity.
  assert (H2 : (1 # 2 <= 9 # 10)%Q) by discriminate.
  assert (H3 : (9 # 10 < 1)%Q) by reflexivity.
  assert (Hties :
    no_ties [mkMatch (lit "Appel") (lit "Apple") (4 # 5);
             mkMatch (lit "Inc") (lit "Inc") 1]).
  { intros x y [<-|[<-|[]]] [<-|[<-|[]]] Heq;
      try reflexivity; vm_compute in Heq; discriminate Heq. }
  repeat (split; [assumption|]).
  split; [vm_compute; reflexivity|]. split; [vm_compute; reflexivity|].
  split; [exact Hties|].
  destruct (@threshold_monotone indel_similarity (fun _ => [0])
              [lit "Appel"; lit "Apple"] [lit "Apple"]
              (lit "Appel Inc") [lit "Apple"; lit "Inc"] (lit "issuer")
              (1 # 2) (9 # 10) H1 H2 H3)
    as [_ [_ Htables]].
  destruct Htables as [collected1 [table1 [table2 [Hc [Hr1 [Hr2 Hlen]]]]]];
    [discriminate|].
  exists table1, table2. split; [exact Hr1|]. split; [exact Hr2|].
  apply Hlen. left.
  vm_compute in Hc. injection Hc as <-. exact Hties.
Defined.

(** ** The restricted list of the caller *)

Lemma by_word_count_ge (x y : str) :
  may_precede by_word_count x y <-> word_count y <= word_count x.
Proof.
  unfold may_precede, by_word_count. now rewrite Nat.ltb_ge.
Qed.

Lemma by_word_count_trans (x y z : str) :
  may_precede by_word_count x y -> may_precede by_word_count y z ->
  may_precede by_word_count x z.
Proof. rewrite !by_word_count_ge. lia. Qed.

Lemma by_word_count_total (x y : str) :
  by_word_count x y = true -> may_precede by_word_count y x.
Proof.
  unfold by_word_count. rewrite Nat.ltb_lt, by_word_count_ge. lia.
Qed.

Lemma same_count_sorted (k : nat) (l : list str) :
  StronglySorted (may_precede by_word_count)
    (filter (fun w => (word_count w =? k)%nat) l).
Proof.
  induction l as [|x l IH]; simpl; [constructor|].
  destruct (word_count x =? k)%nat eqn:E; [|exact IH].
  constructor; [exact IH|].
  apply Forall_forall. intros y Hy. apply filter_In in Hy as [_ Hy].
  apply Nat.eqb_eq in E, Hy. apply by_word_count_ge. lia.
Qed.

(** C9, as the code has it. When [fuzzy_search] returns or raises, the list
    of the caller holds the same entries, sorted in place by the number
    of words, longest first; entries with the same number of words keep
    their order, and a list that was in that order is not changed. *)
Theorem restricted_words_sorted_in_place (sim : str -> str -> Q)
  (tie_order : list Match -> list nat)
  (input_string : str) (restricted_words : list str) (threshold : Q)
  (restricted_type : str) :
  let after :=
    fst (fuzzy_search sim tie_order input_string restricted_words threshold
           restricted_type) in
  Permutation after restricted_words
  /\ StronglySorted (fun x y => word_count y <= word_count x) after
  /\ (forall k,
        filter (fun w => (word_count w =? k)%nat) after
        = filter (fun w => (word_count w =? k)%nat) restricted_words)
  /\ (StronglySorted (fun x y => word_count y <= word_count x)
        restricted_words ->
      after = restricted_words).
Proof.
  cbn [fuzzy_search fst]. unfold sort_restricted.
  assert (Hrel : forall l,
    StronglySorted (may_precede by_word_count) l
    <-> StronglySorted (fun x y => word_count y <= word_count x) l).
  { intros l. split; intros H; induction H; constructor; auto;
      (eapply Forall_impl; [|eassumption]);
      intros y Hy; now apply by_word_count_ge. }
  split; [apply sort_desc_perm|]. split; [|split].
  - apply Hrel, sort_desc_sorted;
      [exact by_word_count_trans|exact by_word_count_total].
  - intros k.
    rewrite filter_sort_desc
      by (exact by_word_count_trans || exact by_word_count_total).
    apply sort_desc_fixed, same_count_sorted.
  - intros H. now apply sort_desc_fixed, Hrel.
Qed.

(** C9, as the spec has it, fails: a list whose shorter entry comes first is
    reordered. *)
Lemma restricted_words_unchanged_counterexample :
  ~ (forall (sim : str -> str -> Q)
  (tie_order : list Match -> list nat) (input_string : str)
       (restricted_words : list str) (threshold : Q) (restricted_type : str),
        fst (fuzzy_search sim tie_order input_string restricted_words threshold
               restricted_type)
        = restricted_words).
Proof.
  intros H.
  specialize (H indel_similarity keep_order (lit "Apple Inc")
                [lit "AAPL"; lit "Apple Inc"] (85 # 100)%Q (lit "issuer")).
  vm_compute in H. discriminate H.
Qed.

Lemma restricted_words_sorted_in_place_witness :
  fst (fuzzy_search indel_similarity keep_order (lit "Apple Inc")
         [lit "AAPL"; lit "Apple Inc"; lit "MSFT"] (85 # 100) (lit "issuer"))
  = [lit "Apple Inc"; lit "AAPL"; lit "MSFT"]
  /\ fst (fuzzy_search indel_similarity keep_order (lit "Apple Inc")
            [lit "Apple Inc"; lit "AAPL"] (85 # 100) (lit "issuer"))
     = [lit "Apple Inc"; lit "AAPL"].
Proof.
  split; [vm_compute; reflexivity|].
  apply (@restricted_words_sorted_in_place indel_similarity keep_order
           (lit "Apple Inc") [lit "Apple Inc"; lit "AAPL"] (85 # 100)
           (lit "issuer")).
  repeat constructor.
Defined.

(** ** The pairs that are scored *)

(** A window of tokens is not blank. *)
Lemma window_not_blank (tokens : list str) (k i : nat) :
  Forall token tokens -> 1 <= k -> i + k <= length tokens ->
  (length (window_text tokens (Z.of_nat k) i) =? 0)%nat
  || isspace (window_text tokens (Z.of_nat k) i) = false.
Proof.
  intros Hall Hk Hi.
  destruct (window_text_tokens k i Hall) as [-> _].
  assert (Hsub : Forall token (firstn k (skipn i tokens)))
    by now apply Forall_firstn_skipn.
  destruct (firstn k (skipn i tokens)) as [|w ws] eqn:Hwindow.
  - apply (f_equal (@length str)) in Hwindow.
    rewrite length_firstn, length_skipn in Hwindow. cbn in Hwindow. lia.
  - destruct (join_space_ends Hsub) as [_ [_ [_ [_ [back ->]]]]].
    inversion Hsub as [|? ? [Hne Hw] _]; subst.
    destruct w as [|c w]; [congruence|].
    cbn [forallb] in Hw. apply andb_true_iff in Hw as [Hc _].
    apply negb_true_iff in Hc.
    unfold isspace, all_chars. cbn [app length Nat.eqb negb orb andb forallb].
    now rewrite Hc.
Qed.

Section ScoredPairs.
Variable sim : str -> str -> Q.
Variable tie_order : list Match -> list nat.
Variable threshold : Q.
Variable restricted_type : str.

(** A pair of the loop of [fuzzy_search] comes from the windows of one
    length and the restricted words of that many words. *)
Lemma collect_all_In (max_word_len : nat)
  (content_list restricted_words : list str) (row : Match) :
  In row
    (collect_all sim max_word_len content_list restricted_words
       restricted_type) <->
  exists k,
    1 <= k <= max_word_len
    /\ In row
         (all_pairs sim
            (map (window_text content_list (Z.of_nat k))
               (seq 0 (Z.to_nat
                         (Z.max 0 (Z.of_nat (length content_list)
                                   - Z.of_nat k + 1)))))
            (filter (fun elem => (word_count elem =? k)%nat)
               restricted_words)
            restricted_type).
Proof.
  induction max_word_len as [|n IH]; cbn [collect_all].
  - split; [intros []|]. intros [k [Hk _]]. lia.
  - rewrite in_app_iff, IH. split.
    + intros [Hin|[k [Hk Hin]]].
      * destruct (0 <? length _)%nat; [|destruct Hin].
        exists (S n). split; [lia|exact Hin].
      * exists k. split; [lia|exact Hin].
    + intros [k [Hk Hin]].
      destruct (Nat.eq_dec k (S n)) as [->|Hne].
      * left. destruct (0 <? length _)%nat eqn:E; [exact Hin|].
        apply all_pairs_In in Hin as [_ [res [_ [Hres _]]]].
        apply Nat.ltb_ge in E.
        destruct (filter _ restricted_words); [destruct Hres|].
        cbn [length] in E. lia.
      * right. exists k. split; [lia|exact Hin].
Qed.

(** The first entry of the sorted list has the most words. *)
Lemma sort_restricted_max (restricted_words : list str) (first w : str) :
  index (sort_restricted restricted_words) 0 = Some first ->
  In w restricted_words ->
  word_count w <= word_count first.
Proof.
  intros Hfirst Hw.
  assert (Hsorted :
    StronglySorted (may_precede by_word_count)
      (sort_restricted restricted_words))
    by (apply sort_desc_sorted;
        [exact by_word_count_trans|exact by_word_count_total]).
  assert (Hin : In w (sort_restricted restricted_words))
    by (eapply Permutation_in;
        [apply Permutation_sym, sort_desc_perm|exact Hw]).
  destruct (sort_restricted restricted_words) as [|x rest];
    [discriminate|].
  cbn in Hfirst. injection Hfirst as ->.
  destruct Hin as [<-|Hin]; [lia|].
  inversion Hsorted as [|? ? _ Hall]; subst.
  apply by_word_count_ge.
  exact (proj1 (Forall_forall _ _) Hall w Hin).
Qed.

(** A restricted word with at least one word and no more words than the
    text has tokens is scored against a window. *)
Lemma collect_all_scored (input_string : str) (restricted_words : list str)
  (first w : str) :
  index (sort_restricted restricted_words) 0 = Some first ->
  In w restricted_words ->
  1 <= word_count w
       <= length (split (replace_char newline space input_string)) ->
  collect_all sim (word_count first)
    (split (replace_char newline space input_string))
    (sort_restricted restricted_words) restricted_type
  <> [].
Proof.
  intros Hfirst Hw Hcount.
  set (tokens := split (replace_char newline space input_string)) in *.
  set (window := window_text tokens (Z.of_nat (word_count w)) 0).
  assert (Hrow :
    In (mkMatch (strip (trim_last window)) w
          (raw_score sim (trim_last window) w restricted_type))
      (collect_all sim (word_count first) tokens
         (sort_restricted restricted_words) restricted_type)).
  { apply collect_all_In. exists (word_count w).
    split; [split; [lia|now apply sort_restricted_max
                              with (restricted_words := restricted_words)]|].
    apply all_pairs_In. exists window, w.
    assert (Hblank :
      (length window =? 0)%nat || isspace window = false)
      by (apply window_not_blank; [apply split_tokens|lia|lia]).
    apply orb_false_iff in Hblank as [Hlen Hspace].
    split.
    { apply in_map_iff. exists 0. split; [reflexivity|].
      apply in_seq. lia. }
    split.
    { apply filter_In. split; [|apply Nat.eqb_refl].
      eapply Permutation_in;
        [apply Permutation_sym, sort_desc_perm|exact Hw]. }
    split.
    { intros Hnil. rewrite Hnil in Hlen. discriminate. }
    split; [exact Hspace|reflexivity]. }
  intros Hnil. rewrite Hnil in Hrow. destruct Hrow.
Qed.

(** When every restricted word is blank or has more words than the text,
    no pair is scored. *)
Lemma collect_all_short (input_string : str) (restricted_words : list str)
  (max_word_len : nat) :
  (forall w,
      In w restricted_words ->
      word_count w = 0
      \/ length (split (replace_char newline space input_string))
         < word_count w) ->
  collect_all sim max_word_len
    (split (replace_char newline space input_string))
    (sort_restricted restricted_words) restricted_type
  = [].
Proof.
  intros Hshort.
  destruct (collect_all sim _ _ _ restricted_type) as [|row rows] eqn:E;
    [reflexivity|].
  exfalso.
  assert (Hrow : In row (row :: rows)) by now left.
  rewrite <- E in Hrow.
  apply collect_all_In in Hrow as [k [Hk Hrow]].
  apply all_pairs_In in Hrow as [input [res [Hinput [Hres _]]]].
  apply in_map_iff in Hinput as [i [_ Hi]]. apply in_seq in Hi.
  apply filter_In in Hres as [Hres Hcount]. apply Nat.eqb_eq in Hcount.
  assert (Hin : In res restricted_words)
    by (eapply Permutation_in; [apply sort_desc_perm|exact Hres]).
  destruct (Hshort res Hin); lia.
Qed.

(** The three ways [fuzzy_search] ends with a list that is not empty. *)
Lemma fuzzy_search_in_range (input_string : str)
  (restricted_words : list str) (first : str) :
  in_range threshold = true ->
  index (sort_restricted restricted_words) 0 = Some first ->
  snd (fuzzy_search sim tie_order input_string restricted_words threshold
         restricted_type)
  = Ok (rank_dedup tie_order
          (filter (above threshold)
             (collect_all sim (word_count first)
                (split (replace_char newline space input_string))
                (sort_restricted restricted_words) restricted_type))).
Proof.
  intros Hin Hfirst. rewrite fuzzy_search_collected.
  now rewrite collected_in_range with (first := first) by assumption.
Qed.

Lemma fuzzy_search_no_pairs (input_string : str)
  (restricted_words : list str) (first : str) :
  index (sort_restricted restricted_words) 0 = Some first ->
  collect_all sim (word_count first)
    (split (replace_char newline space input_string))
    (sort_restricted restricted_words) restricted_type
  = [] ->
  snd (fuzzy_search sim tie_order input_string restricted_words threshold
         restricted_type)
  = Ok [].
Proof.
  intros Hfirst Hnil. rewrite fuzzy_search_collected.
  destruct (in_range threshold) eqn:Hin.
  - rewrite collected_in_range with (first := first) by assumption.
    rewrite Hnil. cbn [filter bind]. now rewrite rank_dedup_nil.
  - rewrite collected_out with (first := first) by assumption.
    rewrite Hnil. cbn [bind]. now rewrite rank_dedup_nil.
Qed.

Lemma fuzzy_search_out (input_string : str)
  (restricted_words : list str) (first : str) :
  in_range threshold = false ->
  index (sort_restricted restricted_words) 0 = Some first ->
  collect_all sim (word_count first)
    (split (replace_char newline space input_string))
    (sort_restricted restricted_words) restricted_type
  <> [] ->
  snd (fuzzy_search sim tie_order input_string restricted_words threshold
         restricted_type)
  = TypeError.
Proof.
  intros Hout Hfirst Hpairs. rewrite fuzzy_search_collected.
  rewrite collected_out with (first := first) by assumption.
  now destruct (collect_all sim _ _ _ restricted_type).
Qed.

End ScoredPairs.

Lemma out_of_range (threshold : Q) :
  (threshold < 0)%Q \/ (1 < threshold)%Q -> in_range threshold = false.
Proof.
  intros Hout. destruct (in_range threshold) eqn:Hin; [|reflexivity].
  apply in_range_bounds in Hin as [Hlow Hhigh]. exfalso.
  destruct Hout as [H|H]; eapply Qlt_not_le; eassumption.
Qed.

(** ** Malformed configuration *)

(** C5, as the code has it. An empty restricted list makes [fuzzy_search]
    raise [IndexError] before it builds a row. [fuzzy_search] does not
    check the threshold. With a list that is not empty, a threshold from 0
    to 1, the ends 0 and 1 included, gives a table, and the rows of the
    table are above the threshold. A threshold below 0 or above 1 is
    refused by [Levenshtein.ratio]: the call raises [TypeError] when the
    first pair is scored, which is the case when a restricted word has at
    least one word and no more words than the text; when no pair is scored
    the call returns the empty table. *)
Theorem empty_list_raises (sim : str -> str -> Q)
  (tie_order : list Match -> list nat) (input_string : str)
  (threshold : Q) (restricted_type : str) :
  fuzzy_search sim tie_order input_string [] threshold restricted_type
  = ([], IndexError)
  /\ forall (word : str) (restricted_words : list str),
       let outcome :=
         snd (fuzzy_search sim tie_order input_string
                (word :: restricted_words) threshold restricted_type) in
       let tokens := split (replace_char newline space input_string) in
       ((0 <= threshold)%Q -> (threshold <= 1)%Q ->
        exists table,
          outcome = Ok table
          /\ forall row, In row table -> (threshold < similarity row)%Q)
       /\ ((threshold < 0)%Q \/ (1 < threshold)%Q ->
           (exists w,
               In w (word :: restricted_words)
               /\ 1 <= word_count w <= length tokens) ->
           outcome = TypeError)
       /\ ((threshold < 0)%Q \/ (1 < threshold)%Q ->
           (forall w,
               In w (word :: restricted_words) ->
               word_count w = 0 \/ length tokens < word_count w) ->
           outcome = Ok []).
Proof.
  split; [reflexivity|]. intros word restricted_words outcome tokens.
  destruct (@sort_restricted_first (word :: restricted_words))
    as [first Hfirst]; [discriminate|].
  split; [|split].
  - intros Hlow Hhigh.
    assert (Hin : in_range threshold = true)
      by (apply in_range_bounds; now split).
    eexists. split.
    + apply fuzzy_search_in_range with (first := first); assumption.
    + intros row Hrow.
      eapply fuzzy_search_above; [|exact Hrow].
      apply fuzzy_search_in_range with (first := first); assumption.
  - intros Hout [w [Hw Hcount]].
    apply fuzzy_search_out with (first := first);
      [now apply out_of_range|exact Hfirst|].
    now apply collect_all_scored with (w := w).
  - intros _ Hshort.
    apply fuzzy_search_no_pairs with (first := first); [exact Hfirst|].
    now apply collect_all_short.
Qed.

(** C5, as the spec has it, fails: the threshold 0 is outside the interval
    (0,1) and [fuzzy_search] returns a table with a row. *)
Lemma threshold_not_checked_counterexample :
  ~ (forall (sim : str -> str -> Q) (tie_order : list Match -> list nat)
       (input_string : str) (restricted_words : list str) (threshold : Q)
       (restricted_type : str),
        restricted_words = [] \/ ~ (0 < threshold /\ threshold < 1)%Q ->
        forall table,
          snd (fuzzy_search sim tie_order input_string restricted_words
                 threshold restricted_type) <> Ok table).
Proof.
  intros H.
  apply (H indel_similarity keep_order (lit "Apple Inc reported")
           [lit "Apple Inc"] 0%Q (lit "issuer"))
    with (table := [mkMatch (lit "Apple Inc") (lit "Apple Inc") 1]).
  - right. intros [Hpos _]. discriminate Hpos.
  - vm_compute. reflexivity.
Qed.

Lemma empty_list_raises_witness :
  (exists table,
      snd (fuzzy_search indel_similarity keep_order
             (lit "Apple Inc reported") [lit "Apple Inc"] 1
             (lit "issuer")) = Ok table
      /\ forall row, In row table -> (1 < similarity row)%Q)
  /\ snd (fuzzy_search indel_similarity keep_order
            (lit "Apple Inc reported") [lit "Apple Inc"] (3 # 2)
            (lit "issuer")) = TypeError
  /\ snd (fuzzy_search indel_similarity keep_order
            (lit "Apple Inc reported") [lit "Apple Inc"] (-1 # 1)
            (lit "issuer")) = TypeError
  /\ snd (fuzzy_search indel_similarity keep_order (lit "Apple")
            [lit "Apple Inc"] (3 # 2) (lit "issuer")) = Ok [].
Proof.
  split; [|split; [|split]].
  - apply (proj1 (proj2 (@empty_list_raises indel_similarity keep_order
                           (lit "Apple Inc reported") 1 (lit "issuer"))
                    (lit "Apple Inc") [])); discriminate.
  - apply (proj1 (proj2 (proj2 (@empty_list_raises indel_similarity
                                  keep_order (lit "Apple Inc reported")
                                  (3 # 2) (lit "issuer"))
                           (lit "Apple Inc") []))).
    + right. reflexivity.
    + exists (lit "Apple Inc"). split; [now left|]. vm_compute. lia.
  - apply (proj1 (proj2 (proj2 (@empty_list_raises indel_similarity
                                  keep_order (lit "Apple Inc reported")
                                  (-1 # 1) (lit "issuer"))
                           (lit "Apple Inc") []))).
    + left. reflexivity.
    + exists (lit "Apple Inc"). split; [now left|]. vm_compute. lia.
  - apply (proj2 (proj2 (proj2 (@empty_list_raises indel_similarity
                                  keep_order (lit "Apple")
                                  (3 # 2) (lit "issuer"))
                           (lit "Apple Inc") []))).
    + right. reflexivity.
    + intros w [<-|[]]. right. vm_compute. lia.
Defined.

(** ** The Highlighter: rows that are not highlighted *)

(** C8. A matched word shorter than 3 characters that is not alphanumeric
    or is made of digits only, or a matched word of one character, gets a
    report row with [highlighted = false] and no substitution: the document
    is the same after the row. The word [@!] is one of them. *)
Theorem noisy_match_not_highlighted (updated_body_HTML : str) (row : Match) :
  (length (matched_word row) < 3
   /\ (isalnum (matched_word row) = false \/ isdigit (matched_word row) = true))
  \/ length (matched_word row) = 1 ->
  highlight_row updated_body_HTML row
  = Ok (updated_body_HTML, Row row false)
  /\ (forall n_issuer n_ticker idx rows result_table,
        highlight_loop n_issuer n_ticker idx (row :: rows) updated_body_HTML
          result_table
        = highlight_loop n_issuer n_ticker (S idx) rows updated_body_HTML
            ((result_table ++ titles idx n_issuer n_ticker)
               ++ [Row row false]))
  /\ too_noisy (lit "@!") = true.
Proof.
  intros H.
  assert (Hnoisy : too_noisy (matched_word row) = true).
  { unfold too_noisy. apply orb_true_iff.
    destruct H as [[Hlen Hclass]|Hlen].
    - left. apply andb_true_iff. split; [now apply Nat.ltb_lt|].
      apply orb_true_iff.
      destruct Hclass as [Ha|Hd]; [left; now rewrite Ha|now right].
    - right. now apply Nat.eqb_eq. }
  assert (Hrow : highlight_row updated_body_HTML row
                 = Ok (updated_body_HTML, Row row false))
    by (unfold highlight_row; now rewrite Hnoisy).
  split; [exact Hrow|]. split; [|reflexivity].
  intros n_issuer n_ticker idx rows result_table.
  cbn [highlight_loop]. rewrite Hrow. reflexivity.
Qed.

Lemma noisy_match_not_highlighted_witness :
  let row := mkMatch (lit "@!") (lit "@") (9 # 10) in
  highlight_row (lit "<p>mail me @! now</p>") row
  = Ok (lit "<p>mail me @! now</p>", Row row false)
  /\ highlight (lit "<p>mail me @! now</p>") [row] []
     = Ok (lit "<p>mail me @! now</p>",
           [Title (lit "Issuer Names"); Row row false]).
Proof.
  intros row. split; [|vm_compute; reflexivity].
  apply (@noisy_match_not_highlighted (lit "<p>mail me @! now</p>") row).
  left. split; [cbn; lia|left; vm_compute; reflexivity].
Defined.

(** ** The matcher of the Highlighter *)

Section Matcher.

(** [star] in front of a sound matcher is sound. *)
Lemma star_sound (k : str -> option str) (P : str -> Prop) :
  (forall s rest, k s = Some rest -> exists m, s = m ++ rest /\ P m) ->
  forall s rest,
    star k s = Some rest ->
    exists run m,
      s = (run ++ m) ++ rest
      /\ Forall (fun x => in_gap x = true) run /\ P m.
Proof.
  intros Hk. induction s as [|x s IH]; intros rest; cbn [star].
  - intros H. destruct (Hk _ _ H) as [m [Heq Hm]].
    exists [], m. auto.
  - destruct (in_gap x) eqn:Hx.
    + destruct (star k s) as [rest'|] eqn:Hstar.
      * intros [= <-]. destruct (IH _ eq_refl) as [run [m [Heq [Hrun Hm]]]].
        exists (x :: run), m. split; [cbn; now rewrite Heq|].
        split; [now constructor|exact Hm].
      * intros H. destruct (Hk _ _ H) as [m [Heq Hm]].
        exists [], m. auto.
    + intros H. destruct (Hk _ _ H) as [m [Heq Hm]].
      exists [], m. auto.
Qed.

(** When [star] fails, the rest of the pattern fails after every run. *)
Lemma star_none (k : str -> option str) :
  forall s run tail,
    star k s = None ->
    s = run ++ tail ->
    Forall (fun x => in_gap x = true) run ->
    k tail = None.
Proof.
  induction s as [|x s IH]; intros run tail; cbn [star].
  - intros H Heq _. symmetry in Heq. apply app_eq_nil in Heq as [-> ->].
    exact H.
  - intros H Heq Hrun. destruct run as [|y run].
    + cbn in Heq. subst tail.
      destruct (in_gap x); [|exact H].
      destruct (star k s); [discriminate|exact H].
    + cbn in Heq. injection Heq as <- Heq.
      inversion Hrun as [|? ? Hy Hrun']; subst.
      rewrite Hy in H. destruct (star k (run ++ tail)) eqn:Hstar;
        [discriminate|].
      now apply (IH run tail).
Qed.

Lemma match_here_sound (pat : list re_item) :
  forall s rest,
    match_here pat s = Some rest ->
    exists m, s = m ++ rest /\ matches pat m.
Proof.
  induction pat as [|[c|] pat IH]; intros s rest; cbn [match_here].
  - intros [= <-]. exists []. split; [reflexivity|constructor].
  - destruct s as [|x s]; [discriminate|].
    destruct (Ascii.eqb_spec x c) as [->|_]; [|discriminate].
    intros H. destruct (IH _ _ H) as [m [-> Hm]].
    exists (c :: m). split; [reflexivity|now constructor].
  - intros H.
    destruct (star_sound (match_here pat) (matches pat) IH _ H)
      as [run [m [-> [Hrun Hm]]]].
    exists (run ++ m). split; [reflexivity|now constructor].
Qed.

(** The matcher misses no match: where it fails, nothing matches. *)
Lemma match_here_complete (pat : list re_item) :
  forall s m, occurs_at pat s m -> match_here pat s <> None.
Proof.
  induction pat as [|[c|] pat IH]; intros s m [Hm [rest ->]];
    cbn [match_here]; inversion Hm; subst.
  - discriminate.
  - cbn [app]. rewrite Ascii.eqb_refl.
    apply (IH _ m0). split; [assumption|now exists rest].
  - intros Hnone.
    apply star_none with (run := run) (tail := m0 ++ rest) in Hnone;
      [|now rewrite app_assoc|assumption].
    revert Hnone. apply (IH _ m0). split; [assumption|now exists rest].
Qed.

Lemma match_here_shorter (pat : list re_item) (s rest : str) :
  match_here pat s = Some rest -> length rest <= length s.
Proof.
  intros H. destruct (match_here_sound _ _ H) as [m [-> _]].
  rewrite length_app. lia.
Qed.

Lemma same_length_suffix (m rest : str) :
  length rest = length (m ++ rest) -> m = [].
Proof.
  rewrite length_app. destruct m; [reflexivity|cbn; lia].
Qed.

(** Where the first match is empty, every match is. *)
Lemma first_empty_all_empty (pat : list re_item) :
  forall s rest,
    match_here pat s = Some rest ->
    length rest = length s ->
    forall m, occurs_at pat s m -> m = [].
Proof.
  induction pat as [|[c|] pat IH]; intros s rest Hrun Hlen m [Hm [tail Heq]].
  - now inversion Hm.
  - cbn [match_here] in Hrun. destruct s as [|x s]; [discriminate|].
    destruct (Ascii.eqb x c); [|discriminate].
    apply match_here_shorter in Hrun. cbn in Hlen. lia.
  - cbn [match_here] in Hrun. inversion Hm as [| |run ? m0 Hgap Hm0]; subst.
    destruct run as [|x run].
    + cbn [app] in *.
      assert (Hk : match_here pat (m0 ++ tail) = Some rest -> m0 = []).
      { intros Hpat. apply (IH _ _ Hpat Hlen).
        split; [assumption|now exists tail]. }
      destruct (m0 ++ tail) as [|y s'] eqn:Es.
      * cbn [star] in Hrun. exact (Hk Hrun).
      * cbn [star] in Hrun. destruct (in_gap y); [|exact (Hk Hrun)].
        destruct (star (match_here pat) s') as [rest'|] eqn:Hstar;
          [|exact (Hk Hrun)].
        injection Hrun as ->.
        destruct (star_sound (match_here pat) (matches pat)
                    (match_here_sound pat) _ Hstar)
          as [run' [m' [Heq' _]]].
        rewrite Heq' in Hlen. cbn in Hlen. rewrite !length_app in Hlen. lia.
    + exfalso. cbn [app star] in Hrun.
      inversion Hgap as [|? ? Hx Hgap']; subst. rewrite Hx in Hrun.
      destruct (star (match_here pat) ((run ++ m0) ++ tail)) as [rest'|]
        eqn:Hstar.
      * injection Hrun as ->.
        destruct (star_sound (match_here pat) (matches pat)
                    (match_here_sound pat) _ Hstar)
          as [run' [m' [Heq' _]]].
        cbn in Hlen. rewrite Heq' in Hlen. rewrite !length_app in Hlen. lia.
      * apply star_none with (run := run) (tail := m0 ++ tail) in Hstar;
          [|now rewrite app_assoc|assumption].
        revert Hstar. apply (match_here_complete (m := m0)).
        split; [assumption|now exists tail].
Qed.

End Matcher.

(** ** Substitution *)

Section Substitution.
Variable pat : list re_item.
Variable repl : str.

(** [subn_loop] has fuel enough and substitutes every match. *)
Lemma subn_loop_substituted (fuel : nat) :
  forall (must_advance : bool) (s : str),
    2 * length s + (if must_advance then 1 else 2) <= fuel ->
    exists out n,
      subn_loop fuel pat repl must_advance s = Ok (out, n)
      /\ substituted pat repl must_advance s out n.
Proof.
  induction fuel as [|fuel IH]; intros must_advance s Hfuel;
    [destruct must_advance; lia|].
  assert (Hcopy :
    (forall m, occurs_at pat s m -> m = [] /\ must_advance = true) ->
    exists out n,
      match s with
      | [] => Ok ([], 0)
      | c :: s' =>
          r <- subn_loop fuel pat repl false s' ;; Ok (c :: fst r, snd r)
      end = Ok (out, n)
      /\ substituted pat repl must_advance s out n).
  { intros Hnone. destruct s as [|c s'].
    - exists [], 0. split; [reflexivity|now constructor].
    - destruct (IH false s') as [out [n [Hrun Hsub]]];
        [cbn [length] in Hfuel; destruct must_advance; lia|].
      exists (c :: out), n. rewrite Hrun. split; [reflexivity|].
      now constructor. }
  cbn [subn_loop].
  destruct (match_here pat s) as [rest|] eqn:Hmatch.
  - destruct (match_here_sound _ _ Hmatch) as [m [Heq Hm]].
    destruct (length rest =? length s)%nat eqn:Hlen.
    + apply Nat.eqb_eq in Hlen.
      pose proof (@first_empty_all_empty pat s rest Hmatch Hlen) as Hempty.
      destruct must_advance.
      * apply Hcopy. intros m' Hm'. split; [now apply Hempty|reflexivity].
      * destruct (IH true s) as [out [n [Hrun Hsub]]]; [lia|].
        exists (repl ++ out), (S n). rewrite Hrun. split; [reflexivity|].
        apply substituted_empty; try assumption.
        rewrite Heq in Hlen. apply same_length_suffix in Hlen.
        rewrite Hlen in Hm. exact Hm.
    + apply Nat.eqb_neq in Hlen.
      assert (Hne : m <> []) by (intros ->; apply Hlen; now rewrite Heq).
      destruct (IH false rest) as [out [n [Hrun Hsub]]].
      { subst s. rewrite length_app in Hfuel.
        destruct m; [congruence|]. cbn [length] in Hfuel.
        destruct must_advance; lia. }
      exists (repl ++ out), (S n). rewrite Hrun. split; [reflexivity|].
      subst s. now constructor.
  - apply Hcopy. intros m Hm. exfalso.
    now apply (match_here_complete Hm).
Qed.

Lemma subn_substituted (s : str) :
  exists out n,
    subn pat repl s = Ok (out, n) /\ substituted pat repl false s out n.
Proof. apply subn_loop_substituted. lia. Qed.

(** Without a substitution the string is the same. *)
Lemma substituted_none (must_advance : bool) (s out : str) (n : nat) :
  substituted pat repl must_advance s out n -> n = 0 -> out = s.
Proof.
  induction 1 as [| ? c s out n _ _ IH | |]; intros Hn;
    try discriminate; [reflexivity|].
  now rewrite IH.
Qed.

(** After a substitution the replacement is in the string. *)
Lemma substituted_contains (must_advance : bool) (s out : str) (n : nat) :
  substituted pat repl must_advance s out n ->
  1 <= n ->
  exists front back, out = front ++ repl ++ back.
Proof.
  induction 1 as [| ? c s out n _ _ IH | ? m rest out n | s out n];
    intros Hn; [lia| | |].
  - destruct (IH Hn) as [front [back ->]]. now exists (c :: front), back.
  - now exists [], out.
  - now exists [], out.
Qed.

(** A string in which the pattern matches somewhere gets a substitution. *)
Lemma substituted_finds (must_advance : bool) (s out : str) (n : nat) :
  substituted pat repl must_advance s out n ->
  must_advance = false ->
  forall front mid back,
    s = front ++ mid ++ back -> matches pat mid -> 1 <= n.
Proof.
  induction 1 as [ma Hnone | ma c s out n Hnone _ IH | |];
    intros Hma front mid back Heq Hm; try lia.
  - symmetry in Heq. apply app_eq_nil in Heq as [-> Heq].
    apply app_eq_nil in Heq as [-> ->].
    destruct (Hnone []) as [_ Htrue]; [|congruence].
    split; [assumption|now exists []].
  - destruct front as [|x front].
    + destruct (Hnone mid) as [_ Htrue]; [|congruence].
      split; [assumption|now exists back].
    + injection Heq as _ Heq. now apply (IH eq_refl front mid back).
Qed.

End Substitution.

(** ** The Highlighter: every occurrence is wrapped *)

Lemma highlight_word_substituted (word doc : str) :
  backslash_free word = true ->
  exists out n,
    highlight_word word doc = Ok (out, n)
    /\ substituted (word_sub_re word) (marker word) false doc out n.
Proof.
  intros Hfree. unfold highlight_word. rewrite Hfree.
  apply subn_substituted.
Qed.

(** C3, as the code has it. For a match that passes the filter of line 261
    (and has no backslash), [re.subn] replaces every match of the pattern
    that a scan of the document from the left meets, not only the first:
    the document after the row is the document before it with [subs_made]
    matches replaced by the marker and everything else copied; the row is
    highlighted when [subs_made] is not 0, and with no substitution the
    document is the same. *)
Theorem every_occurrence_wrapped (updated_body_HTML : str) (row : Match) :
  too_noisy (matched_word row) = false ->
  backslash_free (matched_word row) = true ->
  exists (updated : str) (subs_made : nat),
    highlight_word (matched_word row) updated_body_HTML
    = Ok (updated, subs_made)
    /\ substituted (word_sub_re (matched_word row))
         (marker (matched_word row)) false updated_body_HTML updated subs_made
    /\ highlight_row updated_body_HTML row
       = Ok (updated, Row row (negb (subs_made =? 0)%nat))
    /\ (subs_made = 0 -> updated = updated_body_HTML).
Proof.
  intros Hnoisy Hfree.
  destruct (highlight_word_substituted (matched_word row) updated_body_HTML
              Hfree) as [updated [subs_made [Hrun Hsub]]].
  exists updated, subs_made. split; [exact Hrun|]. split; [exact Hsub|].
  split.
  - unfold highlight_row. rewrite Hnoisy, Hrun. cbn [bind fst snd].
    now destruct (subs_made =? 0)%nat.
  - now apply (substituted_none Hsub).
Qed.

(** C3, as the spec has it, fails: a word that occurs twice is wrapped
    twice. *)
Lemma one_substitution_counterexample :
  ~ (forall (updated_body_HTML : str) (row : Match) (updated : str)
       (subs_made : nat),
        too_noisy (matched_word row) = false ->
        highlight_word (matched_word row) updated_body_HTML
        = Ok (updated, subs_made) ->
        subs_made <= 1).
Proof.
  intros H.
  specialize (H (lit "ab ab") (mkMatch (lit "ab") (lit "ab") 1%Q)
                (marker (lit "ab") ++ lit " " ++ marker (lit "ab")) 2
                eq_refl).
  assert (Hrun : highlight_word (lit "ab") (lit "ab ab")
                 = Ok (marker (lit "ab") ++ lit " " ++ marker (lit "ab"), 2))
    by (vm_compute; reflexivity).
  specialize (H Hrun). lia.
Qed.

Lemma every_occurrence_wrapped_witness :
  let row := mkMatch (lit "a b") (lit "a b") 1%Q in
  exists (updated : str) (subs_made : nat),
    highlight_word (lit "a b") (lit "a b, a|b") = Ok (updated, subs_made)
    /\ substituted (word_sub_re (lit "a b")) (marker (lit "a b")) false
         (lit "a b, a|b") updated subs_made
    /\ updated = marker (lit "a b") ++ lit ", " ++ marker (lit "a b")
    /\ subs_made = 2.
Proof.
  intros row.
  destruct (@every_occurrence_wrapped (lit "a b, a|b") row eq_refl eq_refl)
    as [updated [subs_made [Hrun [Hsub _]]]].
  exists updated, subs_made. split; [exact Hrun|]. split; [exact Hsub|].
  vm_compute in Hrun. injection Hrun as <- <-. split; reflexivity.
Defined.

(** ** The Highlighter on its own output *)

Lemma lt_count_app (a b : str) : lt_count (a ++ b) = lt_count a + lt_count b.
Proof. unfold lt_count. now rewrite filter_app, length_app. Qed.

Lemma lt_count_gap (run : str) :
  Forall (fun x => in_gap x = true) run -> lt_count run = 0.
Proof.
  induction 1 as [|x run Hx _ IH]; [reflexivity|].
  unfold lt_count in *. cbn [filter].
  destruct (Ascii.eqb_spec "<"%char x) as [<-|_]; [discriminate Hx|exact IH].
Qed.

(** A match of the pattern of a word has the characters of the word, but
    for its spaces. *)
Lemma matches_lt_count (word : str) :
  forall m, matches (word_sub_re word) m -> lt_count m = lt_count word.
Proof.
  induction word as [|c word IH]; intros m Hm; cbn [word_sub_re map] in Hm.
  - now inversion Hm.
  - destruct (Ascii.eqb_spec c space) as [->|Hc];
      inversion Hm as [|? ? m0 Hm0|run ? m0 Hrun Hm0]; subst.
    + rewrite lt_count_app, (lt_count_gap Hrun), (IH _ Hm0). reflexivity.
    + change (c :: m0) with ([c] ++ m0). change (c :: word) with ([c] ++ word).
      now rewrite !lt_count_app, (IH _ Hm0).
Qed.

Lemma marker_lt_count (word : str) :
  lt_count (marker word) = lt_count word + 2.
Proof.
  unfold marker. rewrite !lt_count_app.
  change (lt_count span_open) with 1. change (lt_count span_close) with 1.
  lia.
Qed.

(** Each substitution adds the two [<] of a marker. *)
Lemma substituted_lt_count (word : str) (must_advance : bool) (s out : str)
  (n : nat) :
  substituted (word_sub_re word) (marker word) must_advance s out n ->
  lt_count out = lt_count s + 2 * n.
Proof.
  induction 1 as [| ? c s out n _ _ IH | ? m rest out n Hm _ _ IH
                 | s out n Hm _ _ IH].
  - reflexivity.
  - change (c :: out) with ([c] ++ out). change (c :: s) with ([c] ++ s).
    rewrite !lt_count_app, IH. lia.
  - rewrite !lt_count_app, marker_lt_count, IH, (matches_lt_count _ Hm). lia.
  - rewrite lt_count_app, marker_lt_count, IH.
    rewrite <- (matches_lt_count _ Hm). cbn. lia.
Qed.

(** The pattern of a word matches the word. *)
Lemma word_matches_itself (word : str) : matches (word_sub_re word) word.
Proof.
  induction word as [|c word IH]; cbn [word_sub_re map]; [constructor|].
  destruct (Ascii.eqb_spec c space) as [->|_].
  - apply (matches_gap (run := [space])); [|exact IH].
    constructor; [reflexivity|constructor].
  - now constructor.
Qed.

(** The result of one row of the loop: the row is left as it is and so is
    the document, or the word is wrapped at least once. *)
Lemma highlight_row_result (doc : str) (row : Match) (updated : str)
  (item : report_item) :
  highlight_row doc row = Ok (updated, item) ->
  (item = Row row false /\ updated = doc)
  \/ (item = Row row true
      /\ too_noisy (matched_word row) = false
      /\ backslash_free (matched_word row) = true
      /\ contains updated (matched_word row)
      /\ lt_count doc < lt_count updated).
Proof.
  unfold highlight_row.
  destruct (too_noisy (matched_word row)) eqn:Hnoisy.
  - intros [= <- <-]. now left.
  - destruct (backslash_free (matched_word row)) eqn:Hfree;
      [|unfold highlight_word; rewrite Hfree; discriminate].
    destruct (highlight_word_substituted (matched_word row) doc Hfree)
      as [out [n [Hrun Hsub]]].
    rewrite Hrun. cbn [bind fst snd].
    destruct (n =? 0)%nat eqn:Hn; intros [= <- <-].
    + left. split; [reflexivity|].
      apply Nat.eqb_eq in Hn. now apply (substituted_none Hsub).
    + right. apply Nat.eqb_neq in Hn. repeat split.
      * destruct (substituted_contains Hsub) as [front [back ->]]; [lia|].
        exists (front ++ span_open), (span_close ++ back).
        unfold marker. now rewrite <- !app_assoc.
      * rewrite (substituted_lt_count Hsub). lia.
Qed.

(** A word that is in the document is wrapped. *)
Lemma highlight_row_finds (doc : str) (row : Match) :
  too_noisy (matched_word row) = false ->
  backslash_free (matched_word row) = true ->
  contains doc (matched_word row) ->
  exists updated, highlight_row doc row = Ok (updated, Row row true).
Proof.
  intros Hnoisy Hfree [front [back Hdoc]].
  destruct (highlight_word_substituted (matched_word row) doc Hfree)
    as [out [n [Hrun Hsub]]].
  assert (Hn : 1 <= n).
  { apply (substituted_finds Hsub eq_refl)
      with (front := front) (mid := matched_word row) (back := back);
      [exact Hdoc|apply word_matches_itself]. }
  exists out. unfold highlight_row. rewrite Hnoisy, Hrun. cbn [bind fst snd].
  destruct n; [lia|reflexivity].
Qed.

(** A row that one document lets through, every document does. *)
Lemma highlight_row_Ok (doc doc' : str) (row : Match) (r : str * report_item) :
  highlight_row doc row = Ok r ->
  exists r', highlight_row doc' row = Ok r'.
Proof.
  unfold highlight_row.
  destruct (too_noisy (matched_word row)); [intros _; eexists; reflexivity|].
  destruct (backslash_free (matched_word row)) eqn:Hfree;
    [|unfold highlight_word; rewrite Hfree; discriminate].
  intros _.
  destruct (highlight_word_substituted (matched_word row) doc' Hfree)
    as [out [n [-> _]]].
  cbn [bind fst snd]. destruct (n =? 0)%nat; eexists; reflexivity.
Qed.

Lemma highlighted_count_app (a b : list report_item) :
  highlighted_count (a ++ b) = highlighted_count a + highlighted_count b.
Proof. unfold highlighted_count. now rewrite filter_app, length_app. Qed.

Lemma highlighted_count_titles (idx n_issuer n_ticker : nat) :
  highlighted_count (titles idx n_issuer n_ticker) = 0.
Proof.
  unfold titles. destruct (_ && _); [|destruct (_ && _)]; reflexivity.
Qed.

Lemma highlighted_count_positive (report : list report_item) :
  0 < highlighted_count report <-> exists row, In (Row row true) report.
Proof.
  induction report as [|item report IH].
  - cbn. split; [lia|intros [row []]].
  - change (item :: report) with ([item] ++ report).
    rewrite highlighted_count_app. split.
    + intros H. destruct item as [name|row [|]].
      * cbn in H. apply IH in H as [row Hrow]. exists row. now right.
      * exists row. now left.
      * cbn in H. apply IH in H as [row' Hrow]. exists row'. now right.
    + intros [row [Hrow|Hrow]].
      * subst item. cbn. lia.
      * assert (0 < highlighted_count report) by (apply IH; now exists row).
        lia.
Qed.

Section Loop.
Variables n_issuer n_ticker : nat.

(** The loop only adds to the markers and to the highlighted rows, and
    without a highlighted row it leaves the document as it was. *)
Lemma highlight_loop_grows (rows : list Match) :
  forall idx doc table updated report,
    highlight_loop n_issuer n_ticker idx rows doc table = Ok (updated, report) ->
    lt_count doc <= lt_count updated
    /\ highlighted_count table <= highlighted_count report
    /\ (highlighted_count report = highlighted_count table -> updated = doc).
Proof.
  induction rows as [|row rows IH]; intros idx doc table updated report;
    cbn [highlight_loop].
  - intros [= <- <-]. auto.
  - destruct (highlight_row doc row) as [[doc' item]| | | |] eqn:Hrow;
      cbn [bind fst snd]; try discriminate.
    intros Hrun. destruct (IH _ _ _ _ _ Hrun) as [Hlt [Hcount Hsame]].
    rewrite !highlighted_count_app, highlighted_count_titles in Hcount, Hsame.
    destruct (highlight_row_result _ _ Hrow)
      as [[-> ->]|[-> [_ [_ [_ Hmore]]]]]; cbn in Hcount, Hsame.
    + repeat split; try lia. intros Heq. apply Hsame. lia.
    + repeat split; lia.
Qed.

(** The loop returns on every document when it returns on one. *)
Lemma highlight_loop_Ok (rows : list Match) :
  forall idx doc table r idx' doc' table',
    highlight_loop n_issuer n_ticker idx rows doc table = Ok r ->
    exists r', highlight_loop n_issuer n_ticker idx' rows doc' table' = Ok r'.
Proof.
  induction rows as [|row rows IH]; intros idx doc table r idx' doc' table';
    cbn [highlight_loop].
  - intros _. eexists. reflexivity.
  - destruct (highlight_row doc row) as [step| | | |] eqn:Hrow;
      cbn [bind]; try discriminate.
    destruct (@highlight_row_Ok doc doc' row step Hrow) as [step' ->].
    cbn [bind].
    apply IH.
Qed.

(** After the loop, the word of the last row it highlighted is in the
    document. *)
Lemma highlight_loop_last_word (rows : list Match) :
  forall idx doc table updated report,
    highlight_loop n_issuer n_ticker idx rows doc table = Ok (updated, report) ->
    highlighted_count table < highlighted_count report ->
    exists row,
      In row rows
      /\ too_noisy (matched_word row) = false
      /\ backslash_free (matched_word row) = true
      /\ contains updated (matched_word row).
Proof.
  induction rows as [|row rows IH]; intros idx doc table updated report;
    cbn [highlight_loop].
  - intros [= <- <-]. lia.
  - destruct (highlight_row doc row) as [[doc' item]| | | |] eqn:Hrow;
      cbn [bind fst snd]; try discriminate.
    intros Hrun Hmore.
    destruct (highlight_loop_grows _ _ _ _ Hrun) as [_ [Hcount Hsame]].
    destruct (Nat.eq_dec (highlighted_count report)
                (highlighted_count ((table ++ titles idx n_issuer n_ticker)
                                      ++ [item]))) as [Heq|Hne].
    + apply Hsame in Heq as Hdoc. subst updated.
      rewrite Heq, !highlighted_count_app, highlighted_count_titles in Hmore.
      destruct (highlight_row_result _ _ Hrow)
        as [[-> _]|[_ [Hnoisy [Hfree [Hin _]]]]]; [cbn in Hmore; lia|].
      exists row. repeat split; try assumption. now left.
    + destruct (IH _ _ _ _ _ Hrun) as [row' [Hin Hrest]]; [lia|].
      exists row'. split; [now right|exact Hrest].
Qed.

(** A loop that meets a word of its table in the document highlights a
    row. *)
Lemma highlight_loop_finds (rows : list Match) :
  forall idx doc table r0 idx0 doc0 table0,
    highlight_loop n_issuer n_ticker idx0 rows doc0 table0 = Ok r0 ->
    (exists row,
        In row rows
        /\ too_noisy (matched_word row) = false
        /\ backslash_free (matched_word row) = true
        /\ contains doc (matched_word row)) ->
    exists updated report,
      highlight_loop n_issuer n_ticker idx rows doc table = Ok (updated, report)
      /\ highlighted_count table < highlighted_count report
      /\ lt_count doc < lt_count updated.
Proof.
  induction rows as [|row rows IH];
    intros idx doc table r0 idx0 doc0 table0 Hok [word_row [Hin Hword]];
    [contradiction|].
  cbn [highlight_loop] in *.
  destruct (highlight_row doc0 row) as [step0| | | |] eqn:Hrow0;
    cbn [bind] in Hok; try discriminate.
  destruct (@highlight_row_Ok doc0 doc row step0 Hrow0) as [[doc' item] Hrow].
  rewrite Hrow. cbn [bind fst snd].
  destruct (highlight_row_result _ _ Hrow)
    as [[-> ->]|[-> [_ [_ [_ Hmore]]]]].
  - destruct Hin as [<-|Hin].
    + destruct Hword as [Hnoisy [Hfree Hdoc]].
      destruct (highlight_row_finds _ Hnoisy Hfree Hdoc) as [out Hout].
      rewrite Hout in Hrow. discriminate.
    + edestruct IH
        with (idx := S idx) (doc := doc)
             (table := (table ++ titles idx n_issuer n_ticker)
                         ++ [Row row false])
        as [updated [report [Hrun [Hcount Hlt]]]];
        [exact Hok|now exists word_row|].
      exists updated, report. split; [exact Hrun|]. split; [|exact Hlt].
      rewrite !highlighted_count_app, highlighted_count_titles in Hcount.
      cbn in Hcount. lia.
  - edestruct highlight_loop_Ok
      with (idx' := S idx) (doc' := doc')
           (table' := (table ++ titles idx n_issuer n_ticker) ++ [Row row true])
      as [[updated report] Hrun]; [exact Hok|].
    exists updated, report. split; [exact Hrun|].
    destruct (highlight_loop_grows _ _ _ _ Hrun) as [Hlt [Hcount _]].
    rewrite !highlighted_count_app, highlighted_count_titles in Hcount.
    cbn in Hcount. split; lia.
Qed.

End Loop.

(** C4, as the code has it. The Highlighter runs again on its own output
    with the same matches. It makes no substitution then exactly when the
    first run highlighted no row: in that case the document is the original
    one and the second run repeats the first. When the first run
    highlighted a row, text inside a marker is found again: the second run
    highlights a row too and returns a different document, with more
    markers. *)
Theorem highlight_twice (body_HTML : str)
  (matches_df_issuer matches_df_ticker : list Match)
  (once : str) (report : list report_item) :
  highlight body_HTML matches_df_issuer matches_df_ticker = Ok (once, report) ->
  exists (twice : str) (report' : list report_item),
    highlight once matches_df_issuer matches_df_ticker = Ok (twice, report')
    /\ ((forall row, ~ In (Row row true) report) ->
        once = body_HTML /\ twice = once /\ report' = report)
    /\ ((exists row, In (Row row true) report) ->
        (exists row, In (Row row true) report')
        /\ lt_count once < lt_count twice
        /\ twice <> once).
Proof.
  intros Hrun. unfold highlight in *.
  edestruct highlight_loop_Ok
    with (idx' := 0) (doc' := once) (table' := @nil report_item)
    as [[twice report'] Hagain]; [exact Hrun|].
  exists twice, report'. split; [exact Hagain|]. split.
  - intros Hnone.
    assert (Hsame : once = body_HTML).
    { pose proof Hrun as Hgrows.
      apply highlight_loop_grows in Hgrows as [_ [_ Hgrows]]. apply Hgrows.
      destruct (highlighted_count report) eqn:Hcount; [reflexivity|].
      exfalso. destruct (proj1 (highlighted_count_positive report)) as [row Hrow];
        [lia|]. now apply (Hnone row). }
    subst once. rewrite Hrun in Hagain. now injection Hagain as <- <-.
  - intros Hsome. apply highlighted_count_positive in Hsome.
    pose proof Hrun as Hlast.
    apply highlight_loop_last_word in Hlast as [row Hrow]; [|exact Hsome].
    edestruct highlight_loop_finds
      with (idx := 0) (doc := once) (table := @nil report_item)
      as [twice' [report'' [Hagain' [Hcount Hlt]]]];
      [exact Hrun|now exists row|].
    rewrite Hagain in Hagain'. injection Hagain' as <- <-.
    split; [now apply highlighted_count_positive|].
    split; [exact Hlt|]. intros ->. lia.
Qed.

(** C4, as the spec has it, fails: the second run wraps the word of the
    first marker again. *)
Lemma highlight_idempotent_counterexample :
  ~ (forall (body_HTML : str) (matches_df_issuer matches_df_ticker : list Match)
       (once : str) (report : list report_item),
        highlight body_HTML matches_df_issuer matches_df_ticker
        = Ok (once, report) ->
        exists report',
          highlight once matches_df_issuer matches_df_ticker
          = Ok (once, report')).
Proof.
  intros H.
  destruct (H (lit "ab") [mkMatch (lit "ab") (lit "ab") 1%Q] []
              (marker (lit "ab"))
              [Title (lit "Issuer Names");
               Row (mkMatch (lit "ab") (lit "ab") 1%Q) true])
    as [report' Hagain]; [vm_compute; reflexivity|].
  vm_compute in Hagain. discriminate Hagain.
Qed.

Lemma highlight_twice_witness :
  let row := mkMatch (lit "ab") (lit "ab") 1%Q in
  highlight (lit "ab") [row] []
  = Ok (marker (lit "ab"), [Title (lit "Issuer Names"); Row row true])
  /\ exists twice report',
       highlight (marker (lit "ab")) [row] [] = Ok (twice, report')
       /\ twice = span_open ++ marker (lit "ab") ++ span_close
       /\ (exists row', In (Row row' true) report')
       /\ lt_count (marker (lit "ab")) < lt_count twice.
Proof.
  intros row.
  assert (Hrun :
    highlight (lit "ab") [row] []
    = Ok (marker (lit "ab"), [Title (lit "Issuer Names"); Row row true]))
    by (vm_compute; reflexivity).
  split; [exact Hrun|].
  destruct (@highlight_twice (lit "ab") [row] [] (marker (lit "ab"))
              [Title (lit "Issuer Names"); Row row true] Hrun)
    as [twice [report' [Hagain [_ Hsome]]]].
  destruct Hsome as [Hrow [Hlt _]];
    [exists row; right; left; reflexivity|].
  exists twice, report'. split; [exact Hagain|]. split; [|now split].
  vm_compute in Hagain. injection Hagain as <- _. reflexivity.
Defined.

(** * Further properties *)

(** ** More on the n-gram generator *)

(** X1. Outside its contract, with a window of zero or fewer tokens,
    [get_ngrams] does not raise: the inner loop never runs and the result
    holds [len(list_str) - ngrams_value + 1] empty strings. *)
Theorem get_ngrams_window_not_positive (list_str : list str) (ngrams_value : Z) :
  (ngrams_value <= 0)%Z ->
  get_ngrams list_str ngrams_value
  = Ok (repeat []
          (Z.to_nat (Z.of_nat (length list_str) - ngrams_value + 1))).
Proof.
  intros Hn. unfold get_ngrams.
  apply (@ngram_loop_empty list_str ngrams_value
           (Z.to_nat (Z.of_nat (length list_str) - ngrams_value + 1))
           Hn _ 0 []); lia.
Qed.

Lemma get_ngrams_window_not_positive_witness :
  get_ngrams [lit "Apple"; lit "Inc"] 0 = Ok [[]; []; []]
  /\ get_ngrams [lit "Apple"; lit "Inc"] (-1) = Ok [[]; []; []; []].
Proof.
  split.
  - apply (@get_ngrams_window_not_positive [lit "Apple"; lit "Inc"] 0). lia.
  - apply (@get_ngrams_window_not_positive [lit "Apple"; lit "Inc"] (-1)). lia.
Defined.

(** The windows of a list of tokens. *)
(** X2. On the tokens of a text, as [fuzzy_search] calls it, [get_ngrams]
    loses nothing: the window at position [i] is the tokens [i] to
    [i + n - 1] joined by single spaces, [split()] gives these tokens back,
    and so every window has exactly [n] words. *)
Theorem get_ngrams_split_round_trip (input_string : str) (n : nat)
  (windows : list str) (i : nat) (window : str) :
  1 <= n ->
  get_ngrams (split input_string) (Z.of_nat n) = Ok windows ->
  nth_error windows i = Some window ->
  window = join_space (firstn n (skipn i (split input_string)))
  /\ split window = firstn n (skipn i (split input_string))
  /\ word_count window = n
  /\ i + n <= length (split input_string).
Proof.
  intros Hn Hrun Hi.
  rewrite get_ngrams_windows in Hrun by lia. injection Hrun as <-.
  rewrite nth_error_map, nth_error_seq in Hi.
  destruct (Nat.ltb_spec i
              (Z.to_nat (Z.max 0 (Z.of_nat (length (split input_string))
                                  - Z.of_nat n + 1))))
    as [Hlt|Hge]; [|discriminate].
  cbn in Hi. injection Hi as <-.
  destruct (@window_text_tokens (split input_string) n i (split_tokens _))
    as [Hjoin Hsplit].
  split; [exact Hjoin|]. split; [exact Hsplit|]. split; [|lia].
  unfold word_count. rewrite Hsplit, length_firstn, length_skipn. lia.
Qed.

Lemma get_ngrams_split_round_trip_witness :
  get_ngrams (split (lit " Apple  Inc reported ")) 2
  = Ok [lit "Apple Inc"; lit "Inc reported"]
  /\ split (lit "Inc reported") = [lit "Inc"; lit "reported"]
  /\ word_count (lit "Inc reported") = 2.
Proof.
  assert (Hrun : get_ngrams (split (lit " Apple  Inc reported ")) (Z.of_nat 2)
                 = Ok [lit "Apple Inc"; lit "Inc reported"])
    by (vm_compute; reflexivity).
  split; [exact Hrun|].
  destruct (@get_ngrams_split_round_trip (lit " Apple  Inc reported ") 2
              [lit "Apple Inc"; lit "Inc reported"] 1 (lit "Inc reported"))
    as [_ [Hsplit [Hcount _]]]; [lia|exact Hrun|reflexivity|].
  split; [|exact Hcount]. rewrite Hsplit. vm_compute. reflexivity.
Defined.

(** ** More on the match collector *)

Section CollectorFacts.
Variable sim : str -> str -> Q.
Variable tie_order : list Match -> list nat.
Variable threshold : Q.
Variable restricted_type : str.

(** A row of [fuzzy_search] pairs a restricted word of [n] words with a
    window of [n] tokens of the text. *)
Lemma fuzzy_search_window (input_string : str) (restricted_words : list str)
  (table : list Match) (row : Match) :
  snd (fuzzy_search sim tie_order input_string restricted_words threshold
         restricted_type) = Ok table ->
  In row table ->
  exists i,
    1 <= word_count (restricted_word row)
    /\ i + word_count (restricted_word row)
       <= length (split (replace_char newline space input_string))
    /\ In (restricted_word row) restricted_words
    /\ matched_word row
       = strip (trim_last
                  (join_space
                     (firstn (word_count (restricted_word row))
                        (skipn i
                           (split (replace_char newline space input_string))))))
    /\ score sim
         (trim_last
            (join_space
               (firstn (word_count (restricted_word row))
                  (skipn i
                     (split (replace_char newline space input_string))))))
         (restricted_word row) threshold restricted_type
       = Ok (similarity row).
Proof.
  intros Hrun Hrow.
  set (tokens := split (replace_char newline space input_string)).
  edestruct fuzzy_search_rows as [Hin [Habove [first [Hfirst Hall]]]];
    [exact Hrun|exact Hrow|].
  fold tokens in Hall.
  apply collect_all_In in Hall as [k [Hk Hpair]].
  apply all_pairs_In in Hpair as [input [res [Hinput [Hres [_ [_ ->]]]]]].
  apply in_map_iff in Hinput as [i [<- Hi]]. apply in_seq in Hi.
  apply filter_In in Hres as [Hres Hcount]. apply Nat.eqb_eq in Hcount.
  unfold above in Habove.
  cbn [restricted_word matched_word similarity] in *. rewrite Hcount.
  destruct (@window_text_tokens tokens k i (split_tokens _)) as [Hwindow _].
  rewrite Hwindow in *.
  exists i. split; [lia|]. split; [lia|]. split; [|split; [reflexivity|]].
  - eapply Permutation_in; [apply sort_desc_perm|exact Hres].
  - edestruct score_in_range as [r [Hscore [_ Hval]]]; [exact Hin|].
    rewrite Hscore. f_equal. apply Hval. exact Habove.
Qed.

End CollectorFacts.

(** X3. Every row of the table of [fuzzy_search] pairs a restricted word of
    [n >= 1] words with a window of exactly [n] consecutive tokens of the
    text: the matched word is that window, joined by single spaces, after
    the trim of its last character and [strip()], and the similarity is
    the score of the window against the restricted word. *)
Theorem fuzzy_search_row_is_window (sim : str -> str -> Q)
  (tie_order : list Match -> list nat) (input_string : str)
  (restricted_words : list str) (threshold : Q) (restricted_type : str)
  (table : list Match) (row : Match) :
  snd (fuzzy_search sim tie_order input_string restricted_words threshold
         restricted_type) = Ok table ->
  In row table ->
  let tokens := split (replace_char newline space input_string) in
  let n := word_count (restricted_word row) in
  exists i window,
    window = join_space (firstn n (skipn i tokens))
    /\ 1 <= n /\ i + n <= length tokens
    /\ word_count window = n
    /\ In (restricted_word row) restricted_words
    /\ matched_word row = strip (trim_last window)
    /\ score sim (trim_last window) (restricted_word row) threshold
         restricted_type
       = Ok (similarity row).
Proof.
  intros Hrun Hrow tokens n.
  destruct (@fuzzy_search_window sim tie_order threshold restricted_type
              input_string restricted_words table row Hrun Hrow)
    as [i [Hn [Hi [Hres [Hword Hsim]]]]].
  exists i, (join_space (firstn n (skipn i tokens))).
  split; [reflexivity|]. split; [exact Hn|]. split; [exact Hi|].
  split; [|auto].
  unfold word_count at 1.
  rewrite split_join by apply Forall_firstn_skipn, split_tokens.
  rewrite length_firstn, length_skipn. fold tokens in Hi. fold n in Hi. lia.
Qed.

Lemma fuzzy_search_row_is_window_witness :
  let row := mkMatch (lit "Apple Inc") (lit "Apple Inc") 1 in
  snd (fuzzy_search indel_similarity keep_order
         (lit "today Apple Inc, reported")
         [lit "Apple Inc"] (85 # 100) (lit "issuer")) = Ok [row]
  /\ exists i window,
       window = join_space
                  (firstn 2 (skipn i (split (lit "today Apple Inc, reported"))))
       /\ matched_word row = strip (trim_last window).
Proof.
  intros row.
  assert (Hrun :
    snd (fuzzy_search indel_similarity keep_order
           (lit "today Apple Inc, reported")
           [lit "Apple Inc"] (85 # 100) (lit "issuer")) = Ok [row])
    by (vm_compute; reflexivity).
  split; [exact Hrun|].
  destruct (@fuzzy_search_row_is_window indel_similarity keep_order
              (lit "today Apple Inc, reported") [lit "Apple Inc"] (85 # 100)
              (lit "issuer") [row] row Hrun (or_introl eq_refl))
    as [i [window [Hwindow [_ [_ [_ [_ [Hword _]]]]]]]].
  exists i, window. split; [exact Hwindow|exact Hword].
Defined.

(** X4. A text with fewer tokens than a restricted word has words cannot
    match it: when every word of the list is blank or longer than the
    text, and in particular when the text has no token, [fuzzy_search]
    returns the empty table and does not raise, whatever the threshold
    is: no pair is scored. *)
Theorem fuzzy_search_short_text (sim : str -> str -> Q)
  (tie_order : list Match -> list nat) (input_string : str)
  (restricted_words : list str) (threshold : Q) (restricted_type : str) :
  restricted_words <> [] ->
  (forall w,
      In w restricted_words ->
      word_count w = 0
      \/ length (split (replace_char newline space input_string))
         < word_count w) ->
  snd (fuzzy_search sim tie_order input_string restricted_words threshold
         restricted_type) = Ok [].
Proof.
  intros Hne Hshort.
  destruct (sort_restricted_first Hne) as [first Hfirst].
  apply fuzzy_search_no_pairs with (first := first); [exact Hfirst|].
  now apply collect_all_short.
Qed.

Lemma fuzzy_search_short_text_witness :
  snd (fuzzy_search indel_similarity keep_order (lit "  ")
         [lit "Apple Inc"; lit "AAPL"] (85 # 100) (lit "issuer")) = Ok []
  /\ snd (fuzzy_search indel_similarity keep_order (lit "Apple")
            [lit "Apple Inc"; lit " "] (3 # 2) (lit "issuer")) = Ok [].
Proof.
  split.
  - apply fuzzy_search_short_text; [discriminate|].
    intros w [<-|[<-|[]]]; right; vm_compute; lia.
  - apply fuzzy_search_short_text; [discriminate|].
    intros w [<-|[<-|[]]]; [right|left]; vm_compute; lia.
Defined.

(** ** More on rank and dedup *)

Lemma sorted_by_similarity (df : list Match) :
  StronglySorted (may_precede by_similarity) df <->
  StronglySorted (fun x y => (similarity y <= similarity x)%Q) df.
Proof.
  split; intros H; induction H; constructor; auto;
    (eapply Forall_impl; [|eassumption]);
    intros y Hy; now apply by_similarity_le.
Qed.

Lemma rank_dedup_sorted (tie_order : list Match -> list nat)
  (df : list Match) :
  StronglySorted (may_precede by_similarity) (rank_dedup tie_order df).
Proof.
  unfold rank_dedup, drop_duplicates.
  do 2 apply drop_duplicates_sorted. apply sort_values_sorted.
Qed.

(** X5. The table [fuzzy_search] returns is in the order of the sort: no
    row has a greater similarity than a row above it. *)
Theorem fuzzy_search_sorted (sim : str -> str -> Q)
  (tie_order : list Match -> list nat) (input_string : str)
  (restricted_words : list str) (threshold : Q) (restricted_type : str)
  (table : list Match) :
  snd (fuzzy_search sim tie_order input_string restricted_words threshold
         restricted_type) = Ok table ->
  StronglySorted (fun x y => (similarity y <= similarity x)%Q) table
  /\ forall i j x y,
       i < j -> nth_error table i = Some x -> nth_error table j = Some y ->
       (similarity y <= similarity x)%Q.
Proof.
  intros Hrun.
  assert (Hsorted :
    StronglySorted (fun x y => (similarity y <= similarity x)%Q) table).
  { rewrite fuzzy_search_collected in Hrun.
    destruct (collected sim input_string restricted_words threshold
                restricted_type) as [df| | | |];
      cbn [bind] in Hrun; try discriminate.
    injection Hrun as <-. apply sorted_by_similarity, rank_dedup_sorted. }
  split; [exact Hsorted|]. clear Hrun.
  induction Hsorted as [|row table Hs IH Hall]; intros i j x y Hij Hx Hy.
  - destruct i; discriminate.
  - destruct j as [|j]; [lia|]. cbn in Hy. destruct i as [|i].
    + cbn in Hx. injection Hx as <-.
      apply (proj1 (Forall_forall _ _) Hall). eapply nth_error_In. exact Hy.
    + cbn in Hx. apply (IH i j); [lia|assumption|assumption].
Qed.

Lemma fuzzy_search_sorted_witness :
  snd (fuzzy_search indel_similarity keep_order (lit "Appel Inc")
         [lit "Apple"; lit "Inc"] (1 # 2) (lit "issuer"))
  = Ok [mkMatch (lit "Inc") (lit "Inc") 1;
        mkMatch (lit "Appel") (lit "Apple") (4 # 5)]
  /\ (4 # 5 <= 1)%Q.
Proof.
  assert (Hrun :
    snd (fuzzy_search indel_similarity keep_order (lit "Appel Inc")
           [lit "Apple"; lit "Inc"] (1 # 2) (lit "issuer"))
    = Ok [mkMatch (lit "Inc") (lit "Inc") 1;
          mkMatch (lit "Appel") (lit "Apple") (4 # 5)])
    by (vm_compute; reflexivity).
  split; [exact Hrun|].
  apply (proj2 (@fuzzy_search_sorted indel_similarity keep_order
                  (lit "Appel Inc") [lit "Apple"; lit "Inc"] (1 # 2)
                  (lit "issuer") _ Hrun)
           0 1 (mkMatch (lit "Inc") (lit "Inc") 1)
           (mkMatch (lit "Appel") (lit "Apple") (4 # 5)));
    [lia|reflexivity|reflexivity].
Defined.

(** A frame without duplicates in a column is not changed by
    [drop_duplicates] on that column. *)
Lemma drop_duplicates_fixed (key : Match -> str) (df : list Match) :
  forall seen,
    NoDup (map key df) ->
    (forall row, In row df -> ~ In (key row) seen) ->
    drop_duplicates_from key seen df = df.
Proof.
  induction df as [|row df IH]; intros seen Hnodup Hseen; [reflexivity|].
  cbn [drop_duplicates_from]. inversion Hnodup as [|? ? Hnot Hrest]; subst.
  rewrite (proj2 (seen_not_In (key row) seen)) by (apply Hseen; now left).
  f_equal. apply IH; [exact Hrest|].
  intros other Hother [Heq|Hin].
  - apply Hnot. rewrite Heq. now apply in_map.
  - apply (Hseen other); [now right|exact Hin].
Qed.

(** X6. A table that went through [sort_values] and the two
    [drop_duplicates] loses no row when it goes through them again, with
    the same sort or another: the two passes find no duplicate, so the
    table is only sorted again and holds the same rows. It is the same
    table when no two of its rows have the same similarity, or when the
    second sort keeps rows of equal similarity in their order. *)
Theorem rank_dedup_again (tie_order tie_order' : list Match -> list nat)
  (matches_df : list Match) :
  let table := rank_dedup tie_order matches_df in
  rank_dedup tie_order' table = sort_values tie_order' table
  /\ Permutation (rank_dedup tie_order' table) table
  /\ length (rank_dedup tie_order' table) = length table
  /\ (no_ties table \/ (forall df, tie_order' df = []) ->
      rank_dedup tie_order' table = table).
Proof.
  intros table.
  assert (Hmatched : NoDup (map matched_word table)).
  { unfold table, rank_dedup, drop_duplicates.
    apply drop_duplicates_NoDup_other, drop_duplicates_NoDup. }
  assert (Hrestricted : NoDup (map restricted_word table))
    by apply drop_duplicates_NoDup.
  pose proof (sort_values_perm tie_order' table) as Hperm.
  assert (Hsort : rank_dedup tie_order' table = sort_values tie_order' table).
  { unfold rank_dedup at 1. unfold drop_duplicates.
    rewrite (@drop_duplicates_fixed matched_word
               (sort_values tie_order' table) []).
    - apply drop_duplicates_fixed; [|intros row _ []].
      eapply Permutation_NoDup; [|exact Hrestricted].
      apply Permutation_map, Permutation_sym, Hperm.
    - eapply Permutation_NoDup; [|exact Hmatched].
      apply Permutation_map, Permutation_sym, Hperm.
    - intros row _ []. }
  rewrite Hsort. split; [reflexivity|]. split; [exact Hperm|].
  split; [now apply Permutation_length|].
  assert (Hfixed : sort_desc by_similarity table = table)
    by apply sort_desc_fixed, rank_dedup_sorted.
  intros [Hties|Hstable].
  - now rewrite sort_values_no_ties.
  - unfold sort_values. now rewrite Hstable.
Qed.

(** X7. The best match is always reported: when the collected table is
    not empty, the first row of the ranked table is a collected row whose
    similarity no collected row exceeds. *)
Theorem rank_dedup_best_first (tie_order : list Match -> list nat)
  (matches_df : list Match) :
  matches_df <> [] ->
  exists best rest,
    rank_dedup tie_order matches_df = best :: rest
    /\ In best matches_df
    /\ forall other,
         In other matches_df -> (similarity other <= similarity best)%Q.
Proof.
  intros Hne.
  pose proof (sort_values_perm tie_order matches_df) as Hperm.
  pose proof (sort_values_sorted tie_order matches_df) as Hsorted.
  destruct (sort_values tie_order matches_df) as [|best sorted] eqn:Hsort.
  - apply Permutation_nil in Hperm. congruence.
  - unfold rank_dedup, drop_duplicates. rewrite Hsort.
    cbn [drop_duplicates_from existsb].
    eexists best, _. split; [reflexivity|]. split.
    + eapply Permutation_in; [exact Hperm|now left].
    + intros other Hother.
      apply Permutation_sym in Hperm.
      apply (Permutation_in _ Hperm) in Hother as [<-|Hother];
        [apply Qle_refl|].
      inversion Hsorted as [|? ? _ Hall]; subst.
      apply by_similarity_le.
      now apply (proj1 (Forall_forall _ _) Hall).
Qed.

Lemma rank_dedup_best_first_witness :
  exists best rest,
    rank_dedup (fun _ => [0])
      [mkMatch (lit "Appel") (lit "Apple") (4 # 5);
       mkMatch (lit "Inc") (lit "Inc") 1;
       mkMatch (lit "Appel") (lit "Appl") (8 # 9)]
    = best :: rest
    /\ best = mkMatch (lit "Inc") (lit "Inc") 1.
Proof.
  destruct (@rank_dedup_best_first (fun _ => [0])
              [mkMatch (lit "Appel") (lit "Apple") (4 # 5);
               mkMatch (lit "Inc") (lit "Inc") 1;
               mkMatch (lit "Appel") (lit "Appl") (8 # 9)])
    as [best [rest [Hrun _]]]; [discriminate|].
  exists best, rest. split; [exact Hrun|].
  vm_compute in Hrun. now injection Hrun as <- _.
Defined.

(** X8. The in-place sort does not change what a later call finds: a call
    with the list as an earlier call left it returns the table that a call
    with the original list returns, and leaves the list as it is. *)
Theorem fuzzy_search_sorted_list_again (sim sim' : str -> str -> Q)
  (tie_order tie_order' : list Match -> list nat)
  (input_string input_string' : str) (restricted_words : list str)
  (threshold threshold' : Q) (restricted_type restricted_type' : str) :
  let left_by_first_call :=
    fst (fuzzy_search sim' tie_order' input_string' restricted_words
           threshold' restricted_type') in
  fuzzy_search sim tie_order input_string left_by_first_call threshold
    restricted_type
  = (left_by_first_call,
     snd (fuzzy_search sim tie_order input_string restricted_words threshold
            restricted_type)).
Proof.
  assert (Hfixed :
    sort_restricted (sort_restricted restricted_words)
    = sort_restricted restricted_words).
  { apply sort_desc_fixed, sort_desc_sorted;
      [exact by_word_count_trans|exact by_word_count_total]. }
  unfold fuzzy_search. cbn [fst snd]. rewrite Hfixed. reflexivity.
Qed.

(** ** The shape of a matched word *)

Lemma lstrip_suffix (s : str) :
  exists front, s = front ++ lstrip s.
Proof.
  induction s as [|c s [front IH]]; [now exists []|].
  cbn. destruct (is_space c); [|now exists []].
  exists (c :: front). cbn. now rewrite <- IH.
Qed.

Lemma lstrip_head (s : str) (c : ascii) (rest : str) :
  lstrip s = c :: rest -> is_space c = false.
Proof.
  induction s as [|x s IH]; cbn; [discriminate|].
  destruct (is_space x) eqn:Hx; [exact IH|]. now intros [= <- _].
Qed.

Lemma lstrip_fixed (s : str) : lstrip (lstrip s) = lstrip s.
Proof.
  destruct (lstrip s) as [|c rest] eqn:E; [reflexivity|].
  cbn. now rewrite (lstrip_head _ E).
Qed.

Lemma strip_chars (s : str) (c : ascii) : In c (strip s) -> In c s.
Proof.
  unfold strip, rstrip. intros H. apply in_rev in H.
  destruct (lstrip_suffix (rev (lstrip s))) as [front Hfront].
  assert (Hin : In c (rev (lstrip s)))
    by (rewrite Hfront; apply in_or_app; now right).
  apply in_rev in Hin.
  destruct (lstrip_suffix s) as [front' Hfront'].
  rewrite Hfront'. apply in_or_app. now right.
Qed.

(** [strip()] leaves nothing to strip. *)
Lemma strip_fixed (s : str) : strip (strip s) = strip s.
Proof.
  unfold strip, rstrip.
  set (a := lstrip s). set (b := lstrip (rev a)).
  assert (Hhead : lstrip (rev b) = rev b).
  { destruct (lstrip_suffix (rev a)) as [front Hfront]. fold b in Hfront.
    apply (f_equal (@rev ascii)) in Hfront.
    rewrite rev_involutive, rev_app_distr in Hfront.
    destruct (rev b) as [|c rest] eqn:E; [reflexivity|].
    cbn in Hfront. unfold a in Hfront.
    cbn. now rewrite (lstrip_head _ Hfront). }
  rewrite Hhead, rev_involutive. unfold b. now rewrite lstrip_fixed.
Qed.

Lemma trim_last_chars (s : str) (c : ascii) : In c (trim_last s) -> In c s.
Proof.
  destruct s as [|x s'] using rev_ind; [now cbn|].
  rewrite trim_last_snoc. destruct (strip_pattern x); [|auto].
  intros H. apply in_or_app. now left.
Qed.

Lemma join_space_chars (ws : list str) (c : ascii) :
  In c (join_space ws) -> c = space \/ exists w, In w ws /\ In c w.
Proof.
  induction ws as [|w ws IH]; [contradiction|].
  destruct ws as [|w' ws].
  - cbn. intros H. right. exists w. auto.
  - change (join_space (w :: w' :: ws))
      with (w ++ space :: join_space (w' :: ws)).
    intros H. apply in_app_or in H as [H|[H|H]].
    + right. exists w. split; [now left|exact H].
    + now left.
    + destruct (IH H) as [Hs|[x [Hx Hc]]]; [now left|].
      right. exists x. split; [now right|exact Hc].
Qed.

Lemma token_char (w : str) (c : ascii) :
  token w -> In c w -> is_space c = false.
Proof.
  intros [_ Hall] Hc. apply negb_true_iff.
  now apply (proj1 (forallb_forall _ _) Hall).
Qed.

Lemma replace_char_chars (a b : ascii) (s : str) (c : ascii) :
  In c (replace_char a b s) -> c = b \/ In c s.
Proof.
  unfold replace_char. rewrite in_map_iff. intros [x [Hx Hin]].
  destruct (Ascii.eqb x a); [now left|]. right. now subst.
Qed.

Lemma matched_word_chars (sim : str -> str -> Q)
  (tie_order : list Match -> list nat) (input_string : str)
  (restricted_words : list str) (threshold : Q) (restricted_type : str)
  (table : list Match) (row : Match) (c : ascii) :
  snd (fuzzy_search sim tie_order input_string restricted_words threshold
         restricted_type) = Ok table ->
  In row table ->
  In c (matched_word row) ->
  c = space \/ (In c input_string /\ is_space c = false).
Proof.
  intros Hrun Hrow Hc.
  destruct (@fuzzy_search_window sim tie_order threshold restricted_type input_string
              restricted_words table row Hrun Hrow)
    as [i [_ [_ [_ [Hword _]]]]].
  rewrite Hword in Hc.
  apply strip_chars, trim_last_chars, join_space_chars in Hc
    as [Hc|[w [Hw Hc]]]; [now left|].
  apply In_firstn_skipn in Hw.
  assert (Htoken : token w).
  { pose proof (split_tokens (replace_char newline space input_string))
      as Hall.
    rewrite Forall_forall in Hall. now apply Hall. }
  assert (Hspace : is_space c = false)
    by (eapply token_char; eassumption).
  eapply split_chars in Hc; [|exact Hw].
  apply replace_char_chars in Hc as [->|Hc]; [discriminate Hspace|].
  right. now split.
Qed.

Lemma matched_word_backslash_free (sim : str -> str -> Q)
  (tie_order : list Match -> list nat) (input_string : str)
  (restricted_words : list str) (threshold : Q) (restricted_type : str)
  (table : list Match) (row : Match) :
  snd (fuzzy_search sim tie_order input_string restricted_words threshold
         restricted_type) = Ok table ->
  In row table ->
  (forall c, In c input_string -> c <> backslash) ->
  backslash_free (matched_word row) = true.
Proof.
  intros Hrun Hrow Hfree. apply forallb_forall. intros c Hc.
  apply negb_true_iff, Ascii.eqb_neq.
  edestruct matched_word_chars as [->|[Hin _]];
    [exact Hrun|exact Hrow|exact Hc|discriminate|now apply Hfree].
Qed.

(** X9. A matched word of the table of [fuzzy_search] is made of
    characters of the text that are not white space and of spaces; it has
    no white space at its ends; and it has no backslash when the text has
    none. *)
Theorem matched_word_shape (sim : str -> str -> Q)
  (tie_order : list Match -> list nat) (input_string : str)
  (restricted_words : list str) (threshold : Q) (restricted_type : str)
  (table : list Match) (row : Match) :
  snd (fuzzy_search sim tie_order input_string restricted_words threshold
         restricted_type) = Ok table ->
  In row table ->
  (forall c,
      In c (matched_word row) ->
      c = space \/ (In c input_string /\ is_space c = false))
  /\ strip (matched_word row) = matched_word row
  /\ (backslash_free input_string = true ->
      backslash_free (matched_word row) = true).
Proof.
  intros Hrun Hrow.
  destruct (@fuzzy_search_window sim tie_order threshold restricted_type input_string
              restricted_words table row Hrun Hrow)
    as [i [_ [_ [_ [Hword _]]]]].
  assert (Hchars : forall c,
    In c (matched_word row) ->
    c = space \/ (In c input_string /\ is_space c = false))
    by (intros c Hc; eapply matched_word_chars; eassumption).
  split; [exact Hchars|]. split; [rewrite Hword; apply strip_fixed|].
  intros Hfree. apply forallb_forall. intros c Hc.
  destruct (Hchars c Hc) as [->|[Hin _]]; [reflexivity|].
  now apply (proj1 (forallb_forall _ _) Hfree).
Qed.

Lemma matched_word_shape_witness :
  let row := mkMatch (lit "Apple Inc") (lit "Apple Inc") 1 in
  snd (fuzzy_search indel_similarity keep_order (lit "today Apple
Inc, reported") [lit "Apple Inc"] (85 # 100) (lit "issuer")) = Ok [row]
  /\ strip (matched_word row) = matched_word row
  /\ backslash_free (matched_word row) = true.
Proof.
  intros row.
  assert (Hrun :
    snd (fuzzy_search indel_similarity keep_order (lit "today Apple
Inc, reported") [lit "Apple Inc"] (85 # 100) (lit "issuer")) = Ok [row])
    by (vm_compute; reflexivity).
  split; [exact Hrun|].
  destruct (@matched_word_shape indel_similarity keep_order (lit "today Apple
Inc, reported") [lit "Apple Inc"] (85 # 100) (lit "issuer") [row] row Hrun
              (or_introl eq_refl)) as [_ [Hstrip Hfree]].
  split; [exact Hstrip|]. apply Hfree. vm_compute. reflexivity.
Defined.

(** ** More on the Highlighter *)

(** A substitution was made only where the pattern matches. *)
Lemma substituted_found (pat : list re_item) (repl : str) (must_advance : bool)
  (s out : str) (n : nat) :
  substituted pat repl must_advance s out n ->
  1 <= n ->
  exists front mid back, s = front ++ mid ++ back /\ matches pat mid.
Proof.
  induction 1 as [| ? c s out n _ _ IH | ? m rest out n Hm _ _ _
                 | s out n Hm _ _ _]; intros Hn; [lia| | |].
  - destruct (IH Hn) as [front [mid [back [-> Hmid]]]].
    now exists (c :: front), mid, back.
  - now exists [], m, rest.
  - now exists [], [], s.
Qed.

(** X10. A match that passes the filter of line 261 is highlighted exactly
    when the pattern of its word matches somewhere in the document; this is
    so whenever the word itself is in the document. A row that is not
    highlighted leaves the document as it was. *)
Theorem highlighted_iff_pattern_occurs (updated_body_HTML : str) (row : Match) :
  too_noisy (matched_word row) = false ->
  backslash_free (matched_word row) = true ->
  exists (updated : str) (highlighted : bool),
    highlight_row updated_body_HTML row = Ok (updated, Row row highlighted)
    /\ (highlighted = true <->
        exists front mid back,
          updated_body_HTML = front ++ mid ++ back
          /\ matches (word_sub_re (matched_word row)) mid)
    /\ (contains updated_body_HTML (matched_word row) -> highlighted = true)
    /\ (highlighted = false -> updated = updated_body_HTML).
Proof.
  intros Hnoisy Hfree.
  destruct (highlight_word_substituted (matched_word row) updated_body_HTML
              Hfree) as [updated [n [Hrun Hsub]]].
  exists updated, (negb (n =? 0)%nat).
  assert (Hrow : highlight_row updated_body_HTML row
                 = Ok (updated, Row row (negb (n =? 0)%nat))).
  { unfold highlight_row. rewrite Hnoisy, Hrun. cbn [bind fst snd].
    now destruct (n =? 0)%nat. }
  assert (Hiff : negb (n =? 0)%nat = true <->
                 exists front mid back,
                   updated_body_HTML = front ++ mid ++ back
                   /\ matches (word_sub_re (matched_word row)) mid).
  { rewrite negb_true_iff, Nat.eqb_neq. split.
    - intros Hn. apply (substituted_found Hsub). lia.
    - intros [front [mid [back [Hdoc Hmid]]]].
      assert (1 <= n); [|lia].
      apply (substituted_finds Hsub eq_refl)
        with (front := front) (mid := mid) (back := back); assumption. }
  split; [exact Hrow|]. split; [exact Hiff|]. split.
  - intros [front [back Hdoc]]. apply Hiff.
    exists front, (matched_word row), back.
    split; [exact Hdoc|apply word_matches_itself].
  - rewrite negb_false_iff, Nat.eqb_eq. intros Hn.
    now apply (substituted_none Hsub).
Qed.

Lemma highlighted_iff_pattern_occurs_witness :
  let row := mkMatch (lit "Apple Inc") (lit "Apple Inc") 1 in
  highlight_row (lit "<p>Apple
Inc</p>") row
  = Ok (lit "<p>" ++ marker (lit "Apple Inc") ++ lit "</p>", Row row true)
  /\ highlight_row (lit "<p>Apple <b>Inc</b></p>") row
     = Ok (lit "<p>Apple <b>Inc</b></p>", Row row false).
Proof.
  intros row. split.
  - destruct (@highlighted_iff_pattern_occurs (lit "<p>Apple
Inc</p>") row eq_refl eq_refl) as [updated [highlighted [Hrun _]]].
    rewrite Hrun. vm_compute in Hrun. injection Hrun as <- <-.
    vm_compute. reflexivity.
  - destruct (@highlighted_iff_pattern_occurs (lit "<p>Apple <b>Inc</b></p>")
                row eq_refl eq_refl) as [updated [highlighted [Hrun _]]].
    rewrite Hrun. vm_compute in Hrun. injection Hrun as <- <-.
    vm_compute. reflexivity.
Defined.

Section ReportLayout.
Variables n_issuer n_ticker : nat.

(** The loop on two lists of rows is the loop on the first and then on the
    second. *)
Lemma highlight_loop_app (front back : list Match) :
  forall idx doc table,
    highlight_loop n_issuer n_ticker idx (front ++ back) doc table
    = r <- highlight_loop n_issuer n_ticker idx front doc table ;;
      highlight_loop n_issuer n_ticker (idx + length front) back
        (fst r) (snd r).
Proof.
  induction front as [|row front IH]; intros idx doc table.
  - cbn. now rewrite Nat.add_0_r.
  - cbn [app highlight_loop length].
    destruct (highlight_row doc row) as [step| | | |]; cbn [bind];
      try reflexivity.
    rewrite IH. now replace (S idx + length front) with (idx + S (length front))
      by lia.
Qed.

(** Rows that get no title in front of them. *)
Lemma highlight_loop_plain (rows : list Match) :
  forall idx doc table updated report,
    (forall k, idx <= k < idx + length rows ->
               titles k n_issuer n_ticker = []) ->
    highlight_loop n_issuer n_ticker idx rows doc table = Ok (updated, report) ->
    exists flags,
      length flags = length rows
      /\ report
         = table ++ map (fun p => Row (fst p) (snd p)) (combine rows flags).
Proof.
  induction rows as [|row rows IH]; intros idx doc table updated report Hplain;
    cbn [highlight_loop].
  - intros [= <- <-]. exists []. cbn. now rewrite app_nil_r.
  - destruct (highlight_row doc row) as [[doc' item]| | | |] eqn:Hrow;
      cbn [bind fst snd]; try discriminate.
    rewrite Hplain by (cbn; lia). rewrite app_nil_r. intros Hrun.
    assert (Hrest : forall k, S idx <= k < S idx + length rows ->
                              titles k n_issuer n_ticker = [])
      by (intros k Hk; apply Hplain; cbn; lia).
    destruct (IH _ _ _ _ _ Hrest Hrun) as [flags [Hlen ->]].
    destruct (highlight_row_result _ _ Hrow) as [[-> _]|[-> _]].
    + exists (false :: flags). cbn. rewrite Hlen. split; [reflexivity|].
      now rewrite <- app_assoc.
    + exists (true :: flags). cbn. rewrite Hlen. split; [reflexivity|].
      now rewrite <- app_assoc.
Qed.

(** A first row and the title in front of it. *)
Lemma highlight_loop_titled (name : list report_item) (rows : list Match) :
  forall idx doc table updated report,
    rows <> [] ->
    titles idx n_issuer n_ticker = name ->
    (forall k, idx < k < idx + length rows ->
               titles k n_issuer n_ticker = []) ->
    highlight_loop n_issuer n_ticker idx rows doc table = Ok (updated, report) ->
    exists flags,
      length flags = length rows
      /\ report
         = table ++ name
             ++ map (fun p => Row (fst p) (snd p)) (combine rows flags).
Proof.
  intros idx doc table updated report Hne Hname Hplain.
  destruct rows as [|row rows]; [congruence|]. cbn [highlight_loop].
  destruct (highlight_row doc row) as [[doc' item]| | | |] eqn:Hrow;
    cbn [bind fst snd]; try discriminate.
  rewrite Hname. intros Hrun.
  apply highlight_loop_plain in Hrun as [flags [Hlen ->]];
    [|intros k Hk; apply Hplain; cbn; lia].
  destruct (highlight_row_result _ _ Hrow) as [[-> _]|[-> _]].
  - exists (false :: flags). cbn. rewrite Hlen. split; [reflexivity|].
    now rewrite <- !app_assoc.
  - exists (true :: flags). cbn. rewrite Hlen. split; [reflexivity|].
    now rewrite <- !app_assoc.
Qed.

End ReportLayout.

Lemma titles_issuer (n_issuer n_ticker : nat) :
  0 < n_issuer -> titles 0 n_issuer n_ticker = [Title (lit "Issuer Names")].
Proof.
  intros H. unfold titles. cbn [Nat.eqb andb].
  now rewrite (proj2 (Nat.ltb_lt 0 n_issuer) H).
Qed.

Lemma titles_ticker (n_issuer n_ticker : nat) :
  0 < n_ticker -> titles n_issuer n_issuer n_ticker = [Title (lit "Tickers")].
Proof.
  intros H. unfold titles.
  rewrite Nat.eqb_refl, (proj2 (Nat.ltb_lt 0 n_ticker) H).
  destruct n_issuer; [reflexivity|]. reflexivity.
Qed.

Lemma titles_none (k n_issuer n_ticker : nat) :
  k <> 0 -> k <> n_issuer -> titles k n_issuer n_ticker = [].
Proof.
  intros H0 Hn. unfold titles.
  now rewrite (proj2 (Nat.eqb_neq k 0) H0), (proj2 (Nat.eqb_neq k n_issuer) Hn).
Qed.

(** X11. The report of the Highlighter has one row for each match, in the
    order of the two tables, with its [highlighted] flag: the rows of the
    issuers under the title [Issuer Names], then the rows of the tickers
    under the title [Tickers]; a title is there exactly when its table is
    not empty. *)
Theorem report_layout (body_HTML : str)
  (matches_df_issuer matches_df_ticker : list Match)
  (updated : str) (report : list report_item) :
  highlight body_HTML matches_df_issuer matches_df_ticker
  = Ok (updated, report) ->
  exists flags_issuer flags_ticker,
    length flags_issuer = length matches_df_issuer
    /\ length flags_ticker = length matches_df_ticker
    /\ report
       = match matches_df_issuer with
         | [] => []
         | _ => [Title (lit "Issuer Names")]
         end
         ++ map (fun p => Row (fst p) (snd p))
              (combine matches_df_issuer flags_issuer)
         ++ match matches_df_ticker with
            | [] => []
            | _ => [Title (lit "Tickers")]
            end
         ++ map (fun p => Row (fst p) (snd p))
              (combine matches_df_ticker flags_ticker).
Proof.
  unfold highlight. rewrite highlight_loop_app.
  destruct (highlight_loop (length matches_df_issuer)
              (length matches_df_ticker) 0 matches_df_issuer body_HTML [])
    as [[doc1 report1]| | | |] eqn:Hissuer; cbn [bind fst snd];
    try discriminate.
  intros Hticker. cbn [Nat.add] in Hticker.
  assert (Hfirst : exists flags_issuer,
    length flags_issuer = length matches_df_issuer
    /\ report1
       = match matches_df_issuer with
         | [] => []
         | _ => [Title (lit "Issuer Names")]
         end
         ++ map (fun p => Row (fst p) (snd p))
              (combine matches_df_issuer flags_issuer)).
  { destruct matches_df_issuer as [|row rows].
    - cbn in Hissuer. injection Hissuer as <- <-. now exists [].
    - apply highlight_loop_titled with (name := [Title (lit "Issuer Names")])
        in Hissuer as [flags [Hlen Hreport]].
      + exists flags. split; [exact Hlen|exact Hreport].
      + discriminate.
      + apply titles_issuer. cbn. lia.
      + intros k Hk. apply titles_none; lia. }
  destruct Hfirst as [flags_issuer [Hlen_issuer ->]].
  assert (Hsecond : exists flags_ticker,
    length flags_ticker = length matches_df_ticker
    /\ report
       = (match matches_df_issuer with
          | [] => []
          | _ => [Title (lit "Issuer Names")]
          end
          ++ map (fun p => Row (fst p) (snd p))
               (combine matches_df_issuer flags_issuer))
         ++ match matches_df_ticker with
            | [] => []
            | _ => [Title (lit "Tickers")]
            end
         ++ map (fun p => Row (fst p) (snd p))
              (combine matches_df_ticker flags_ticker)).
  { destruct matches_df_ticker as [|row rows].
    - cbn in Hticker. injection Hticker as <- <-. exists [].
      split; [reflexivity|]. cbn. now rewrite app_nil_r.
    - apply highlight_loop_titled with (name := [Title (lit "Tickers")])
        in Hticker as [flags [Hlen Hreport]].
      + exists flags. split; [exact Hlen|exact Hreport].
      + discriminate.
      + apply titles_ticker. cbn. lia.
      + intros k Hk. apply titles_none; lia. }
  destruct Hsecond as [flags_ticker [Hlen_ticker ->]].
  exists flags_issuer, flags_ticker.
  split; [exact Hlen_issuer|]. split; [exact Hlen_ticker|].
  now rewrite <- !app_assoc.
Qed.

Lemma report_layout_witness :
  let apple := mkMatch (lit "Apple Inc") (lit "Apple Inc") 1 in
  let noisy := mkMatch (lit "@!") (lit "@") (9 # 10) in
  exists updated report,
    highlight (lit "<p>Apple Inc @!</p>") [] [apple; noisy]
    = Ok (updated, report)
    /\ report = [Title (lit "Tickers"); Row apple true; Row noisy false].
Proof.
  intros apple noisy.
  assert (Hrun : exists updated report,
    highlight (lit "<p>Apple Inc @!</p>") [] [apple; noisy]
    = Ok (updated, report))
    by (vm_compute; eexists _, _; reflexivity).
  destruct Hrun as [updated [report Hrun]].
  exists updated, report. split; [exact Hrun|].
  destruct (@report_layout (lit "<p>Apple Inc @!</p>") [] [apple; noisy]
              updated report Hrun)
    as [flags_issuer [flags_ticker [_ [_ Hreport]]]].
  vm_compute in Hrun. injection Hrun as _ <-. reflexivity.
Defined.

(** ** The cleaner *)

Lemma remove_emails_from_chars (s : str) :
  forall skip c, In c (remove_emails_from skip s) -> In c s.
Proof.
  induction s as [|x s IH]; intros skip c; cbn [remove_emails_from];
    [contradiction|].
  destruct skip as [|k].
  - destruct (email_length (x :: s)) as [n|].
    + intros H. right. now apply (IH (pred n)).
    + intros [<-|H]; [now left|right; now apply (IH 0)].
  - intros H. right. now apply (IH k).
Qed.

Lemma replace_line_feeds_chars (s : str) (c : ascii) :
  In c (replace_line_feeds s) ->
  c <> backslash /\ c <> newline /\ c <> carriage_return
  /\ (c = space \/ In c s).
Proof.
  unfold replace_line_feeds. rewrite in_map_iff. intros [x [Hx Hin]].
  destruct (Ascii.eqb x newline || Ascii.eqb x carriage_return
            || Ascii.eqb x backslash) eqn:E.
  - subst c. repeat split; try discriminate. now left.
  - subst c. apply orb_false_iff in E as [E Hb].
    apply orb_false_iff in E as [Hn Hr].
    apply Ascii.eqb_neq in Hb, Hn, Hr. repeat split; try assumption.
    now right.
Qed.

Section CleanerFacts.
Variable stop_words : list str.
Variable remove_urls : str -> str.

(** A substitution by the empty string only leaves characters out. *)
Hypothesis remove_urls_chars :
  forall s c, In c (remove_urls s) -> In c s.

Lemma remove_urls_nil : remove_urls [] = [].
Proof.
  destruct (remove_urls []) as [|c s] eqn:E; [reflexivity|].
  exfalso. apply (remove_urls_chars [] c). rewrite E. now left.
Qed.

Lemma clean_input_chars (input_string : str) (char_list : list ascii)
  (c : ascii) :
  In c (clean_input stop_words remove_urls input_string char_list) ->
  In c char_list
  /\ c <> backslash
  /\ (is_space c = true -> c = space)
  /\ (c = space \/ In c input_string).
Proof.
  unfold clean_input. intros H.
  apply remove_urls_chars, filter_In in H as [H Hlist].
  apply remove_emails_from_chars, replace_line_feeds_chars in H
    as [Hb [Hn [Hr H]]].
  split.
  { apply existsb_exists in Hlist as [x [Hx Heq]].
    apply Ascii.eqb_eq in Heq. now subst. }
  split; [exact Hb|].
  destruct H as [->|H]; [split; [reflexivity|now left]|].
  apply join_space_chars in H as [->|[w [Hw Hc]]];
    [split; [reflexivity|now left]|].
  apply filter_In in Hw as [Hw _].
  assert (Htoken : token w).
  { pose proof (split_tokens input_string) as Hall.
    rewrite Forall_forall in Hall. now apply Hall. }
  split.
  - intros Hspace. rewrite (@token_char w c Htoken Hc) in Hspace.
    discriminate.
  - right. eapply split_chars; eassumption.
Qed.

End CleanerFacts.

(** X12. Whatever the stop words and the URL pattern are, the cleaned text
    holds only characters of [char_list]; it has no backslash, and no
    white space but spaces; and each of its characters is a space or a
    character of the input. *)
Theorem clean_input_alphabet (stop_words : list str) (remove_urls : str -> str)
  (input_string : str) (char_list : list ascii) (c : ascii) :
  (forall s x, In x (remove_urls s) -> In x s) ->
  In c (clean_input stop_words remove_urls input_string char_list) ->
  In c char_list
  /\ c <> backslash
  /\ (is_space c = true -> c = space)
  /\ (c = space \/ In c input_string).
Proof. intros Hurls. now apply clean_input_chars. Qed.

Lemma clean_input_alphabet_witness :
  clean_input [lit "and"; lit "the"] (fun s => s)
    (lit "The cat AND  the dog\x mail me@x.org now!")
    (list_ascii_of_string "cat dogmnw")
  = lit "cat dog  ma  now"
  /\ In "m"%char (list_ascii_of_string "cat dogmnw").
Proof.
  split; [vm_compute; reflexivity|].
  apply (@clean_input_alphabet [lit "and"; lit "the"] (fun s => s)
           (lit "The cat AND  the dog\x mail me@x.org now!")
           (list_ascii_of_string "cat dogmnw") "m"%char).
  - intros s x Hx. exact Hx.
  - vm_compute. tauto.
Defined.

(** X13. A text made of stop words only, in any case of letters, and so
    also an empty or blank text, is cleaned to the empty string. *)
Theorem clean_input_stop_words_only (stop_words : list str)
  (remove_urls : str -> str) (input_string : str) (char_list : list ascii) :
  (forall s x, In x (remove_urls s) -> In x s) ->
  (forall x, In x (split input_string) -> In (lower x) stop_words) ->
  clean_input stop_words remove_urls input_string char_list = [].
Proof.
  intros Hurls Hstop. unfold clean_input.
  assert (Hnone :
    filter (fun x => negb (existsb (str_eqb (lower x)) stop_words))
      (split input_string) = []).
  { induction (split input_string) as [|x l IH]; [reflexivity|]. cbn [filter].
    rewrite (proj2 (seen_In (lower x) stop_words)) by (apply Hstop; now left).
    cbn. apply IH. intros y Hy. apply Hstop. now right. }
  rewrite Hnone. cbn. now apply remove_urls_nil.
Qed.

Lemma clean_input_stop_words_only_witness :
  clean_input [lit "and"; lit "the"] (fun s => s) (lit " The AND
 the ") (list_ascii_of_string "abcdehnt ") = [].
Proof.
  apply clean_input_stop_words_only.
  - intros s x Hx. exact Hx.
  - intros x Hx. vm_compute in Hx.
    destruct Hx as [<-|[<-|[<-|[]]]]; vm_compute; tauto.
Defined.

Lemma get_list_of_chars_In (issuer_list ticker_list : list str) (c : ascii) :
  In c (get_list_of_chars issuer_list ticker_list) <->
  exists w, In w (issuer_list ++ ticker_list) /\ In c w.
Proof.
  unfold get_list_of_chars. rewrite nodup_In, in_app_iff, !in_concat.
  split.
  - intros [[w [Hw Hc]]|[w [Hw Hc]]]; exists w;
      (split; [apply in_or_app; auto|exact Hc]).
  - intros [w [Hw Hc]]. apply in_app_or in Hw as [Hw|Hw];
      [left|right]; now exists w.
Qed.

Lemma split_no_space (s : str) :
  forallb (fun c => negb (is_space c)) s = true ->
  length (split s) <= 1.
Proof.
  intros H. unfold split. rewrite <- (app_nil_r s).
  rewrite split_from_run, app_nil_r by exact H.
  cbn. destruct (rev s); cbn; lia.
Qed.

(** X14. With the character list of [get_list_of_chars], in either order of
    its arguments, every character of the cleaned text occurs in a
    restricted word. So when no restricted word has a space in it, the
    words of the text are run together: the cleaned text is one token at
    most. *)
Theorem clean_input_restricted_alphabet (stop_words : list str)
  (remove_urls : str -> str) (input_string : str)
  (issuer_list ticker_list : list str) :
  (forall s x, In x (remove_urls s) -> In x s) ->
  let cleaned :=
    clean_input stop_words remove_urls input_string
      (get_list_of_chars ticker_list issuer_list) in
  (forall c, In c cleaned ->
             exists w, In w (issuer_list ++ ticker_list) /\ In c w)
  /\ ((forall w, In w (issuer_list ++ ticker_list) -> ~ In space w) ->
      word_count cleaned <= 1).
Proof.
  intros Hurls cleaned.
  assert (Hchars : forall c, In c cleaned ->
                             exists w, In w (issuer_list ++ ticker_list) /\ In c w).
  { intros c Hc.
    apply (clean_input_chars stop_words remove_urls Hurls) in Hc as [Hc _].
    apply get_list_of_chars_In in Hc as [w [Hw Hc]].
    exists w. split; [|exact Hc].
    apply in_app_or in Hw. apply in_or_app. tauto. }
  split; [exact Hchars|].
  intros Hnospace. apply split_no_space, forallb_forall.
  intros c Hc. apply negb_true_iff.
  destruct (is_space c) eqn:Hspace; [|reflexivity]. exfalso.
  pose proof Hc as Hc'.
  apply (clean_input_chars stop_words remove_urls Hurls) in Hc'
    as [_ [_ [Hsp _]]].
  specialize (Hsp Hspace). subst c.
  destruct (Hchars _ Hc) as [w [Hw Hin]]. now apply (Hnospace w).
Qed.

Lemma clean_input_restricted_alphabet_witness :
  clean_input [] (fun s => s) (lit "buy AAPL and MSFT now")
    (get_list_of_chars [lit "AAPL"; lit "MSFT"] [lit "Tesla"])
  = lit "AAPLaMSFT"
  /\ word_count (lit "AAPLaMSFT") <= 1.
Proof.
  split; [vm_compute; reflexivity|].
  assert (Hrun :
    clean_input [] (fun s => s) (lit "buy AAPL and MSFT now")
      (get_list_of_chars [lit "AAPL"; lit "MSFT"] [lit "Tesla"])
    = lit "AAPLaMSFT") by (vm_compute; reflexivity).
  rewrite <- Hrun.
  apply (@clean_input_restricted_alphabet [] (fun s => s)
           (lit "buy AAPL and MSFT now") [lit "Tesla"]
           [lit "AAPL"; lit "MSFT"]).
  - intros s x Hx. exact Hx.
  - intros w Hw Hspace. vm_compute in Hw, Hspace.
    destruct Hw as [<-|[<-|[<-|[]]]]; vm_compute in Hspace;
      repeat (destruct Hspace as [Hspace|Hspace]; [discriminate Hspace|]);
      exact Hspace.
Defined.

(** ** The search and the Highlighter together *)

Lemma fuzzy_search_returns (sim : str -> str -> Q)
  (tie_order : list Match -> list nat) (input_string : str)
  (restricted_words : list str) (threshold : Q) (restricted_type : str) :
  restricted_words <> [] ->
  (0 <= threshold /\ threshold <= 1)%Q ->
  exists table,
    snd (fuzzy_search sim tie_order input_string restricted_words threshold
           restricted_type) = Ok table.
Proof.
  intros Hne Hrange. apply in_range_bounds in Hrange.
  destruct (sort_restricted_first Hne) as [first Hfirst].
  eexists. apply fuzzy_search_in_range with (first := first); assumption.
Qed.

(** [fuzzy_search] returns a table or raises one of the two exceptions. *)
Lemma fuzzy_search_ends (sim : str -> str -> Q)
  (tie_order : list Match -> list nat) (input_string : str)
  (restricted_words : list str) (threshold : Q) (restricted_type : str) :
  let outcome :=
    snd (fuzzy_search sim tie_order input_string restricted_words threshold
           restricted_type) in
  (exists table, outcome = Ok table)
  \/ outcome = IndexError \/ outcome = TypeError.
Proof.
  intros outcome. unfold outcome.
  destruct (index (sort_restricted restricted_words) 0) as [first|] eqn:Hfirst.
  - destruct (in_range threshold) eqn:Hin.
    + left. eexists.
      apply fuzzy_search_in_range with (first := first); assumption.
    + destruct (collect_all sim (word_count first)
                  (split (replace_char newline space input_string))
                  (sort_restricted restricted_words) restricted_type)
        as [|row rows] eqn:Hpairs.
      * left. exists [].
        apply fuzzy_search_no_pairs with (first := first); assumption.
      * right. right.
        apply fuzzy_search_out with (first := first); try assumption.
        rewrite Hpairs. discriminate.
  - right. left. unfold fuzzy_search. cbn [snd]. now rewrite Hfirst.
Qed.

Lemma highlight_row_total (doc : str) (row : Match) :
  backslash_free (matched_word row) = true ->
  exists r, highlight_row doc row = Ok r.
Proof.
  intros Hfree. unfold highlight_row.
  destruct (too_noisy (matched_word row)); [eexists; reflexivity|].
  destruct (highlight_word_substituted (matched_word row) doc Hfree)
    as [out [n [-> _]]].
  cbn [bind fst snd]. destruct (n =? 0)%nat; eexists; reflexivity.
Qed.

Lemma highlight_loop_total (n_issuer n_ticker : nat) (rows : list Match) :
  (forall row, In row rows -> backslash_free (matched_word row) = true) ->
  forall idx doc table,
  exists r, highlight_loop n_issuer n_ticker idx rows doc table = Ok r.
Proof.
  induction rows as [|row rows IH]; intros Hfree idx doc table;
    cbn [highlight_loop]; [eexists; reflexivity|].
  destruct (highlight_row_total doc row) as [step ->];
    [apply Hfree; now left|].
  cbn [bind]. apply IH. intros other Hother. apply Hfree. now right.
Qed.

(** X15. Lines 238-274 of [main] with thresholds from 0 to 1: they raise
    [IndexError] when the list of the issuers or the list of the tickers
    is empty, and return the document and the report otherwise. An empty
    list of issuers stops the run before the list of the tickers is
    sorted. With any thresholds the run returns or raises [IndexError] or
    [TypeError]: the cleaner leaves no backslash in the text, so no
    matched word has one and the replacement string of [re.subn] is
    always taken as it is written. *)
Theorem search_and_highlight_outcome (sim : str -> str -> Q)
  (tie_order : list Match -> list nat)
  (stop_words : list str) (remove_urls unescape : str -> str)
  (body_HTML : str) (issuer_words : list str) (issuer_ratio : Q)
  (ticker_words : list str) (ticker_ratio : Q) (char_list : list ascii) :
  (forall s x, In x (remove_urls s) -> In x s) ->
  let outcome :=
    search_and_highlight sim tie_order stop_words remove_urls unescape
      body_HTML issuer_words issuer_ratio ticker_words ticker_ratio
      char_list in
  (issuer_words = [] -> outcome = ([], ticker_words, IndexError))
  /\ (issuer_words <> [] -> (0 <= issuer_ratio /\ issuer_ratio <= 1)%Q ->
      ticker_words = [] ->
      outcome = (sort_restricted issuer_words, [], IndexError))
  /\ (issuer_words <> [] -> ticker_words <> [] ->
      (0 <= issuer_ratio /\ issuer_ratio <= 1)%Q ->
      (0 <= ticker_ratio /\ ticker_ratio <= 1)%Q ->
      exists updated report,
        outcome
        = (sort_restricted issuer_words, sort_restricted ticker_words,
           Ok (updated, report)))
  /\ ((exists updated report, snd outcome = Ok (updated, report))
      \/ snd outcome = IndexError \/ snd outcome = TypeError).
Proof.
  intros Hurls outcome. unfold outcome, search_and_highlight.
  set (cleaned :=
         clean_input stop_words remove_urls (unescape (strip_tags body_HTML))
           char_list).
  assert (Hclean : forall c, In c cleaned -> c <> backslash).
  { intros c Hc.
    now apply (clean_input_chars stop_words remove_urls Hurls) in Hc. }
  assert (Hhighlight : forall table_issuer table_ticker,
    snd (fuzzy_search sim tie_order cleaned issuer_words issuer_ratio
           (lit "issuer")) = Ok table_issuer ->
    snd (fuzzy_search sim tie_order cleaned ticker_words ticker_ratio
           (lit "ticker")) = Ok table_ticker ->
    exists updated report,
      highlight body_HTML table_issuer table_ticker = Ok (updated, report)).
  { intros table_issuer table_ticker Htable_issuer Htable_ticker.
    destruct (@highlight_loop_total (length table_issuer)
                (length table_ticker) (table_issuer ++ table_ticker))
      with (idx := 0) (doc := body_HTML) (table := @nil report_item)
      as [[updated report] Hrun].
    - intros row Hrow. apply in_app_or in Hrow as [Hrow|Hrow].
      + eapply matched_word_backslash_free;
          [exact Htable_issuer|exact Hrow|exact Hclean].
      + eapply matched_word_backslash_free;
          [exact Htable_ticker|exact Hrow|exact Hclean].
    - exists updated, report. unfold highlight. rewrite Hrun. reflexivity. }
  split; [intros ->; reflexivity|]. split; [|split].
  - intros Hissuer Hrange ->.
    destruct (@fuzzy_search_returns sim tie_order cleaned issuer_words
                issuer_ratio (lit "issuer") Hissuer Hrange)
      as [table Htable].
    rewrite Htable. reflexivity.
  - intros Hissuer Hticker Hrange_issuer Hrange_ticker.
    destruct (@fuzzy_search_returns sim tie_order cleaned issuer_words
                issuer_ratio (lit "issuer") Hissuer Hrange_issuer)
      as [table_issuer Htable_issuer].
    destruct (@fuzzy_search_returns sim tie_order cleaned ticker_words
                ticker_ratio (lit "ticker") Hticker Hrange_ticker)
      as [table_ticker Htable_ticker].
    destruct (Hhighlight _ _ Htable_issuer Htable_ticker)
      as [updated [report Hrun]].
    rewrite Htable_issuer, Htable_ticker. cbn [bind].
    exists updated, report. rewrite Hrun. reflexivity.
  - destruct (@fuzzy_search_ends sim tie_order cleaned issuer_words
                issuer_ratio (lit "issuer"))
      as [[table_issuer Htable_issuer]|[Hraise|Hraise]].
    + destruct (@fuzzy_search_ends sim tie_order cleaned ticker_words
                  ticker_ratio (lit "ticker"))
        as [[table_ticker Htable_ticker]|[Hraise|Hraise]].
      * destruct (Hhighlight _ _ Htable_issuer Htable_ticker)
          as [updated [report Hrun]].
        left. exists updated, report.
        rewrite Htable_issuer, Htable_ticker. cbn [bind snd]. exact Hrun.
      * right. left. rewrite Htable_issuer, Hraise. reflexivity.
      * right. right. rewrite Htable_issuer, Hraise. reflexivity.
    + right. left. rewrite Hraise. reflexivity.
    + right. right. rewrite Hraise. reflexivity.
Qed.

Lemma search_and_highlight_outcome_witness :
  (exists updated report,
      search_and_highlight indel_similarity keep_order [lit "the"]
        (fun s => s) (fun s => s)
        (lit "<p>the Apple
Inc, and AAPL</p>") [lit "Apple Inc"] (85 # 100)
        [lit "AAPL"] (8 # 10)
        (get_list_of_chars [lit "AAPL"] [lit "Apple Inc"])
      = ([lit "Apple Inc"], [lit "AAPL"], Ok (updated, report))
      /\ updated
         = lit "<p>the " ++ marker (lit "Apple Inc") ++ lit ", and "
             ++ marker (lit "AAPL") ++ lit "</p>")
  /\ search_and_highlight indel_similarity keep_order [lit "the"]
       (fun s => s) (fun s => s)
       (lit "<p>the Apple
Inc, and AAPL</p>") [lit "Apple Inc"] (85 # 100)
       [] (8 # 10)
       (get_list_of_chars [lit "AAPL"] [lit "Apple Inc"])
     = ([lit "Apple Inc"], [], IndexError).
Proof.
  destruct (@search_and_highlight_outcome indel_similarity keep_order
              [lit "the"] (fun s => s) (fun s => s) (lit "<p>the Apple
Inc, and AAPL</p>") [lit "Apple Inc"] (85 # 100)
              [lit "AAPL"] (8 # 10)
              (get_list_of_chars [lit "AAPL"] [lit "Apple Inc"])
              (fun s x Hx => Hx))
    as [_ [_ [Hreturns _]]].
  destruct Hreturns as [updated [report Hrun]];
    [discriminate|discriminate|split; discriminate|split; discriminate|].
  split.
  - exists updated, report.
    split; [rewrite Hrun; vm_compute; reflexivity|].
    vm_compute in Hrun. now injection Hrun as <- _.
  - apply (proj1 (proj2 (@search_and_highlight_outcome indel_similarity
                           keep_order [lit "the"] (fun s => s) (fun s => s)
                           (lit "<p>the Apple
Inc, and AAPL</p>") [lit "Apple Inc"] (85 # 100) [] (8 # 10)
                           (get_list_of_chars [lit "AAPL"] [lit "Apple Inc"])
                           (fun s x Hx => Hx))));
      [discriminate|split; discriminate|reflexivity].
Defined.

(** ** The restricted words of the issuers *)

Lemma split_from_spaces (run cur : str) :
  forallb is_space run = true ->
  split_from cur run = match cur with [] => [] | _ => [rev cur] end.
Proof.
  revert cur. induction run as [|c run IH]; intros cur Hrun; [reflexivity|].
  cbn in Hrun. apply andb_true_iff in Hrun as [Hc Hrun].
  cbn [split_from]. rewrite Hc.
  destruct cur; rewrite IH by exact Hrun; reflexivity.
Qed.

Lemma split_from_trailing (s run : str) :
  forallb is_space run = true ->
  forall cur, split_from cur (s ++ run) = split_from cur s.
Proof.
  intros Hrun. induction s as [|c s IH]; intros cur.
  - cbn [app]. now rewrite split_from_spaces.
  - cbn [app split_from]. destruct (is_space c); [destruct cur|];
      now rewrite IH.
Qed.

Lemma lstrip_spaces (s : str) :
  exists front, s = front ++ lstrip s /\ forallb is_space front = true.
Proof.
  induction s as [|c s [front [IH Hfront]]]; [now exists []|].
  cbn [lstrip]. destruct (is_space c) eqn:Hc; [|now exists []].
  exists (c :: front). split; [cbn; now rewrite <- IH|].
  cbn. now rewrite Hc.
Qed.

Lemma split_lstrip (s : str) : split (lstrip s) = split s.
Proof.
  unfold split. induction s as [|c s IH]; [reflexivity|].
  cbn [lstrip split_from]. destruct (is_space c) eqn:Hc; [exact IH|].
  cbn [split_from]. now rewrite Hc.
Qed.

Lemma split_rstrip (s : str) : split (rstrip s) = split s.
Proof.
  unfold rstrip. destruct (lstrip_spaces (rev s)) as [front [Heq Hfront]].
  apply (f_equal (@rev ascii)) in Heq.
  rewrite rev_involutive, rev_app_distr in Heq.
  rewrite Heq at 2. unfold split. rewrite split_from_trailing; [reflexivity|].
  apply forallb_forall. intros c Hc. apply in_rev in Hc.
  now apply (proj1 (forallb_forall _ _) Hfront).
Qed.

Lemma split_strip (s : str) : split (strip s) = split s.
Proof. unfold strip. now rewrite split_rstrip, split_lstrip. Qed.

Lemma split_collapse (s : str) :
  (forall cur,
      split_from cur (collapse_spaces_from false s) = split_from cur s)
  /\ split_from [] (collapse_spaces_from true s) = split_from [] s.
Proof.
  induction s as [|c s [IHfalse IHtrue]]; [split; reflexivity|].
  cbn [collapse_spaces_from]. destruct (is_space c) eqn:Hc.
  - split.
    + intros cur. destruct s as [|d s'].
      * reflexivity.
      * destruct (is_space d) eqn:Hd.
        -- cbn [split_from]. change (is_space space) with true. rewrite Hc.
           cbn match. destruct cur; now rewrite IHtrue.
        -- cbn [split_from]. rewrite Hc.
           destruct cur; now rewrite IHfalse.
    + cbn [split_from]. now rewrite Hc.
  - split.
    + intros cur. cbn [split_from]. rewrite Hc. apply IHfalse.
    + cbn [split_from]. rewrite Hc. apply IHfalse.
Qed.

Lemma no_double_space_cons (a : ascii) (s : str) :
  no_double_space s = true ->
  is_space a = false \/ starts_without_space s ->
  no_double_space (a :: s) = true.
Proof.
  intros Hs Hor. destruct s as [|b s]; [reflexivity|].
  change (no_double_space (a :: b :: s))
    with (negb (is_space a && is_space b) && no_double_space (b :: s)).
  rewrite Hs, andb_true_r. destruct Hor as [->|Hb]; [reflexivity|].
  cbn in Hb. rewrite Hb. now rewrite andb_false_r.
Qed.

Lemma collapse_no_double_space (s : str) :
  no_double_space (collapse_spaces_from false s) = true
  /\ no_double_space (collapse_spaces_from true s) = true
  /\ starts_without_space (collapse_spaces_from true s).
Proof.
  induction s as [|c s [IHfalse [IHtrue IHhead]]];
    [repeat split; reflexivity|].
  cbn [collapse_spaces_from]. destruct (is_space c) eqn:Hc.
  - split; [|split; assumption].
    destruct s as [|d s']; [reflexivity|].
    destruct (is_space d) eqn:Hd.
    + apply no_double_space_cons; [exact IHtrue|now right].
    + apply no_double_space_cons; [exact IHfalse|]. right.
      cbn [collapse_spaces_from]. rewrite Hd. exact Hd.
  - assert (H : no_double_space (c :: collapse_spaces_from false s) = true)
      by (apply no_double_space_cons; [exact IHfalse|now left]).
    repeat split; try exact H. exact Hc.
Qed.

(** X16. The cleaning of a restricted word of the issuers (line 307) keeps
    its words: [split()] gives the same list before and after, so the
    number of words, which decides the length of the windows the word is
    compared with, does not change; and the cleaned word has no two white
    space characters side by side. *)
Theorem clean_restricted_word_keeps_words (x : str) :
  split (clean_restricted_word x) = split x
  /\ word_count (clean_restricted_word x) = word_count x
  /\ no_double_space (clean_restricted_word x) = true.
Proof.
  assert (Hsplit : split (clean_restricted_word x) = split x).
  { unfold clean_restricted_word, split.
    rewrite (proj1 (split_collapse (strip x))). apply split_strip. }
  split; [exact Hsplit|]. split.
  - unfold word_count. now rewrite Hsplit.
  - apply collapse_no_double_space.
Qed.

(** ** The tags of the body *)

Lemma strip_tags_no_gt (s : str) :
  existsb (Ascii.eqb ">"%char) s = false ->
  strip_tags_from false s = s.
Proof.
  induction s as [|c s IH]; [reflexivity|].
  cbn [existsb]. intros H. apply orb_false_iff in H as [Hc Hs].
  cbn [strip_tags_from]. rewrite Hs, andb_false_r. now rewrite IH.
Qed.

Lemma strip_tags_from_lt (s : str) :
  forall in_tag front back,
    strip_tags_from in_tag s = front ++ "<"%char :: back ->
    ~ In ">"%char back.
Proof.
  induction s as [|c s IH]; intros in_tag front back;
    cbn [strip_tags_from].
  - destruct in_tag; destruct front; discriminate.
  - destruct in_tag.
    + destruct (Ascii.eqb c ">"%char); apply IH.
    + destruct (Ascii.eqb_spec c "<"%char) as [->|Hc]; cbn [andb].
      * destruct (existsb (Ascii.eqb ">"%char) s) eqn:Hgt.
        -- destruct front as [|x front]; [discriminate|].
           intros [= _ H]. now apply IH in H.
        -- rewrite (strip_tags_no_gt _ Hgt).
           assert (Hnone : ~ In ">"%char s).
           { intros Hin.
             assert (existsb (Ascii.eqb ">"%char) s = true); [|congruence].
             apply existsb_exists. exists ">"%char. split; [exact Hin|reflexivity]. }
           destruct front as [|x front].
           ++ intros [= <-]. exact Hnone.
           ++ intros [= _ ->] Hin. apply Hnone.
              apply in_or_app. right. now right.
      * destruct front as [|x front]; [intros [= H _]; congruence|].
        intros [= _ H]. now apply IH in H.
Qed.

(** X17. After the tags are replaced (line 238) no tag is left: in the
    result no [>] comes after a [<]. A body without [<], or without [>],
    is not changed. *)
Theorem strip_tags_leaves_no_tag (body_HTML : str) :
  (forall front back,
      strip_tags body_HTML = front ++ "<"%char :: back ->
      ~ In ">"%char back)
  /\ (~ In ">"%char body_HTML -> strip_tags body_HTML = body_HTML)
  /\ (~ In "<"%char body_HTML -> strip_tags body_HTML = body_HTML).
Proof.
  split; [intros front back; apply strip_tags_from_lt|]. split.
  - intros Hnone. apply strip_tags_no_gt.
    destruct (existsb (Ascii.eqb ">"%char) body_HTML) eqn:E; [|reflexivity].
    exfalso. apply Hnone. apply existsb_exists in E as [x [Hx Heq]].
    apply Ascii.eqb_eq in Heq. now subst.
  - unfold strip_tags. induction body_HTML as [|c s IH]; [reflexivity|].
    intros Hnone. cbn [strip_tags_from].
    destruct (Ascii.eqb_spec c "<"%char) as [->|Hc];
      [exfalso; apply Hnone; now left|].
    cbn [andb]. rewrite IH; [reflexivity|].
    intros Hin. apply Hnone. now right.
Qed.

Lemma strip_tags_leaves_no_tag_witness :
  strip_tags (lit "a<b>c<d e>f > g <h") = lit "a c f > g <h"
  /\ ~ In ">"%char (lit "h").
Proof.
  split; [vm_compute; reflexivity|].
  apply (proj1 (strip_tags_leaves_no_tag (lit "a<b>c<d e>f > g <h"))
           (lit "a c f > g ") (lit "h")).
  vm_compute. reflexivity.
Defined.

(** ** The addresses in the text *)

Lemma run_length_app (p : ascii -> bool) (w r : str) :
  forallb p w = true ->
  run_length p (w ++ r) = length w + run_length p r.
Proof.
  induction w as [|c w IH]; [reflexivity|]. cbn [forallb].
  intros H. apply andb_true_iff in H as [Hc Hw].
  cbn [app run_length length]. rewrite Hc, IH by exact Hw. reflexivity.
Qed.

Lemma run_length_split (p : ascii -> bool) (s : str) :
  forallb p (firstn (run_length p s) s) = true
  /\ run_length p (skipn (run_length p s) s) = 0.
Proof.
  induction s as [|c s [IH1 IH2]]; [split; reflexivity|].
  cbn [run_length]. destruct (p c) eqn:Hc.
  - cbn [firstn skipn forallb]. rewrite Hc. now split.
  - cbn [firstn skipn forallb run_length]. rewrite Hc. now split.
Qed.

(** After the first run, the rest of the pattern decides. *)
Lemma email_length_run (w r : str) :
  forallb in_address w = true -> w <> [] ->
  run_length in_address r = 0 ->
  email_length (w ++ r)
  = option_map (fun k => length w + 1 + k) (address_tail r).
Proof.
  intros Hw Hne Hr. unfold email_length, address_tail. cbv zeta.
  rewrite run_length_app by exact Hw. rewrite Hr, Nat.add_0_r.
  assert (Hskip : skipn (length w) (w ++ r) = r)
    by (rewrite skipn_app, skipn_all, Nat.sub_diag; reflexivity).
  destruct w as [|x w]; [congruence|]. cbn [length] in *. rewrite Hskip.
  destruct r as [|c rest]; [reflexivity|].
  destruct (Ascii.eqb c "@"%char); [|reflexivity].
  destruct (run_length in_address rest); reflexivity.
Qed.

Lemma email_length_no_run (s : str) :
  run_length in_address s = 0 -> email_length s = None.
Proof. unfold email_length. cbv zeta. intros H. rewrite H. reflexivity. Qed.

Lemma remove_emails_from_skip (s : str) :
  forall skip,
    remove_emails_from skip s = remove_emails_from 0 (skipn skip s).
Proof.
  induction s as [|c s IH]; intros [|k]; try reflexivity.
  cbn [remove_emails_from skipn]. apply IH.
Qed.

(** A run that does not start an address is copied. *)
Lemma remove_emails_run (w r : str) :
  forallb in_address w = true ->
  run_length in_address r = 0 ->
  address_tail r = None ->
  remove_emails_from 0 (w ++ r) = w ++ remove_emails_from 0 r.
Proof.
  intros Hw Hr Htail. induction w as [|c w IH]; [reflexivity|].
  assert (Hnone : email_length ((c :: w) ++ r) = None).
  { rewrite email_length_run; [|exact Hw|discriminate|exact Hr].
    rewrite Htail. reflexivity. }
  cbn [forallb] in Hw. apply andb_true_iff in Hw as [Hc Hw].
  cbn [app remove_emails_from] in *. rewrite Hnone. f_equal.
  apply IH. exact Hw.
Qed.

(** What is copied after a run does not start with a character of the
    class. *)
Lemma remove_emails_no_run (r : str) :
  run_length in_address r = 0 ->
  run_length in_address (remove_emails_from 0 r) = 0.
Proof.
  intros Hr. destruct r as [|x r]; [reflexivity|].
  cbn [remove_emails_from]. rewrite (email_length_no_run _ Hr).
  cbn [run_length] in *. destruct (in_address x); [discriminate|reflexivity].
Qed.

Lemma remove_emails_tail (r : str) :
  run_length in_address r = 0 ->
  address_tail r = None ->
  address_tail (remove_emails_from 0 r) = None.
Proof.
  intros Hr Htail. destruct r as [|x r]; [reflexivity|].
  cbn [remove_emails_from]. rewrite (email_length_no_run _ Hr).
  cbn [address_tail] in *.
  destruct (Ascii.eqb x "@"%char); [|reflexivity].
  destruct (run_length in_address r) eqn:Hrun; [|discriminate].
  rewrite remove_emails_no_run by exact Hrun. reflexivity.
Qed.

(** Where no address starts, none starts after the removal behind it. *)
Lemma remove_emails_head (c : ascii) (s : str) :
  email_length (c :: s) = None ->
  email_length (c :: remove_emails_from 0 s) = None.
Proof.
  intros Hnone. destruct (in_address c) eqn:Hc.
  - destruct (run_length_split in_address s) as [Hw Hr].
    set (n := run_length in_address s) in *.
    assert (Hsplit : s = firstn n s ++ skipn n s)
      by (symmetry; apply firstn_skipn).
    assert (Hall : forallb in_address (c :: firstn n s) = true)
      by (cbn [forallb]; rewrite Hc, Hw; reflexivity).
    assert (Htail : address_tail (skipn n s) = None).
    { rewrite Hsplit in Hnone.
      change (c :: firstn n s ++ skipn n s)
        with ((c :: firstn n s) ++ skipn n s) in Hnone.
      rewrite email_length_run in Hnone;
        [|exact Hall|discriminate|exact Hr].
      destruct (address_tail (skipn n s)); [discriminate|reflexivity]. }
    rewrite Hsplit, remove_emails_run; [|exact Hw|exact Hr|exact Htail].
    change (c :: firstn n s ++ remove_emails_from 0 (skipn n s))
      with ((c :: firstn n s) ++ remove_emails_from 0 (skipn n s)).
    rewrite email_length_run;
      [|exact Hall|discriminate|apply remove_emails_no_run; exact Hr].
    rewrite remove_emails_tail; [reflexivity|exact Hr|exact Htail].
  - apply email_length_no_run. cbn [run_length]. rewrite Hc. reflexivity.
Qed.

Lemma remove_emails_from_none (n : nat) :
  forall s front back,
    length s <= n ->
    remove_emails_from 0 s = front ++ back ->
    email_length back = None.
Proof.
  induction n as [|n IH]; intros s front back Hlen Heq.
  - destruct s; [|cbn in Hlen; lia]. cbn in Heq.
    symmetry in Heq. apply app_eq_nil in Heq as [_ ->]. reflexivity.
  - destruct s as [|c s].
    + cbn in Heq. symmetry in Heq. apply app_eq_nil in Heq as [_ ->].
      reflexivity.
    + cbn [length] in Hlen. cbn [remove_emails_from] in Heq.
      destruct (email_length (c :: s)) as [m|] eqn:Hm.
      * rewrite remove_emails_from_skip in Heq.
        apply (IH (skipn (pred m) s) front back); [|exact Heq].
        rewrite length_skipn. lia.
      * destruct front as [|x front].
        -- cbn [app] in Heq. subst back. apply remove_emails_head.
           exact Hm.
        -- cbn [app] in Heq. injection Heq as _ Heq.
           apply (IH s front back); [lia|exact Heq].
Qed.

(** A run, an [@] and a run: an address starts there. *)
Lemma email_length_address (u v rest : str) :
  u <> [] -> v <> [] ->
  forallb in_address u = true -> forallb in_address v = true ->
  email_length (u ++ "@"%char :: v ++ rest) <> None.
Proof.
  intros Hu Hv Hau Hav.
  rewrite email_length_run; [|exact Hau|exact Hu|reflexivity].
  cbn [address_tail]. rewrite Ascii.eqb_refl.
  rewrite run_length_app by exact Hav.
  destruct v as [|x v]; [congruence|]. cbn [length Nat.add option_map].
  discriminate.
Qed.

(** Without an address in it, a text is copied. *)
Lemma remove_emails_from_fixed (t : str) :
  (forall front back, t = front ++ back -> email_length back = None) ->
  remove_emails_from 0 t = t.
Proof.
  induction t as [|c t IH]; intros Hnone; [reflexivity|].
  cbn [remove_emails_from]. rewrite (Hnone [] (c :: t) eq_refl).
  f_equal. apply IH. intros front back Heq.
  apply (Hnone (c :: front) back). cbn [app]. now rewrite Heq.
Qed.

(** X18. After the addresses are removed (line 49) none is left: nowhere
    in the result does a character of the class [[\w\.-]] stand before an
    [@] with a character of the class behind it.  Removing the addresses
    a second time changes nothing. *)
Theorem remove_emails_leaves_no_address (output : str) :
  (forall front u v back,
      remove_emails output = front ++ u ++ "@"%char :: v ++ back ->
      forallb in_address u = true -> forallb in_address v = true ->
      u = [] \/ v = [])
  /\ remove_emails (remove_emails output) = remove_emails output.
Proof.
  assert (Hnone : forall front back,
             remove_emails output = front ++ back ->
             email_length back = None).
  { intros front back Heq.
    apply (@remove_emails_from_none (length output) output front back);
      [lia|exact Heq]. }
  split.
  - intros front u v back Heq Hu Hv.
    destruct u as [|x u]; [now left|].
    destruct v as [|y v]; [now right|]. exfalso.
    apply (@email_length_address (x :: u) (y :: v) back);
      try discriminate; try assumption.
    apply (Hnone front). exact Heq.
  - apply remove_emails_from_fixed. exact Hnone.
Qed.

Lemma remove_emails_leaves_no_address_witness :
  remove_emails (lit "mail a.b@c-d.org or x@y@z now")
  = lit "mail  or @z now"
  /\ (lit "" = [] \/ lit "z" = [])
  /\ remove_emails (remove_emails (lit "mail a.b@c-d.org or x@y@z now"))
     = remove_emails (lit "mail a.b@c-d.org or x@y@z now").
Proof.
  split; [vm_compute; reflexivity|]. split.
  - apply (proj1 (remove_emails_leaves_no_address
                    (lit "mail a.b@c-d.org or x@y@z now"))
             (lit "mail  or ") (lit "") (lit "z") (lit " now"));
      vm_compute; reflexivity.
  - exact (proj2 (remove_emails_leaves_no_address
                    (lit "mail a.b@c-d.org or x@y@z now"))).
Defined.
